(** * django-computedfields: resolver runtime and fast bulk update

    A shallow embedding of [computedfields/resolver.py] (local MRO lookup,
    [compute], [update_computedfields], [bulk_updater], [update_dependent])
    and of [computedfields/fast_update.py] ([fast_update] and its statement
    builders), followed by the properties stated about them.  The start-up
    code of the resolver (collector phase, [initialize], the [computed]
    decorator and its dependency check) is embedded in the module [Boot].

    Python objects are mutable; the embedding threads them through a small
    state-and-exception monad.  Compute functions are taken as functions of
    the instance as the queryset loaded it.  Django itself (querysets,
    [bulk_update], cursors, [transaction.atomic]) is outside the repository
    and enters as the class [Django]. *)

From Stdlib Require Import ZArith.
From stdpp Require Import base gmap strings list pretty.

Local Open Scope Z_scope.

(** ** Python values and model instances *)

(** Field values held by a model instance: [None], integers and strings.
    On these, Python's [!=] is structural inequality. *)
Inductive Value :=
| VNone
| VInt (z : Z)
| VStr (s : string).

#[global] Instance Value_eq_dec : EqDecision Value.
Proof. solve_decision. Defined.

#[global] Instance Value_countable : Countable Value.
Proof.
  refine (inj_countable'
            (λ v, match v with
                  | VNone => inl (inl ())
                  | VInt z => inl (inr z)
                  | VStr s => inr s
                  end)
            (λ x, match x with
                  | inl (inl _) => VNone
                  | inl (inr z) => VInt z
                  | inr s => VStr s
                  end) _).
  by intros [].
Defined.

Definition py_ne (a b : Value) : bool := bool_decide (a ≠ b).

(** A model class is identified by its name. *)
Abbreviation Model := string.

(** A model instance: its class and its attribute dictionary. *)
Record Instance := mkInstance {
  imodel : Model;
  iattrs : gmap string Value
}.

(** [update_fields] arguments are typed [Optional[Iterable[str]]]: callers
    pass lists or sets, or a one-shot iterable such as a generator.
    [FIter items] is a one-shot iterable that still yields [items]; once
    iterated it yields nothing more. *)
Inductive Fields :=
| FList (l : list string)
| FSet (s : gset string)
| FIter (items : list string).

(** [frozenset(f)] and [set(f)]: the names [f] yields when iterated. *)
Definition frozenset (f : Fields) : gset string :=
  match f with
  | FList l => list_to_set l
  | FSet s => s
  | FIter items => list_to_set items
  end.

(** Truth value: a container is true when it is not empty; an iterator
    has no length and is always true. *)
Definition truthy (f : Fields) : bool :=
  match f with
  | FList l => bool_decide (l ≠ [])
  | FSet s => bool_decide (s ≠ ∅)
  | FIter _ => true
  end.

(** The same object after it has been iterated to its end: a container is
    as before, a one-shot iterable is used up. *)
Definition exhausted (f : Fields) : Fields :=
  match f with
  | FIter _ => FIter []
  | _ => f
  end.

Definition opt_truthy (f : option Fields) : bool :=
  match f with
  | None => false
  | Some f => truthy f
  end.

(** ** Exceptions and the state monad *)

Inductive exn :=
| AttributeError (name : string)
| KeyError (key : string)
| ValueError (msg : string)
| FieldDoesNotExist (name : string)
| DatabaseError (msg : string)
| RecursionError.

(** A computation over a mutable state [S]: it ends with a value or with a
    raised exception, and in both cases the mutations done so far stay. *)
Definition M (S A : Type) : Type := S → (exn + A) * S.

Definition ret {S A} (a : A) : M S A := λ s, (inr a, s).

Definition raise {S A} (e : exn) : M S A := λ s, (inl e, s).

Definition bind {S A B} (m : M S A) (k : A → M S B) : M S B :=
  λ s, match m s with
       | (inl e, s') => (inl e, s')
       | (inr a, s') => k a s'
       end.

Notation "x <- c1 ;; c2" := (bind c1 (λ x, c2))
  (at level 100, c1 at next level, right associativity).
Notation "c1 ;;; c2" := (bind c1 (λ _, c2))
  (at level 100, right associativity).

(** [for x in xs: body(x)] *)
Fixpoint for_each {S A} (xs : list A) (body : A → M S unit) : M S unit :=
  match xs with
  | [] => ret tt
  | x :: xs => body x ;;; for_each xs body
  end.

(** ** Instance-level operations *)

(** What a call does to one instance, in program order. *)
Inductive op :=
| OpCompute (field : string)
| OpSetattr (field : string) (v : Value).

Record Frame := mkFrame {
  self : Instance;
  oplog : list op
}.

Definition getattr (name : string) : M Frame Value :=
  λ s, match iattrs (self s) !! name with
       | Some v => (inr v, s)
       | None => (inl (AttributeError name), s)
       end.

Definition setattr (name : string) (v : Value) : M Frame unit :=
  λ s, (inr tt,
        {| self := {| imodel := imodel (self s);
                      iattrs := <[name := v]> (iattrs (self s)) |};
           oplog := oplog s ++ [OpSetattr name v] |}).

(** ** Resolver tables *)

(** One entry of the local MRO map: the evaluation order and, per field
    name, the bitmask of positions in [base] that depend on it. *)
Record MroEntry := mkMroEntry {
  base : list string;
  fields : gmap string Z
}.

(** Lookup map: model -> changed field -> dependent model ->
    (dependent fields, relation paths). *)
Abbreviation ILookupMap :=
  (gmap Model (gmap string (list (Model * (gset string * gset string))))).

(** What [@computed] attaches to a field as [_computed]: the compute
    function and the queryset optimisations. *)
Record IComputedField := mkComputedField {
  func : Instance → Value;
  select_related : list string;
  prefetch_related : list string
}.

Record Resolver := mkResolver {
  _computed_models : gmap Model (gmap string IComputedField);
  _map : ILookupMap;
  _local_mro : gmap Model MroEntry
}.

Definition has_computedfields (r : Resolver) (model : Model) : bool :=
  bool_decide (is_Some (_computed_models r !! model)).

(** [enumerate(base)] *)
Definition enumerate {A} (l : list A) : list (nat * A) :=
  imap (λ pos name, (pos, name)) l.

Definition get_local_mro (r : Resolver) (model : Model)
    (update_fields : option Fields) : list string :=
  match _local_mro r !! model with
  | None => []
  | Some entry =>
    match update_fields with
    | None => base entry
    | Some update_fields =>
      let update_fields := frozenset update_fields in
      let mro :=
        set_fold (λ field mro, Z.lor mro (default 0 (fields entry !! field)))
                 0 update_fields in
      (filter (λ pn, Z.land mro (Z.shiftl 1 (Z.of_nat pn.1)) ≠ 0)
              (enumerate (base entry))).*2
    end
  end.

(** The argument of [get_local_mro] as the call leaves it: it is iterated,
    by [frozenset], only when the model has an entry. *)
Definition get_local_mro_leaves (r : Resolver) (model : Model)
    (update_fields : option Fields) : option Fields :=
  match _local_mro r !! model with
  | None => update_fields
  | Some _ => exhausted <$> update_fields
  end.

(** [self._computed_models[model][fieldname]._computed['func'](instance)] *)
Definition _compute (r : Resolver) (model : Model) (fieldname : string)
    : M Frame Value :=
  λ s, match _computed_models r !! model with
       | None => (inl (KeyError model), s)
       | Some cfs =>
         match cfs !! fieldname with
         | None => (inl (KeyError fieldname), s)
         | Some field =>
           (inr (func field (self s)),
            {| self := self s; oplog := oplog s ++ [OpCompute fieldname] |})
         end
       end.

(** The [for field in mro] loop of [compute]; [stack] holds the saved
    (field, old value) pairs, [pos] is the bit of the requested field. *)
Fixpoint compute_loop (r : Resolver) (model : Model) (entries : gmap string Z)
    (pos : Z) (fieldname : string) (mro : list string)
    (stack : list (string * Value)) : M Frame Value :=
  match mro with
  | [] => ret VNone
  | field :: mro =>
    if bool_decide (field = fieldname) then
      ret_ <- _compute r model fieldname ;;
      for_each stack (λ fo, setattr fo.1 fo.2) ;;;
      ret ret_
    else
      let f_mro := default 0 (entries !! field) in
      if bool_decide (Z.land f_mro pos ≠ 0) then
        old <- getattr field ;;
        new <- _compute r model field ;;
        setattr field new ;;;
        compute_loop r model entries pos fieldname mro (stack ++ [(field, old)])
      else
        compute_loop r model entries pos fieldname mro stack
  end.

(** [mro.index(fieldname)] *)
Definition index (mro : list string) (fieldname : string) : option nat :=
  fst <$> list_find (λ name, name = fieldname) mro.

Definition compute (r : Resolver) (fieldname : string) : M Frame Value :=
  λ s,
    let model := imodel (self s) in
    let mro := get_local_mro r model None in
    if bool_decide (fieldname ∉ mro) then getattr fieldname s
    else
      match _local_mro r !! model with
      | None => raise (KeyError model) s
      | Some entry =>
        match index mro fieldname with
        | None => raise (ValueError fieldname) s
        | Some i =>
          compute_loop r model (fields entry) (Z.shiftl 1 (Z.of_nat i))
                       fieldname mro [] s
        end
      end.

Definition update_computedfields (r : Resolver)
    (update_fields : option Fields) : M Frame (option Fields) :=
  λ s,
    let model := imodel (self s) in
    if negb (has_computedfields r model) then ret update_fields s
    else
      let cf_mro := get_local_mro r model update_fields in
      let update_fields := get_local_mro_leaves r model update_fields in
      let update_fields :=
        match update_fields with
        | Some uf =>
          if truthy uf then Some (FSet (frozenset uf ∪ list_to_set cf_mro))
          else update_fields
        | None => None
        end in
      (for_each cf_mro (λ fieldname,
         new <- _compute r model fieldname ;;
         setattr fieldname new) ;;;
       ret (if opt_truthy update_fields then update_fields else None)) s.

(** The argument of [update_computedfields] as the call leaves it: on a
    model with computed fields a one-shot iterable is used up, by
    [get_local_mro] or at the latest by [set(update_fields)]. *)
Definition update_computedfields_leaves (r : Resolver) (model : Model)
    (update_fields : option Fields) : option Fields :=
  if has_computedfields r model then exhausted <$> update_fields
  else update_fields.

(** ** Reference notions used by the statements *)

(** What [update_computedfields] hands back on a model with computed
    fields.  A non-empty list or set comes back as the set of its names
    extended by the affected local MRO.  Of a one-shot iterable only the
    names still to come after the MRO lookup are left (none when the model
    has an MRO entry): the result is these extended by the affected local
    MRO, or [None] when that is empty.  An omitted argument and an empty
    list or set give [None]. *)
Definition expanded_update_fields (r : Resolver) (model : Model)
    (update_fields : option Fields) : option Fields :=
  let cf_mro := get_local_mro r model update_fields in
  match update_fields with
  | None => None
  | Some (FIter items) =>
    let rest : gset string :=
      if bool_decide (is_Some (_local_mro r !! model)) then ∅
      else list_to_set items in
    if bool_decide (rest ∪ list_to_set cf_mro ≠ ∅)
    then Some (FSet (rest ∪ list_to_set cf_mro)) else None
  | Some uf =>
    if truthy uf then Some (FSet (frozenset uf ∪ list_to_set cf_mro))
    else None
  end.

(** The bitwise OR of the per-field bitmasks of a set of field names,
    missing names counting as [0]. *)
Definition or_of_masks (entry : MroEntry) (names : gset string) : Z :=
  foldr Z.lor 0 ((λ f, default 0 (fields entry !! f)) <$> elements names).

(** The names of [base] whose position bit is set in [mask], in the order
    of [base]. *)
Definition names_with_bit_set (mask : Z) (base : list string) : list string :=
  omap id (imap (λ pos name,
                   if Z.testbit mask (Z.of_nat pos) then Some name else None)
                base).

Definition has_attrs (o : Instance) (names : list string) : Prop :=
  ∀ f, f ∈ names → is_Some (iattrs o !! f).

(** Every name of the model's base sequence has a compute function. *)
Definition mro_funcs_defined (r : Resolver) (model : Model) : Prop :=
  ∀ f, f ∈ get_local_mro r model None →
    ∃ cfs cf, _computed_models r !! model = Some cfs ∧ cfs !! f = Some cf.

(** Overwriting one attribute of an instance. *)
Definition with_attr (o : Instance) (name : string) (v : Value) : Instance :=
  {| imodel := imodel o; iattrs := <[name := v]> (iattrs o) |}.

(** Assigning the listed computed fields one after the other, each from its
    compute function applied to the instance as it stands at that moment. *)
Definition assign_in_order (cfs : gmap string IComputedField)
    (o : Instance) (names : list string) : Instance :=
  foldl (λ o f, match cfs !! f with
                | Some cf => with_attr o f (func cf o)
                | None => o
                end) o names.

(** The operations such a pass performs, in program order. *)
Fixpoint assign_ops (cfs : gmap string IComputedField)
    (o : Instance) (names : list string) : list op :=
  match names with
  | [] => []
  | f :: names =>
    match cfs !! f with
    | Some cf =>
      OpCompute f :: OpSetattr f (func cf o)
        :: assign_ops cfs (with_attr o f (func cf o)) names
    | None => []
    end
  end.

(** The fields assigned by a run of operations, in order. *)
Definition assigned_fields (ops : list op) : list string :=
  omap (λ o, match o with OpSetattr f _ => Some f | OpCompute _ => None end)
       ops.

(** [func] reads none of the attributes [names]. *)
Definition ignores (func : Instance → Value) (names : list string) : Prop :=
  ∀ o o', imodel o = imodel o' →
          (∀ k, k ∉ names → iattrs o !! k = iattrs o' !! k) →
          func o = func o'.

(** Every compute function of a pass over [names] reads neither its own
    field nor a field the pass assigns later: its inputs are source fields
    and computed fields earlier in the order. *)
Definition respects_order (cfs : gmap string IComputedField)
    (names : list string) : Prop :=
  ∀ pre f suf cf,
    names = pre ++ f :: suf → cfs !! f = Some cf →
    ignores (func cf) (f :: suf).

(** ** Example data *)

Definition int_attr (o : Instance) (name : string) (k : Z → Z) : Value :=
  match iattrs o !! name with
  | Some (VInt z) => VInt (k z)
  | _ => VNone
  end.

Definition plain (f : Instance → Value) : IComputedField :=
  {| func := f; select_related := []; prefetch_related := [] |}.

(** Model [Item]: source field [x], computed [a = x + 1] and [b = 2 * a].
    Model [Counter]: computed [c] whose function reads [c] itself. *)
Definition item_funcs : gmap string IComputedField :=
  <["a" := plain (λ o, int_attr o "x" (λ z, z + 1))]>
    (<["b" := plain (λ o, int_attr o "a" (λ z, 2 * z))]> ∅).

Definition counter_funcs : gmap string IComputedField :=
  <["c" := plain (λ o, int_attr o "c" (λ z, z + 1))]> ∅.

Definition item_mro : MroEntry :=
  {| base := ["a"; "b"];
     fields := <["x" := 3]> (<["a" := 3]> (<["b" := 2]> ∅)) |}.

Definition counter_mro : MroEntry :=
  {| base := ["c"]; fields := <["c" := 1]> ∅ |}.

Definition example_resolver : Resolver :=
  {| _computed_models :=
       <["Item" := item_funcs]> (<["Counter" := counter_funcs]> ∅);
     _map := ∅;
     _local_mro := <["Item" := item_mro]> (<["Counter" := counter_mro]> ∅) |}.

Definition item (x a b : Z) : Instance :=
  {| imodel := "Item";
     iattrs := <["x" := VInt x]> (<["a" := VInt a]> (<["b" := VInt b]> ∅)) |}.

Definition counter (c : Z) : Instance :=
  {| imodel := "Counter"; iattrs := <["c" := VInt c]> ∅ |}.

Definition fresh (o : Instance) : Frame := {| self := o; oplog := [] |}.

(** ** Django: what the repository uses of it *)

(** A model field, as far as the code looks at it. *)
Record Field := mkField {
  name : string;
  attname : string;
  column : string
}.

#[global] Instance Field_eq_dec : EqDecision Field.
Proof. solve_decision. Defined.

(** [model._meta] *)
Record Options := mkOptions {
  db_table : string;
  pk : option Field;
  get_fields : list Field;
  local_fields : list Field
}.

(** A database connection: its vendor, the hash of the live connection
    object, which of the two [VALUES] probes of [_adjust_mysql] it accepts,
    and the sqlite library version. *)
Record Connection := mkConnection {
  vendor : string;
  connection_hash : Z;
  accepts_values_table : bool;
  accepts_values_row : bool;
  sqlite_version_info : Z * Z * Z
}.

(** Querysets are lazy descriptions; these are the ones the resolver builds
    or receives. *)
Inductive QuerySet :=
| QNone (model : Model)
| QAll (model : Model)
| QPkIn (model : Model) (pks : list Value)
| QFilter (model : Model) (lookup : string) (rhs : Source)
| QOr (a b : QuerySet)
| QDistinct (q : QuerySet)
| QSelectRelated (q : QuerySet) (names : list string)
| QPrefetchRelated (q : QuerySet) (lookups : list string)
with Source :=
| SrcInstance (o : Instance)
| SrcQuerySet (q : QuerySet).

(** [queryset.model] *)
Fixpoint qs_model (q : QuerySet) : Model :=
  match q with
  | QNone m | QAll m | QPkIn m _ | QFilter m _ _ => m
  | QOr a _ => qs_model a
  | QDistinct q | QSelectRelated q _ | QPrefetchRelated q _ => qs_model q
  end.

(** What the resolver and [fast_update] do towards the database, in program
    order.  [EvUpdate] marks a call of [Resolver._update], [EvBuildSql] a
    run of one of the statement builders. *)
Inductive event :=
| EvAtomicEnter
| EvAtomicCommit
| EvAtomicRollback
| EvBulkUpdate (model : Model) (objs : list Instance) (fieldnames : list string)
               (batch_size : option Z)
| EvUpdate (model : Model) (change : list Instance) (fields : gset string)
| EvBuildSql (vendor : string) (count : Z)
| EvExecute (sql : string) (data : list Value)
| EvWarning (msg : string).

(** The ORM and database below the repository's code.  [evaluate] runs a
    queryset, [bulk_update] is [model.objects.bulk_update], [execute] is
    [cursor.execute], [cast_sql] renders Django's [Cast(Col(..))] for
    postgres. *)
Class Django := {
  DB : Type;
  _meta : Model → Options;
  connection : Connection;
  COMPUTEDFIELDS_FASTUPDATE : bool;
  COMPUTEDFIELDS_BATCHSIZE_FAST : option Z;
  evaluate : DB → QuerySet → list Instance;
  bulk_update :
    DB → Model → list Instance → list string → option Z → (exn + unit) * DB;
  execute : DB → string → list Value → (exn + unit) * DB;
  get_db_prep_save : Field → Value → Value;
  cast_sql : string → Field → string
}.

(** The mutable world of a call: the database, what was sent to it, the
    per-connection vendor cache of [fast_update.py], and the two resolver
    attributes that [bulk_updater] settles on first use. *)
Record World `{dj : Django} := mkWorld {
  db : DB;
  trace : list event;
  CONNECTION_HASHES : gmap Z string;
  use_fastupdate : option bool;
  _batchsize : Z
}.

Section world.
Context `{dj : Django}.

Definition emit (e : event) : M World unit :=
  λ w, (inr tt,
        {| db := db w; trace := trace w ++ [e];
           CONNECTION_HASHES := CONNECTION_HASHES w;
           use_fastupdate := use_fastupdate w;
           _batchsize := _batchsize w |}).

Definition set_db (d : DB) (w : World) : World :=
  {| db := d; trace := trace w; CONNECTION_HASHES := CONNECTION_HASHES w;
     use_fastupdate := use_fastupdate w; _batchsize := _batchsize w |}.

(** [model.objects.bulk_update(objs, fieldnames, batch_size)] *)
Definition objects_bulk_update (model : Model) (objs : list Instance)
    (fieldnames : list string) (batch_size : option Z) : M World unit :=
  emit (EvBulkUpdate model objs fieldnames batch_size) ;;;
  λ w, let '(res, d) := bulk_update (db w) model objs fieldnames batch_size
       in (res, set_db d w).

(** [with connection.cursor() as cur: cur.execute(sql, data)] *)
Definition cursor_execute (sql : string) (data : list Value) : M World unit :=
  emit (EvExecute sql data) ;;;
  λ w, let '(res, d) := execute (db w) sql data in (res, set_db d w).

(** [with transaction.atomic(): body]: commit on normal exit; on an
    exception the database goes back to its state at entry and the
    exception travels on. *)
Definition atomic {A} (body : M World A) : M World A :=
  λ w, match (emit EvAtomicEnter ;;; body) w with
       | (inr a, w') => (emit EvAtomicCommit ;;; ret a) w'
       | (inl e, w') =>
         (emit EvAtomicRollback ;;; raise e) (set_db (db w) w')
       end.

(** A pure step that may raise. *)
Definition lift {S A} (x : exn + A) : M S A := λ s, (x, s).
End world.

(** ** [fast_update.py] *)

(** The double quote character and the two ways of quoting identifiers. *)
Definition dquote : string := String (Ascii.ascii_of_nat 34) EmptyString.

Definition dq (s : string) : string := dquote +:+ s +:+ dquote.

Definition bq (s : string) : string := "`" +:+ s +:+ "`".

(** [sep.join(parts)] *)
Definition join (sep : string) (parts : list string) : string :=
  String.concat sep parts.

(** [[x] * n] for an integer [n] *)
Definition times {A} (x : A) (n : Z) : list A := replicate (Z.to_nat n) x.

(** ['d' if tname != 'd' else 'c'] *)
Definition dname_for (tname : string) : string :=
  if bool_decide (tname ≠ "d") then "d" else "c".

(** [f'({",".join(["%s"] * (len(fields) + 1))})'] *)
Definition placeholders (fields : list Field) : string :=
  "(" +:+ join "," (times "%s" (Z.of_nat (length fields) + 1)) +:+ ")".

Section fast_update.
Context `{dj : Django}.

Definition _cast_col_postgres (tname : string) (field : Field) : string :=
  cast_sql tname field.

Definition as_dummy (tname pkname : string) (fields : list Field)
    (count : Z) : string := EmptyString.

Definition as_postgresql (tname pkname : string) (fields : list Field)
    (count : Z) : string :=
  let dname := dname_for tname in
  let cols :=
    join "," ((λ f, dq (column f) +:+ "=" +:+ _cast_col_postgres dname f)
              <$> fields) in
  let value := placeholders fields in
  let values := join "," (times value count) in
  let dcols :=
    dq pkname +:+ "," +:+ join "," ((λ f, dq (column f)) <$> fields) in
  let where_ :=
    dq tname +:+ "." +:+ dq pkname +:+ "=" +:+ dq dname +:+ "." +:+ dq pkname in
  "UPDATE " +:+ dq tname +:+ " SET " +:+ cols +:+ " FROM (VALUES " +:+ values
    +:+ ") AS " +:+ dq dname +:+ " (" +:+ dcols +:+ ") WHERE " +:+ where_.

Definition as_sqlite (tname pkname : string) (fields : list Field)
    (count : Z) : string :=
  let dname := dname_for tname in
  let cols :=
    join "," (imap (λ i f, dq (column f) +:+ "=" +:+ dq dname +:+ "."
                           +:+ dq ("column" +:+ pretty (i + 2)%nat))
                   fields) in
  let value := placeholders fields in
  let values := join "," (times value count) in
  let where_ :=
    dq tname +:+ "." +:+ dq pkname +:+ "=" +:+ dq dname +:+ "."
      +:+ dq "column1" in
  "UPDATE " +:+ dq tname +:+ " SET " +:+ cols +:+ " FROM (VALUES " +:+ values
    +:+ ") AS " +:+ dq dname +:+ " WHERE " +:+ where_.

Definition as_mysql (tname pkname : string) (fields : list Field)
    (count : Z) : string :=
  let dname := dname_for tname in
  let cols :=
    join "," (imap (λ i f, bq (column f) +:+ "=" +:+ dname +:+ "."
                           +:+ pretty (i + 1)%nat)
                   fields) in
  let value := placeholders fields in
  let values := join "," (times value (count + 1)) in
  let on := bq tname +:+ "." +:+ bq pkname +:+ " = " +:+ dname +:+ ".0" in
  "UPDATE " +:+ bq tname +:+ " INNER JOIN (VALUES " +:+ values +:+ ") AS "
    +:+ dname +:+ " ON " +:+ on +:+ " SET " +:+ cols.

Definition as_mysql8 (tname pkname : string) (fields : list Field)
    (count : Z) : string :=
  let dname := dname_for tname in
  let cols :=
    join "," (imap (λ i f, bq (column f) +:+ "=" +:+ dname +:+ ".column_"
                           +:+ pretty (i + 1)%nat)
                   fields) in
  let value := "ROW" +:+ placeholders fields in
  let values := join "," (times value count) in
  let on :=
    bq tname +:+ "." +:+ bq pkname +:+ " = " +:+ dname +:+ ".column_0" in
  "UPDATE " +:+ bq tname +:+ " INNER JOIN (VALUES " +:+ values +:+ ") AS "
    +:+ dname +:+ " ON " +:+ on +:+ " SET " +:+ cols.

(** [QUERY.get(vendor, as_dummy)] *)
Definition QUERY_get (vendor : string)
    : string → string → list Field → Z → string :=
  if bool_decide (vendor = "sqlite") then as_sqlite
  else if bool_decide (vendor = "postgresql") then as_postgresql
  else if bool_decide (vendor = "mysql") then as_mysql
  else if bool_decide (vendor = "mysql8") then as_mysql8
  else as_dummy.

Definition set_CONNECTION_HASHES (h : gmap Z string) : M World unit :=
  λ w, (inr tt,
        {| db := db w; trace := trace w; CONNECTION_HASHES := h;
           use_fastupdate := use_fastupdate w; _batchsize := _batchsize w |}).

(** The connection is taken as established; each probe is a [SELECT] that
    the connection either accepts or answers with [ProgrammingError]. *)
Definition _adjust_mysql (connection : Connection) : M World string :=
  λ w,
    match CONNECTION_HASHES w !! connection_hash connection with
    | Some vendor => ret vendor w
    | None =>
      let remember vendor :=
        set_CONNECTION_HASHES
          (<[connection_hash connection := vendor]> (CONNECTION_HASHES w)) in
      if accepts_values_table connection then
        (remember "mysql" ;;; ret "mysql") w
      else if accepts_values_row connection then
        (remember "mysql8" ;;; ret "mysql8") w
      else
        (remember EmptyString ;;;
         emit (EvWarning "mysql backend without UPDATE FROM VALUES support, falling back to bulk_update") ;;;
         ret EmptyString) w
    end.

(** [model._meta.get_field(f)] *)
Definition get_field (model : Model) (f : string) : exn + Field :=
  match list_find (λ fld, name fld = f) (get_fields (_meta model)) with
  | Some (_, fld) => inr fld
  | None => inl (FieldDoesNotExist f)
  end.

(** The first loop of [fast_update]: sort the names into non-local and
    local ones. *)
Fixpoint split_fieldnames (model : Model) (fieldnames : list string)
    (non_local_fieldnames local_fieldnames : list string)
    : exn + (list string * list string) :=
  match fieldnames with
  | [] => inr (non_local_fieldnames, local_fieldnames)
  | f :: fieldnames =>
    match get_field model f with
    | inl e => inl e
    | inr fld =>
      if bool_decide (fld ∉ local_fields (_meta model)) then
        split_fieldnames model fieldnames (non_local_fieldnames ++ [f])
                         local_fieldnames
      else
        split_fieldnames model fieldnames non_local_fieldnames
                         (local_fieldnames ++ [f])
    end
  end.

(** [[model._meta.get_field(f) for f in local_fieldnames]] *)
Fixpoint get_all_fields (model : Model) (names : list string)
    : exn + list Field :=
  match names with
  | [] => inr []
  | f :: names =>
    match get_field model f with
    | inl e => inl e
    | inr fld =>
      match get_all_fields model names with
      | inl e => inl e
      | inr flds => inr (fld :: flds)
      end
    end
  end.

(** [getattr(o, name)] on an object that is not being mutated. *)
Definition attr (o : Instance) (name : string) : exn + Value :=
  match iattrs o !! name with
  | Some v => inr v
  | None => inl (AttributeError name)
  end.

(** The value row of one object: primary key first, then the fields. *)
Fixpoint row_values (o : Instance) (fields : list Field) : exn + list Value :=
  match fields with
  | [] => inr []
  | field :: fields =>
    match attr o (attname field) with
    | inl e => inl e
    | inr v =>
      match row_values o fields with
      | inl e => inl e
      | inr vs => inr (get_db_prep_save field v :: vs)
      end
    end
  end.

(** The [for o in objs] loop building the batches. *)
Fixpoint make_batches (pk_field : Field) (fields : list Field)
    (batch_size : Z) (objs : list Instance) (counter : Z) (data : list Value)
    (batches : list (Z * list Value)) : exn + list (Z * list Value) :=
  match objs with
  | [] =>
    inr (if bool_decide (data ≠ []) then batches ++ [(counter, data)]
         else batches)
  | o :: objs =>
    let counter := counter + 1 in
    match row_values o (pk_field :: fields) with
    | inl e => inl e
    | inr sub =>
      let data := data ++ sub in
      if bool_decide (counter >= batch_size) then
        make_batches pk_field fields batch_size objs 0 []
                     (batches ++ [(counter, data)])
      else
        make_batches pk_field fields batch_size objs counter data batches
    end
  end.

(** [list(range(n))] as values *)
Definition range_values (n : nat) : list Value :=
  (λ i, VInt (Z.of_nat i)) <$> seq 0 n.

(** The [for counter, data in batches] loop.  The result tells whether the
    function returned from inside the loop.  [last_counter] is passed on as
    it is: the loop never assigns it. *)
Fixpoint flush_batches (model : Model) (objs : list Instance)
    (fieldnames : list string) (batch_size : Z) (tablename : string)
    (pk_field : Field) (fields : list Field) (vendor : string)
    (sql : string) (last_counter : Z) (batches : list (Z * list Value))
    : M World bool :=
  match batches with
  | [] => ret false
  | (counter, data) :: batches =>
    let send sql :=
      let data :=
        if bool_decide (vendor = "mysql")
        then range_values (length fields + 1) ++ data else data in
      cursor_execute sql data ;;;
      flush_batches model objs fieldnames batch_size tablename pk_field fields
                    vendor sql last_counter batches in
    if bool_decide (counter ≠ last_counter) then
      let sql := QUERY_get vendor tablename (column pk_field) fields counter in
      emit (EvBuildSql vendor counter) ;;;
      if bool_decide (sql = EmptyString) then
        objects_bulk_update model objs fieldnames (Some batch_size) ;;;
        ret true
      else send sql
    else send sql
  end.

(** The [if local_fieldnames:] block; the result tells whether the function
    returned from inside it. *)
Definition fast_update_local (model : Model) (objs : list Instance)
    (fieldnames local_fieldnames : list string) (batch_size : Z)
    : M World bool :=
  let tablename := db_table (_meta model) in
  match pk (_meta model) with
  | None =>
    objects_bulk_update model objs fieldnames (Some batch_size) ;;; ret true
  | Some pk_field =>
    fields <- lift (get_all_fields model local_fieldnames) ;;
    batches <- lift (make_batches pk_field fields batch_size objs 0 [] []) ;;
    vendor <- (if bool_decide (vendor connection = "mysql")
               then _adjust_mysql connection
               else ret (vendor connection)) ;;
    flush_batches model objs fieldnames batch_size tablename pk_field fields
                  vendor EmptyString (-1) batches
  end.

Definition fast_update (model : Model) (objs : list Instance)
    (fieldnames : list string) (batch_size : Z) : M World unit :=
  names <- lift (split_fieldnames model fieldnames [] []) ;;
  let non_local_fieldnames := names.1 in
  let local_fieldnames := names.2 in
  if bool_decide (non_local_fieldnames ≠ [])
     && bool_decide (length local_fieldnames < 2)%nat then
    objects_bulk_update model objs fieldnames (Some batch_size)
  else
    returned <- (if bool_decide (local_fieldnames ≠ [])
                 then fast_update_local model objs fieldnames local_fieldnames
                                        batch_size
                 else ret false) ;;
    if returned : bool then ret tt
    else if bool_decide (non_local_fieldnames ≠ []) then
      objects_bulk_update model objs non_local_fieldnames (Some batch_size)
    else ret tt.

Definition check_support : M World bool :=
  if bool_decide (vendor connection = "postgresql") then ret true
  else if bool_decide (vendor connection = "sqlite") then
    let '(major, minor, _) := sqlite_version_info connection in
    ret (bool_decide (major >= 3) && bool_decide (minor > 32))
  else if bool_decide (vendor connection = "mysql") then
    vendor <- _adjust_mysql connection ;;
    ret (bool_decide (vendor ≠ EmptyString))
  else ret false.

End fast_update.

(** ** [resolver.py]: queryset-level operations *)

(** The second component of an entry of [_querysets_for_update]: the
    queryset, or with [pk_list] the set of primary keys it yields. *)
Inductive Targets :=
| TQuerySet (q : QuerySet)
| TPks (pks : gset Value).

Section resolver.
Context `{dj : Django}.

(** [instance.pk] *)
Definition instance_pk (o : Instance) : exn + Value :=
  match pk (_meta (imodel o)) with
  | Some f => attr o (attname f)
  | None => inl (AttributeError "pk")
  end.

Fixpoint instance_pks (objs : list Instance) : exn + list Value :=
  match objs with
  | [] => inr []
  | o :: objs =>
    match instance_pk o with
    | inl e => inl e
    | inr v =>
      match instance_pks objs with
      | inl e => inl e
      | inr vs => inr (v :: vs)
      end
    end
  end.

(** Running a queryset against the database as it is now. *)
Definition fetch (queryset : QuerySet) : M World (list Instance) :=
  λ w, (inr (evaluate (db w) queryset), w).

Definition _get_model (instance : Source) : Model :=
  match instance with
  | SrcQuerySet q => qs_model q
  | SrcInstance o => imodel o
  end.

(** [model_updates.setdefault(model, (set(), set()))] followed by the two
    [update] calls, on a dictionary kept in insertion order. *)
Fixpoint merge_update (model_updates : list (Model * (gset string * gset string)))
    (model : Model) (fields paths : gset string)
    : list (Model * (gset string * gset string)) :=
  match model_updates with
  | [] => [(model, (fields, paths))]
  | (m, (m_fields, m_paths)) :: rest =>
    if bool_decide (m = model)
    then (m, (m_fields ∪ fields, m_paths ∪ paths)) :: rest
    else (m, (m_fields, m_paths)) :: merge_update rest model fields paths
  end.

(** The union, over all paths, of the filters of [model.objects] on the
    lookup [path+subquery] with value [instance], starting from
    [model.objects.none()]. *)
Definition union_of_filters (model : Model) (paths : gset string)
    (subquery : string) (instance : Source) : QuerySet :=
  foldl (λ queryset path,
           QOr queryset (QFilter model (path +:+ subquery) instance))
        (QNone model) (elements paths).

Fixpoint collect_final
    (model_updates : list (Model * (gset string * gset string)))
    (subquery : string) (instance : Source) (pk_list : bool)
    : M World (list (Model * (Targets * gset string))) :=
  match model_updates with
  | [] => ret []
  | (model, (fields, paths)) :: rest =>
    let queryset := union_of_filters model paths subquery instance in
    if pk_list then
      objs <- fetch (QDistinct queryset) ;;
      pks <- lift (instance_pks objs) ;;
      final <- collect_final rest subquery instance pk_list ;;
      ret (if bool_decide (pks = []) then final
           else (model, (TPks (list_to_set pks), fields)) :: final)
    else
      final <- collect_final rest subquery instance pk_list ;;
      ret ((model, (TQuerySet queryset, fields)) :: final)
  end.

Definition _querysets_for_update (r : Resolver) (model : Model)
    (instance : Source) (update_fields : option Fields)
    (pk_list : bool) : M World (list (Model * (Targets * gset string))) :=
  match _map r !! model with
  | None => ret []
  | Some modeldata =>
    if bool_decide (modeldata = ∅) then ret []
    else
      let updates : gset string :=
        match update_fields with
        | None => dom modeldata
        | Some update_fields =>
          if negb (truthy update_fields) then dom modeldata
          else filter (λ fieldname, fieldname ∈ dom modeldata)
                      (frozenset update_fields)
        end in
      let subquery :=
        match instance with
        | SrcQuerySet _ => "__in"
        | SrcInstance _ => EmptyString
        end in
      let model_updates :=
        foldl (λ model_updates update,
                 foldl (λ model_updates entry,
                          merge_update model_updates entry.1
                                       entry.2.1 entry.2.2)
                       model_updates (default [] (modeldata !! update)))
              [] (elements updates) in
      collect_final model_updates subquery instance pk_list
  end.

Definition preupdate_dependent (r : Resolver) (instance : Source)
    (model : option Model) (update_fields : option Fields)
    : M World (list (Model * (Targets * gset string))) :=
  _querysets_for_update r (default (_get_model instance) model) instance
                        update_fields true.

Definition set_use_fastupdate (b : option bool) : M World unit :=
  λ w, (inr tt,
        {| db := db w; trace := trace w;
           CONNECTION_HASHES := CONNECTION_HASHES w;
           use_fastupdate := b; _batchsize := _batchsize w |}).

Definition set_batchsize (n : Z) : M World unit :=
  λ w, (inr tt,
        {| db := db w; trace := trace w;
           CONNECTION_HASHES := CONNECTION_HASHES w;
           use_fastupdate := use_fastupdate w; _batchsize := n |}).

(** The lazy evaluation of [self.use_fastupdate] in [bulk_updater]. *)
Definition settle_fastupdate : M World unit :=
  λ w,
    match use_fastupdate w with
    | Some _ => ret tt w
    | None =>
      (supported <- (if COMPUTEDFIELDS_FASTUPDATE then check_support
                     else ret false) ;;
       set_use_fastupdate (Some supported) ;;;
       if supported : bool then
         set_batchsize (default (_batchsize w * 10)
                                COMPUTEDFIELDS_BATCHSIZE_FAST)
       else ret tt) w
    end.

Definition _update (queryset : QuerySet) (change : list Instance)
    (fields : gset string) : M World unit :=
  emit (EvUpdate (qs_model queryset) change fields) ;;;
  λ w,
    match use_fastupdate w with
    | Some true =>
      fast_update (qs_model queryset) change (elements fields) (_batchsize w) w
    | _ =>
      objects_bulk_update (qs_model queryset) change (elements fields) None w
    end.

(** The [for comp_field in mro] loop run on one element. *)
Fixpoint recompute (r : Resolver) (model : Model) (mro : list string)
    (has_changed : bool) : M Frame bool :=
  match mro with
  | [] => ret has_changed
  | comp_field :: mro =>
    new_value <- _compute r model comp_field ;;
    current <- getattr comp_field ;;
    if py_ne new_value current then
      setattr comp_field new_value ;;;
      recompute r model mro true
    else recompute r model mro has_changed
  end.

(** The [for elem in queryset] loop of [bulk_updater] with the final
    flush; [seen] collects the elements as the loop leaves them, which is
    what the queryset's result cache holds afterwards. *)
Fixpoint update_loop (r : Resolver) (queryset : QuerySet) (model : Model)
    (mro : list string) (fields : gset string) (elems : list Instance)
    (change : list Instance) (seen : list Instance)
    : M World (list Instance) :=
  match elems with
  | [] =>
    (if bool_decide (change ≠ []) then _update queryset change fields
     else ret tt) ;;;
    ret seen
  | elem :: elems =>
    match recompute r model mro false {| self := elem; oplog := [] |} with
    | (inl e, _) => raise e
    | (inr has_changed, frame) =>
      let elem := self frame in
      let change := if has_changed : bool then change ++ [elem] else change in
      λ w,
        if bool_decide (Z.of_nat (length change) >= _batchsize w) then
          (_update queryset change fields ;;;
           update_loop r queryset model mro fields elems [] (seen ++ [elem])) w
        else
          update_loop r queryset model mro fields elems change
                      (seen ++ [elem]) w
    end
  end.

(** The [select_related] and [prefetch_related] entries of the fields. *)
Fixpoint related_lookups (r : Resolver) (model : Model) (names : list string)
    (select : gset string) (prefetch : list string)
    : exn + (gset string * list string) :=
  match names with
  | [] => inr (select, prefetch)
  | field :: names =>
    match _computed_models r !! model with
    | None => inl (KeyError model)
    | Some cfs =>
      match cfs !! field with
      | None => inl (KeyError field)
      | Some cf =>
        related_lookups r model names
          (select ∪ list_to_set (select_related cf))
          (prefetch ++ prefetch_related cf)
      end
    end
  end.

(** [queryset.select_related( *select)] and
    [queryset.prefetch_related( *prefetch)], each only for a non-empty
    collection. *)
Definition apply_related (related : gset string * list string)
    (queryset : QuerySet) : QuerySet :=
  let queryset :=
    if bool_decide (related.1 ≠ ∅)
    then QSelectRelated queryset (elements related.1) else queryset in
  if bool_decide (related.2 ≠ [])
  then QPrefetchRelated queryset related.2 else queryset.

(** Testing or iterating a queryset: its result cache when the queryset
    was iterated before, a run against the database otherwise. *)
Definition result_cache (queryset : QuerySet)
    (cache : option (list Instance)) : M World (list Instance) :=
  match cache with
  | Some seen => ret seen
  | None => fetch queryset
  end.

(** [bulk_updater], with its call of [update_dependent] left open as
    [descend].  Next to the returned primary keys it hands back
    [update_fields], which the Python code extends in place. *)
Definition bulk_updater_with
    (descend : QuerySet → Model → gset string → M World unit)
    (r : Resolver) (queryset : QuerySet) (update_fields : option (gset string))
    (return_pks local_only : bool)
    : M World (option (gset Value) * option (gset string)) :=
  let queryset := QDistinct queryset in
  let model := qs_model queryset in
  let mro := get_local_mro r model (FSet <$> update_fields) in
  let fields : gset string := list_to_set mro in
  let update_fields :=
    match update_fields with
    | Some uf => if bool_decide (uf ≠ ∅) then Some (uf ∪ fields) else Some uf
    | None => None
    end in
  related <- lift (related_lookups r model (elements fields) ∅ []) ;;
  let queryset := apply_related related queryset in
  settle_fastupdate ;;;
  cache <- (if bool_decide (fields ≠ ∅) then
              elems <- fetch queryset ;;
              seen <- update_loop r queryset model mro fields elems [] [] ;;
              ret (Some seen)
            else ret None) ;;
  cache <- (if local_only then ret cache
            else
              seen <- result_cache queryset cache ;;
              (if bool_decide (seen ≠ []) then descend queryset model fields
               else ret tt) ;;;
              ret (Some seen)) ;;
  if return_pks then
    seen <- result_cache queryset cache ;;
    pks <- lift (instance_pks seen) ;;
    ret (Some (list_to_set pks), update_fields)
  else ret (None, update_fields).

(** The loop over [updates] inside the transaction. *)
Fixpoint update_targets
    (bulk_updater :
       QuerySet → option (gset string) → bool → bool →
       M World (option (gset Value) * option (gset string)))
    (updates : list (Model * (Targets * gset string)))
    (pks_updated : gmap Model (gset Value))
    : M World (gmap Model (gset Value)) :=
  match updates with
  | [] => ret pks_updated
  | (_, (TPks _, _)) :: updates =>
    update_targets bulk_updater updates pks_updated
  | (_, (TQuerySet queryset, fields)) :: updates =>
    res <- bulk_updater queryset (Some fields) true false ;;
    let pks_updated :=
      match res.1 with
      | Some _pks =>
        if bool_decide (_pks ≠ ∅)
        then <[qs_model queryset := _pks]> pks_updated else pks_updated
      | None => pks_updated
      end in
    update_targets bulk_updater updates pks_updated
  end.

(** The loop over [old] inside the transaction. *)
Fixpoint update_old
    (bulk_updater :
       QuerySet → option (gset string) → bool → bool →
       M World (option (gset Value) * option (gset string)))
    (old : list (Model * (gset Value * gset string)))
    (pks_updated : gmap Model (gset Value)) : M World unit :=
  match old with
  | [] => ret tt
  | (model2, (pks, fields)) :: old =>
    let queryset :=
      QPkIn model2 (elements (pks ∖ default ∅ (pks_updated !! model2))) in
    bulk_updater queryset (Some fields) false false ;;;
    update_old bulk_updater old pks_updated
  end.

(** [update_dependent]; [fuel] bounds the depth of the mutual recursion
    with [bulk_updater], as the interpreter's recursion limit does. *)
Fixpoint update_dependent (fuel : nat) (r : Resolver) (instance : Source)
    (model : option Model) (update_fields : option Fields)
    (old : option (list (Model * (gset Value * gset string))))
    (update_local : bool) : M World unit :=
  match fuel with
  | O => raise RecursionError
  | S fuel =>
    let bulk_updater :=
      bulk_updater_with
        (λ queryset model fields,
           update_dependent fuel r (SrcQuerySet queryset) (Some model)
                            (Some (FSet fields)) None false) r in
    let _model := default (_get_model instance) model in
    let _update_fields := frozenset <$> update_fields in
    _update_fields <-
      (if update_local && has_computedfields r _model then
         queryset <-
           match instance with
           | SrcQuerySet q => ret q
           | SrcInstance o =>
             pk <- lift (instance_pk o) ;; ret (QPkIn _model [pk])
           end ;;
         res <- bulk_updater queryset _update_fields false true ;;
         ret res.2
       else ret _update_fields) ;;
    updates <- _querysets_for_update r _model instance
                                     (FSet <$> _update_fields) false ;;
    if bool_decide (updates ≠ []) then
      atomic (
        pks_updated <- update_targets bulk_updater updates ∅ ;;
        match old with
        | Some old => update_old bulk_updater old pks_updated
        | None => ret tt
        end)
    else ret tt
  end.

Definition bulk_updater (fuel : nat) (r : Resolver) (queryset : QuerySet)
    (update_fields : option (gset string)) (return_pks local_only : bool)
    : M World (option (gset Value) * option (gset string)) :=
  bulk_updater_with
    (λ queryset model fields,
       update_dependent fuel r (SrcQuerySet queryset) (Some model)
                        (Some (FSet fields)) None false)
    r queryset update_fields return_pks local_only.

End resolver.

(** ** Reference notions for traces *)

(** How a run ended. *)
Definition raised {A} (res : exn + A) : Prop :=
  match res with inl _ => True | inr _ => False end.

Definition returned {A} (res : exn + A) : Prop :=
  match res with inl _ => False | inr _ => True end.

(** The change lists handed to [Resolver._update], in order. *)
Definition update_batches (tr : list event) : list (list Instance) :=
  omap (λ e, match e with EvUpdate _ change _ => Some change | _ => None end)
       tr.

(** Events of the database layer proper. *)
Definition is_db_event (e : event) : Prop :=
  match e with
  | EvBulkUpdate _ _ _ _ | EvBuildSql _ _ | EvExecute _ _ | EvWarning _ => True
  | _ => False
  end.

(** Events that write rows. *)
Definition is_write (e : event) : bool :=
  match e with
  | EvBulkUpdate _ _ _ _ | EvExecute _ _ => true
  | _ => false
  end.

Definition is_bracket (e : event) : Prop :=
  match e with
  | EvAtomicEnter | EvAtomicCommit | EvAtomicRollback => True
  | _ => False
  end.

Definition is_close (e : event) : Prop :=
  match e with
  | EvAtomicCommit | EvAtomicRollback => True
  | _ => False
  end.

(** Traces in which every [atomic] block that opens also closes. *)
Inductive balanced : list event → Prop :=
| balanced_nil : balanced []
| balanced_plain e tr :
    ¬ is_bracket e → balanced tr → balanced (e :: tr)
| balanced_block inner close tr :
    balanced inner → is_close close → balanced tr →
    balanced (EvAtomicEnter :: inner ++ close :: tr).

(** Nothing, or exactly one outermost [atomic] block. *)
Definition one_atomic_block (tr : list event) : Prop :=
  tr = [] ∨
  ∃ inner close,
    tr = EvAtomicEnter :: inner ++ [close] ∧ balanced inner ∧ is_close close.

(** Every write of the trace happens at nesting depth at least 1, counted
    from [depth]. *)
Fixpoint writes_guarded (depth : nat) (tr : list event) : bool :=
  match tr with
  | [] => true
  | EvAtomicEnter :: tr => writes_guarded (S depth) tr
  | EvAtomicCommit :: tr | EvAtomicRollback :: tr =>
    writes_guarded (pred depth) tr
  | e :: tr =>
    (negb (is_write e) || bool_decide (0 < depth)%nat)
    && writes_guarded depth tr
  end.

(** [m] only appends to the trace, and what it appends satisfies [P]. *)
Definition emits `{dj : Django} (P : list event → Prop) {A}
    (m : M World A) : Prop :=
  ∀ w res w', m w = (res, w') → ∃ new, trace w' = trace w ++ new ∧ P new.

(** The entry node's own update in [update_dependent]: the [local_only]
    call of [bulk_updater] on the instance or queryset the call was given,
    which stands before the transaction.  Its result is the update fields
    as that call leaves them. *)
Definition entry_update `{dj : Django} (fuel : nat) (r : Resolver)
    (instance : Source) (model : option Model) (update_fields : option Fields)
    (update_local : bool) : M World (option (gset string)) :=
  match fuel with
  | O => raise RecursionError
  | S fuel =>
    let _model := default (_get_model instance) model in
    let _update_fields := frozenset <$> update_fields in
    if update_local && has_computedfields r _model then
      queryset <-
        match instance with
        | SrcQuerySet q => ret q
        | SrcInstance o =>
          pk <- lift (instance_pk o) ;; ret (QPkIn _model [pk])
        end ;;
      res <- bulk_updater fuel r queryset _update_fields false true ;;
      ret res.2
    else ret _update_fields
  end.

(** Some recomputed value differs from the value the record holds when the
    field's turn comes. *)
Fixpoint differs_somewhere (cfs : gmap string IComputedField) (o : Instance)
    (mro : list string) : bool :=
  match mro with
  | [] => false
  | f :: mro =>
    match cfs !! f with
    | Some cf =>
      bool_decide (iattrs o !! f ≠ Some (func cf o))
      || differs_somewhere cfs (with_attr o f (func cf o)) mro
    | None => false
    end
  end.

(** The records with such a difference, as the recomputation leaves them. *)
Definition changed_records (cfs : gmap string IComputedField)
    (mro : list string) (elems : list Instance) : list Instance :=
  omap (λ elem, if differs_somewhere cfs elem mro
                then Some (assign_in_order cfs elem mro) else None) elems.

(** ** A small Django for the examples *)

#[global] Instance Instance_eq_dec : EqDecision Instance.
Proof. solve_decision. Defined.

Definition plain_field (n : string) : Field :=
  {| name := n; attname := n; column := n |}.

(** [Item] is an ordinary model; [Special] extends it by multi-table
    inheritance, so only [item_ptr] and [extra] are local to its table;
    [Keyless] has no primary key field. *)
Definition toy_meta (model : Model) : Options :=
  if bool_decide (model = "Item") then
    {| db_table := "app_item"; pk := Some (plain_field "id");
       get_fields := plain_field <$> ["id"; "x"; "a"; "b"];
       local_fields := plain_field <$> ["id"; "x"; "a"; "b"] |}
  else if bool_decide (model = "Special") then
    {| db_table := "app_special"; pk := Some (plain_field "item_ptr");
       get_fields :=
         plain_field <$> ["id"; "x"; "a"; "b"; "item_ptr"; "extra"];
       local_fields := plain_field <$> ["item_ptr"; "extra"] |}
  else if bool_decide (model = "Keyless") then
    {| db_table := "app_keyless"; pk := None;
       get_fields := plain_field <$> ["x"; "a"];
       local_fields := plain_field <$> ["x"; "a"] |}
  else
    {| db_table := model; pk := Some (plain_field "id");
       get_fields := plain_field <$> ["id"; "c"; "owner_id"];
       local_fields := plain_field <$> ["id"; "c"; "owner_id"] |}.

(** [path] of a lookup [path] or [path__in] *)
Fixpoint strip_in (lookup : string) : string :=
  if bool_decide (lookup = "__in") then EmptyString
  else match lookup with
       | EmptyString => EmptyString
       | String c rest => String c (strip_in rest)
       end.

Definition has_value_in (o : Instance) (name : string) (vs : list Value)
    : bool :=
  match iattrs o !! name with
  | Some v => bool_decide (v ∈ vs)
  | None => false
  end.

Definition toy_pks (objs : list Instance) : list Value :=
  omap (λ o, iattrs o !! "id") objs.

(** The toy database is the list of its rows; every model keeps its
    primary key in [id], and a relation [rel] is the column [rel_id]. *)
Fixpoint toy_evaluate (rows : list Instance) (q : QuerySet) : list Instance :=
  match q with
  | QNone _ => []
  | QAll m => filter (λ o, imodel o = m) rows
  | QPkIn m pks =>
    filter (λ o, imodel o = m ∧ has_value_in o "id" pks = true) rows
  | QFilter m lookup rhs =>
    let keys :=
      match rhs with
      | SrcInstance o => toy_pks [o]
      | SrcQuerySet q' => toy_pks (toy_evaluate rows q')
      end in
    filter (λ o, imodel o = m ∧
                 has_value_in o (strip_in lookup +:+ "_id") keys = true) rows
  | QOr a b => toy_evaluate rows a ++ toy_evaluate rows b
  | QDistinct q => remove_dups (toy_evaluate rows q)
  | QSelectRelated q _ | QPrefetchRelated q _ => toy_evaluate rows q
  end.

(** Copy the listed attributes of [src] into [row]. *)
Definition copy_attrs (fieldnames : list string) (src row : Instance)
    : Instance :=
  foldl (λ row f, match iattrs src !! f with
                  | Some v => with_attr row f v
                  | None => row
                  end) row fieldnames.

(** Rows of the model are overwritten from the object with the same [id].
    As Django's [bulk_update] does, the call first reads the primary key
    of every object, which fails on a model without primary key field;
    the table of model [Locked] refuses every write. *)
Definition toy_bulk_update (rows : list Instance) (model : Model)
    (objs : list Instance) (fieldnames : list string) (batch_size : option Z)
    : (exn + unit) * list Instance :=
  if bool_decide (pk (toy_meta model) = None) && bool_decide (objs ≠ []) then
    (inl (AttributeError "attname"), rows)
  else if bool_decide (model = "Locked") then
    (inl (DatabaseError "table is locked"), rows)
  else
    (inr tt,
     (λ row,
        match list_find (λ o, imodel o = imodel row ∧
                              iattrs o !! "id" = iattrs row !! "id") objs with
        | Some (_, o) =>
          if bool_decide (imodel row = model)
          then copy_attrs fieldnames o row else row
        | None => row
        end) <$> rows).

(** The toy database accepts every statement without interpreting it. *)
Definition toy_django (conn : Connection) (fast : bool) : Django :=
  {| DB := list Instance;
     _meta := toy_meta;
     connection := conn;
     COMPUTEDFIELDS_FASTUPDATE := fast;
     COMPUTEDFIELDS_BATCHSIZE_FAST := None;
     evaluate := toy_evaluate;
     bulk_update := toy_bulk_update;
     execute := λ rows _ _, (inr tt, rows);
     get_db_prep_save := λ _ v, v;
     cast_sql := λ tname f, dq tname +:+ "." +:+ dq (column f) |}.

Definition sqlite_connection : Connection :=
  {| vendor := "sqlite"; connection_hash := 1;
     accepts_values_table := false; accepts_values_row := false;
     sqlite_version_info := (3, 38, 0) |}.

Definition toy_world (conn : Connection) (fast : bool)
    (rows : list Instance) : @World (toy_django conn fast) :=
  @mkWorld (toy_django conn fast) rows [] ∅ None 100.

Definition item_row (id x a b : Z) : Instance :=
  {| imodel := "Item";
     iattrs := <["id" := VInt id]> (iattrs (item x a b)) |}.

Definition keyless_row (x a : Z) : Instance :=
  {| imodel := "Keyless";
     iattrs := <["x" := VInt x]> (<["a" := VInt a]> ∅) |}.

Definition sqlite_django : Django := toy_django sqlite_connection true.

Definition sqlite_world (rows : list Instance) : @World sqlite_django :=
  toy_world sqlite_connection true rows.

(** A dependent model [dep] with computed field [c], recomputed whenever
    [Item.a] changes and found through the relation [owner]. *)
Definition dependent_funcs : gmap string IComputedField :=
  <["c" := plain (λ o, int_attr o "owner_id" (λ z, z + 100))]> ∅.

Definition dependent_mro : MroEntry :=
  {| base := ["c"]; fields := <["c" := 1]> (<["owner_id" := 1]> ∅) |}.

Definition dependent_resolver (dep : Model) : Resolver :=
  {| _computed_models :=
       <["Item" := item_funcs]> (<[dep := dependent_funcs]> ∅);
     _map :=
       <["Item" := <["a" := [(dep, ({["c"]}, {["owner"]}))]]> ∅]> ∅;
     _local_mro :=
       <["Item" := item_mro]> (<[dep := dependent_mro]> ∅) |}.

Definition dependent_row (dep : Model) (id owner c : Z) : Instance :=
  {| imodel := dep;
     iattrs := <["id" := VInt id]>
                 (<["owner_id" := VInt owner]> (<["c" := VInt c]> ∅)) |}.

Definition plain_django : Django := toy_django sqlite_connection false.

Definition plain_world (rows : list Instance) : @World plain_django :=
  toy_world sqlite_connection false rows.

(** The names of [pre] that [compute] leaves alone on its way to the field
    with position bit [pos]: those whose bitmask lacks that bit. *)
Definition off_path (entry : MroEntry) (pos : Z) (pre : list string)
    : list string :=
  filter (λ g, Z.land (default 0 (fields entry !! g)) pos = 0) pre.

(** Two more connections: a backend [fast_update] has no statement builder
    for, and a MySQL-family server described by the probes it accepts. *)
Definition oracle_connection : Connection :=
  {| vendor := "oracle"; connection_hash := 2;
     accepts_values_table := false; accepts_values_row := false;
     sqlite_version_info := (0, 0, 0) |}.

Definition mysql_connection (values_table values_row : bool) : Connection :=
  {| vendor := "mysql"; connection_hash := 3;
     accepts_values_table := values_table; accepts_values_row := values_row;
     sqlite_version_info := (0, 0, 0) |}.

(** [m] leaves the component [f] of the world as it is. *)
Definition keeps `{dj : Django} {X A} (f : World → X) (m : M World A) : Prop :=
  ∀ w res w', m w = (res, w') → f w' = f w.

(** What sending [batches] one statement each looks like in the trace: for
    every batch a run of the vendor's statement builder at the batch's
    record count and the execution of its text on the batch's values,
    headed by the index row on [mysql]. *)
Definition statements_for `{dj : Django} (vendor tablename pkname : string)
    (fields : list Field) (batches : list (Z * list Value)) : list event :=
  concat ((λ cd : Z * list Value,
             [EvBuildSql vendor cd.1;
              EvExecute (QUERY_get vendor tablename pkname fields cd.1)
                        (if bool_decide (vendor = "mysql")
                         then range_values (length fields + 1) ++ cd.2
                         else cd.2)]) <$> batches).

(** ** [resolver.py]: collector phase and start-up *)

Module Boot.

(** A field object as the resolver looks at it.  Django compares and
    hashes fields by their [creation_counter], so a Python set of fields is
    a collection without two fields of the same counter.  [_computed] is
    the attribute the [computed] decorator attaches. *)
Record FieldObj := mkFieldObj {
  creation_counter : Z;
  attname : string;
  _computed : option IComputedField
}.

(** [fields.add(field)] on such a set *)
Definition set_add (field : FieldObj) (fields : list FieldObj)
    : list FieldObj :=
  if bool_decide (creation_counter field ∈ creation_counter <$> fields)
  then fields else fields ++ [field].

(** [field in fields] *)
Definition contains (fields : list FieldObj) (field : FieldObj) : bool :=
  bool_decide (creation_counter field ∈ creation_counter <$> fields).

Inductive exn :=
| ResolverException (msg : string)
| TypeError (msg : string).

(** The attributes of a resolver that the start-up code reads and
    writes. *)
Record Resolver := mkResolver {
  models : gset Model;
  computedfields : list FieldObj;
  _computed_models : gmap Model (gmap string FieldObj);
  _fk_map : gmap Model (gset string);
  _sealed : bool;
  _initialized : bool;
  _map_loaded : bool
}.

(** A method of the resolver: it returns or raises, and the attributes
    written before stay written. *)
Definition B (A : Type) : Type := Resolver → (exn + A) * Resolver.

Definition ret {A} (a : A) : B A := λ self, (inr a, self).

Definition raise {A} (e : exn) : B A := λ self, (inl e, self).

Definition bind {A C} (m : B A) (k : A → B C) : B C :=
  λ self, match m self with
          | (inl e, self') => (inl e, self')
          | (inr a, self') => k a self'
          end.

Definition __init__ : Resolver :=
  {| models := ∅; computedfields := []; _computed_models := ∅;
     _fk_map := ∅; _sealed := false; _initialized := false;
     _map_loaded := false |}.

Definition add_model (sender : Model) : B unit :=
  λ self,
    if _sealed self then
      raise (ResolverException "cannot add models on sealed resolver") self
    else
      (inr tt,
       {| models := models self ∪ {[sender]};
          computedfields := computedfields self;
          _computed_models := _computed_models self;
          _fk_map := _fk_map self; _sealed := _sealed self;
          _initialized := _initialized self;
          _map_loaded := _map_loaded self |}).

Definition add_field (field : FieldObj) : B unit :=
  λ self,
    if _sealed self then
      raise (ResolverException
               "cannot add computed fields on sealed resolver") self
    else
      (inr tt,
       {| models := models self;
          computedfields := set_add field (computedfields self);
          _computed_models := _computed_models self;
          _fk_map := _fk_map self; _sealed := _sealed self;
          _initialized := _initialized self;
          _map_loaded := _map_loaded self |}).

Definition seal : B unit :=
  λ self,
    (inr tt,
     {| models := models self; computedfields := computedfields self;
        _computed_models := _computed_models self;
        _fk_map := _fk_map self; _sealed := true;
        _initialized := _initialized self;
        _map_loaded := _map_loaded self |}).

Section django.
(** [django.VERSION < (3, 2)], [model._meta.fields] and
    [issubclass(model, _ComputedFieldsModelBase)]. *)
Variable django_lesser_3_2 : bool.
Variable meta_fields : Model → list FieldObj.
Variable is_ComputedFieldsModel : Model → bool.

(** The generator, run to its end. *)
Definition models_with_computedfields : B (list (Model * list FieldObj)) :=
  λ self,
    if negb (_sealed self) then
      raise (ResolverException
               "resolver must be sealed before accessing models or fields")
            self
    else if django_lesser_3_2 then
      ret (omap (λ model,
                   let fields :=
                     foldl (λ fields field,
                              if contains (computedfields self) field
                              then set_add field fields else fields)
                           [] (meta_fields model) in
                   if bool_decide (fields ≠ []) then Some (model, fields)
                   else None)
                (elements (models self))) self
    else
      let field_ids := creation_counter <$> computedfields self in
      ret (omap (λ model,
                   let fields :=
                     foldl (λ fields field,
                              if bool_decide (is_Some (_computed field))
                                 && bool_decide
                                      (creation_counter field ∈ field_ids)
                              then set_add field fields else fields)
                           [] (meta_fields model) in
                   if bool_decide (fields ≠ []) then Some (model, fields)
                   else None)
                (elements (models self))) self.

(** The second generator, run to its end.  [field in model._meta.fields]
    is membership in a list, which compares fields like a set does. *)
Definition computedfields_with_models : B (list (FieldObj * gset Model)) :=
  λ self,
    if negb (_sealed self) then
      raise (ResolverException
               "resolver must be sealed before accessing models or fields")
            self
    else if django_lesser_3_2 then
      ret ((λ field,
              let models :=
                foldl (λ (models : gset Model) model,
                         if contains (meta_fields model) field
                         then models ∪ {[model]} else models)
                      ∅ (elements (models self)) in
              (field, models))
           <$> computedfields self) self
    else
      ret ((λ field,
              let models :=
                foldl (λ (models : gset Model) model,
                         foldl (λ (models : gset Model) f,
                                  if bool_decide (is_Some (_computed field))
                                     && bool_decide (creation_counter f
                                                     = creation_counter field)
                                  then models ∪ {[model]} else models)
                               models (meta_fields model))
                      ∅ (elements (models self)) in
              (field, models))
           <$> computedfields self) self.

(** The property [computed_models]. *)
Definition computed_models : B (gmap Model (gmap string FieldObj)) :=
  λ self,
    if _initialized self then ret (_computed_models self) self
    else raise (ResolverException "resolver is not properly initialized") self.

(** The loop of [extract_computed_models], which is the same in both
    version branches. *)
Fixpoint extract_loop (pairs : list (Model * list FieldObj))
    (computed_models : gmap Model (gmap string FieldObj))
    : exn + gmap Model (gmap string FieldObj) :=
  match pairs with
  | [] => inr computed_models
  | (model, computedfields) :: pairs =>
    if negb (is_ComputedFieldsModel model) then
      inl (ResolverException
             (model +:+ " is not a subclass of ComputedFieldsModel"))
    else
      extract_loop pairs
        (<[model := foldl (λ entry field, <[attname field := field]> entry)
                          ∅ computedfields]> computed_models)
  end.

Definition extract_computed_models
    : B (gmap Model (gmap string FieldObj)) :=
  if django_lesser_3_2 then
    bind models_with_computedfields
         (λ pairs self, (extract_loop pairs ∅, self))
  else
    bind models_with_computedfields
         (λ pairs self, (extract_loop pairs ∅, self)).

(** [load_maps] builds the maps with the graph module, which is not part
    of the sources at hand; it enters as a parameter. *)
Variable load_maps : B unit.

Definition initialize (models_only : bool) : B unit :=
  bind seal (λ _,
  bind extract_computed_models (λ computed_models,
  bind (λ self,
          (inr tt,
           {| models := models self; computedfields := computedfields self;
              _computed_models := computed_models;
              _fk_map := _fk_map self; _sealed := _sealed self;
              _initialized := true;
              _map_loaded := _map_loaded self |})) (λ _,
  if negb models_only then load_maps else ret tt))).

Definition get_contributing_fks : B (gmap Model (gset string)) :=
  λ self,
    if negb (_map_loaded self) then
      raise (ResolverException "resolver has no maps loaded yet") self
    else ret (_fk_map self) self.

End django.

(** Python values as far as [_sanity_check] tells them apart. *)
#[local] Unset Elimination Schemes.

Inductive PyObj :=
| PyNone
| PyInt (z : Z)
| PyStr (s : string)
| PyTuple (items : list PyObj)
| PyList (items : list PyObj)
| PyField (field : FieldObj).

#[local] Set Elimination Schemes.

(** [isinstance(o, Field)] and [isinstance(o, str)] *)
Definition is_Field (o : PyObj) : bool :=
  match o with PyField _ => true | _ => false end.

Definition is_str (o : PyObj) : bool :=
  match o with PyStr _ => true | _ => false end.

(** [iter(o)], run to its end; [None] is Python's [TypeError] for an
    object that is not iterable.  A string yields its characters, each a
    string. *)
Definition py_iter (o : PyObj) : option (list PyObj) :=
  match o with
  | PyStr s =>
    Some ((λ c, PyStr (String c EmptyString)) <$> String.list_ascii_of_string s)
  | PyTuple items | PyList items => Some items
  | PyNone | PyInt _ | PyField _ => None
  end.

(** The message text, cut to its first line. *)
Definition MALFORMED_DEPENDS : string :=
  "Your depends keyword argument is malformed.".

(** The body of the [for rule in depends] loop. *)
Definition check_rule (rule : PyObj) : exn + unit :=
  match py_iter rule with
  | None => inl (TypeError "cannot unpack non-iterable object")
  | Some [path; fieldnames] =>
    if negb (is_str path) then inl (ResolverException MALFORMED_DEPENDS)
    else
      match py_iter fieldnames with
      | None => inl (TypeError "object is not iterable")
      | Some names =>
        if negb (forallb is_str names)
        then inl (ResolverException MALFORMED_DEPENDS)
        else inr tt
      end
  | Some _ => inl (ResolverException MALFORMED_DEPENDS)
  end.

Fixpoint check_rules (depends : list PyObj) : exn + unit :=
  match depends with
  | [] => inr tt
  | rule :: depends =>
    match check_rule rule with
    | inl e => inl e
    | inr _ => check_rules depends
    end
  end.

Definition _sanity_check (field : PyObj) (depends : list PyObj) : exn + unit :=
  if negb (is_Field field) then
    inl (ResolverException "field argument is not a Field instance")
  else check_rules depends.

(** The decorator [computed(field, depends, select_related,
    prefetch_related)] applied to the method [func]: the field is checked,
    marked with [_computed] and collected.  An argument left out is
    [None]. *)
Definition computed (field : PyObj) (depends : option (list PyObj))
    (select_related prefetch_related : option (list string))
    (func : Instance → Value) : B FieldObj :=
  λ self,
    match _sanity_check field (default [] depends) with
    | inl e => raise e self
    | inr _ =>
      match field with
      | PyField field =>
        let cf :=
          {| creation_counter := creation_counter field;
             attname := attname field;
             _computed :=
               Some {| func := func;
                       select_related := default [] select_related;
                       prefetch_related := default [] prefetch_related |}
          |} in
        bind (add_field cf) (λ _, ret cf) self
      | _ =>
        (* not reached: the check above rejects such a field *)
        raise (TypeError "field has no attributes") self
      end
    end.

End Boot.

(** ** [resolver.py]: remaining runtime helpers *)

(** [self._computed_models.get(model, {}).keys()] *)
Definition get_computedfields (r : Resolver) (model : Model) : gset string :=
  dom (default ∅ (_computed_models r !! model)).

Definition is_computedfield (r : Resolver) (model : Model)
    (fieldname : string) : bool :=
  bool_decide (fieldname ∈ get_computedfields r model).

(** The [_save] wrapper that [precomputed] puts around a save method
    [func].  Of the keyword arguments only [update_fields] and
    [skip_computedfields] matter here; an absent [update_fields] and
    [None] are the same to [save].  When the result of
    [update_computedfields] is false, [kwargs] keeps the caller's object,
    as that call left it. *)
Definition _save {A} (r : Resolver) (skip : bool)
    (func : option Fields → bool → M Frame A)
    (update_fields : option Fields) : M Frame A :=
  λ s,
    (new_fields <- update_computedfields r update_fields ;;
     let kept :=
       update_computedfields_leaves r (imodel (self s)) update_fields in
     let update_fields :=
       if opt_truthy new_fields then new_fields else kept in
     func update_fields skip) s.

(** ** Reference notions for the start-up code *)

(** A field of some model counts as a computed field of the resolver: its
    creation counter is that of a collected field and, from Django 3.2 on,
    it carries [_computed]. *)
Definition is_tracked (django_lesser_3_2 : bool) (self : Boot.Resolver)
    (field : Boot.FieldObj) : Prop :=
  Boot.creation_counter field
    ∈ Boot.creation_counter <$> Boot.computedfields self ∧
  (django_lesser_3_2 = false → is_Some (Boot._computed field)).

(** A dependency rule of the documented form: a pair of a string and an
    iterable of strings. *)
Definition well_formed_rule (rule : Boot.PyObj) : Prop :=
  ∃ path fieldnames names,
    Boot.py_iter rule = Some [Boot.PyStr path; fieldnames] ∧
    Boot.py_iter fieldnames = Some names ∧
    Forall (λ name, Boot.is_str name = true) names.

(** The test [models_with_computedfields] applies to a field of a model,
    in either version branch, and the set of fields it gathers for one
    model. *)
Definition generator_test (django_lesser_3_2 : bool) (self : Boot.Resolver)
    (field : Boot.FieldObj) : bool :=
  if django_lesser_3_2 then Boot.contains (Boot.computedfields self) field
  else bool_decide (is_Some (Boot._computed field))
       && bool_decide (Boot.creation_counter field
                         ∈ Boot.creation_counter <$> Boot.computedfields self).

Definition generator_fields (django_lesser_3_2 : bool)
    (meta_fields : Model → list Boot.FieldObj) (self : Boot.Resolver)
    (model : Model) : list Boot.FieldObj :=
  foldl (λ fields field,
           if generator_test django_lesser_3_2 self field
           then Boot.set_add field fields else fields)
        [] (meta_fields model).

(** Example start-up data: model [Item] with the plain field [id] and the
    computed field [a]; model [Foreign], which has the computed field [c]
    but does not derive from [ComputedFieldsModel]. *)
Definition boot_id : Boot.FieldObj :=
  {| Boot.creation_counter := 1; Boot.attname := "id";
     Boot._computed := None |}.

Definition boot_a : Boot.FieldObj :=
  {| Boot.creation_counter := 2; Boot.attname := "a";
     Boot._computed := Some (plain (λ o, int_attr o "x" (λ z, z + 1))) |}.

Definition boot_c : Boot.FieldObj :=
  {| Boot.creation_counter := 3; Boot.attname := "c";
     Boot._computed := Some (plain (λ o, int_attr o "c" (λ z, z + 1))) |}.

Definition boot_meta (model : Model) : list Boot.FieldObj :=
  if bool_decide (model = "Item") then [boot_id; boot_a]
  else if bool_decide (model = "Foreign") then [boot_c]
  else [].

Definition boot_is_ComputedFieldsModel (model : Model) : bool :=
  bool_decide (model = "Item").

(** The resolver after the collector phase has seen the given models and
    the two computed fields. *)
Definition collected (models : list Model) : Boot.Resolver :=
  {| Boot.models := list_to_set models;
     Boot.computedfields := [boot_a; boot_c];
     Boot._computed_models := ∅; Boot._fk_map := ∅;
     Boot._sealed := false; Boot._initialized := false;
     Boot._map_loaded := false |}.

(** The merged updates account for a dependency on [model] with the given
    fields and paths. *)
Definition covers (model_updates : list (Model * (gset string * gset string)))
    (model : Model) (fields paths : gset string) : Prop :=
  ∃ all_fields all_paths,
    (model, (all_fields, all_paths)) ∈ model_updates ∧
    fields ⊆ all_fields ∧ paths ⊆ all_paths.

(** * Properties *)

(** ** Local MRO lookup *)

Lemma land_shiftl_1_testbit (m : Z) (n : nat) :
  Z.land m (Z.shiftl 1 (Z.of_nat n)) ≠ 0 ↔ Z.testbit m (Z.of_nat n) = true.
Proof.
  rewrite Z.shiftl_1_l. split.
  - intros Hne. destruct (Z.testbit m (Z.of_nat n)) eqn:Hb; [done|].
    exfalso. apply Hne. apply Z.bits_inj'. intros k Hk.
    rewrite Z.land_spec, Z.bits_0.
    destruct (decide (k = Z.of_nat n)) as [->|Hkn].
    + by rewrite Hb.
    + rewrite Z.pow2_bits_false by lia. apply andb_false_r.
  - intros Hb Hz.
    assert (Z.testbit (Z.land m (2 ^ Z.of_nat n)) (Z.of_nat n) = true) as Hc.
    { rewrite Z.land_spec, Hb, Z.pow2_bits_true by lia. done. }
    rewrite Hz, Z.bits_0 in Hc. done.
Qed.

Lemma set_fold_lor_masks (entry : MroEntry) (names : gset string) :
  set_fold (λ field mro, Z.lor mro (default 0 (fields entry !! field))) 0 names
  = or_of_masks entry names.
Proof.
  unfold set_fold, or_of_masks. simpl.
  induction (elements names) as [|f l IH]; simpl; [done|].
  rewrite IH. apply Z.lor_comm.
Qed.

Lemma or_of_masks_testbit (entry : MroEntry) (names : gset string) (i : Z) :
  Z.testbit (or_of_masks entry names) i = true ↔
  ∃ f m, f ∈ names ∧ fields entry !! f = Some m ∧ Z.testbit m i = true.
Proof.
  unfold or_of_masks.
  assert (∀ l : list string,
    Z.testbit (foldr Z.lor 0 ((λ f, default 0 (fields entry !! f)) <$> l)) i
      = true ↔
    ∃ f m, f ∈ l ∧ fields entry !! f = Some m ∧ Z.testbit m i = true) as Hl.
  { induction l as [|f l IH]; simpl.
    - rewrite Z.bits_0. split; [done|]. intros (f & m & Hf & _).
      by apply elem_of_nil in Hf.
    - rewrite Z.lor_spec, orb_true_iff, IH. split.
      + intros [Hb|(g & m & Hg & Hm & Hb)].
        * destruct (fields entry !! f) as [m|] eqn:Hm; simpl in Hb.
          -- exists f, m. split_and!; [left|done..].
          -- by rewrite Z.bits_0 in Hb.
        * exists g, m. split_and!; [by right|done..].
      + intros (g & m & Hg & Hm & Hb).
        apply elem_of_cons in Hg as [->|Hg].
        * left. by rewrite Hm.
        * right. by exists g, m. }
  rewrite Hl. by setoid_rewrite elem_of_elements.
Qed.

Lemma filter_imap_positions (P : nat → Prop) `{!∀ i, Decision (P i)}
    (Q : nat → bool) (g : nat → nat) (l : list string) :
  (∀ i, P i ↔ Q i = true) →
  (filter (λ pn : nat * string, P pn.1) (imap (λ i x, (g i, x)) l)).*2
  = omap id (imap (λ i x, if Q (g i) then Some x else None) l).
Proof.
  intros HPQ. revert g. induction l as [|x l IH]; intros g; [done|].
  simpl. rewrite filter_cons. simpl.
  specialize (IH (g ∘ S)). simpl in IH.
  destruct (Q (g 0%nat)) eqn:Hq.
  - rewrite decide_True by by apply HPQ. simpl. f_equal. apply IH.
  - rewrite decide_False by (rewrite HPQ, Hq; done). apply IH.
Qed.

Lemma names_with_bit_set_sublist (mask : Z) (l : list string) :
  sublist (names_with_bit_set mask l) l.
Proof.
  unfold names_with_bit_set.
  assert (∀ (Q : nat → bool),
    sublist (omap id (imap (λ i x, if Q i then Some x else None) l)) l) as H.
  { induction l as [|x l IH]; intros Q; [done|]. simpl.
    destruct (Q 0%nat); simpl.
    - apply sublist_skip, (IH (Q ∘ S)).
    - apply sublist_cons, (IH (Q ∘ S)). }
  apply (H (λ i, Z.testbit mask (Z.of_nat i))).
Qed.

Lemma names_with_bit_set_elem (mask : Z) (l : list string) (name : string) :
  name ∈ names_with_bit_set mask l ↔
  ∃ pos : nat, l !! pos = Some name ∧ Z.testbit mask (Z.of_nat pos) = true.
Proof.
  unfold names_with_bit_set. rewrite list_elem_of_omap. split.
  - intros (o & Ho & Hid). simpl in Hid. subst o.
    apply elem_of_lookup_imap in Ho as (pos & x & Hx & Hpos).
    exists pos. destruct (Z.testbit mask (Z.of_nat pos)); naive_solver.
  - intros (pos & Hpos & Hb). exists (Some name). split; [|done].
    apply elem_of_lookup_imap. exists pos, name. by rewrite Hb.
Qed.

(** C3 (get_local_mro): a model without entry yields the empty list; with
    [update_fields] omitted the stored base sequence is returned; otherwise
    the result is exactly the names of the base sequence whose position bit
    is set in the OR of the bitmasks of the given fields, in base order: a
    subsequence of the base, containing a name iff one of its positions is
    marked by the bitmask of some given field. *)
Theorem get_local_mro_bitmask_filter (r : Resolver) (model : Model) :
  (_local_mro r !! model = None →
     ∀ update_fields, get_local_mro r model update_fields = []) ∧
  (∀ entry, _local_mro r !! model = Some entry →
     get_local_mro r model None = base entry ∧
     ∀ update_fields,
       let mro := get_local_mro r model (Some update_fields) in
       mro = names_with_bit_set
               (or_of_masks entry (frozenset update_fields)) (base entry) ∧
       sublist mro (base entry) ∧
       ∀ name, name ∈ mro ↔
         ∃ (pos : nat) f m,
           base entry !! pos = Some name ∧ f ∈ frozenset update_fields ∧
           fields entry !! f = Some m ∧ Z.testbit m (Z.of_nat pos) = true).
Proof.
  split.
  - intros Hnone uf. unfold get_local_mro. by rewrite Hnone.
  - intros entry Hentry. unfold get_local_mro. rewrite Hentry.
    split; [done|]. intros uf. simpl.
    rewrite set_fold_lor_masks.
    assert ((filter
        (λ pn : nat * string,
           Z.land (or_of_masks entry (frozenset uf))
                  (Z.shiftl 1 (Z.of_nat pn.1)) ≠ 0)
        (enumerate (base entry))).*2
      = names_with_bit_set (or_of_masks entry (frozenset uf)) (base entry))
      as ->.
    { unfold enumerate, names_with_bit_set.
      exact (filter_imap_positions
               (λ i, Z.land (or_of_masks entry (frozenset uf))
                            (Z.shiftl 1 (Z.of_nat i)) ≠ 0)
               (λ i, Z.testbit (or_of_masks entry (frozenset uf)) (Z.of_nat i))
               (λ i, i) (base entry)
               (λ i, land_shiftl_1_testbit _ i)). }
    split_and!; [done|apply names_with_bit_set_sublist|].
    intros name. rewrite names_with_bit_set_elem. split.
    + intros (pos & Hpos & Hb).
      apply or_of_masks_testbit in Hb as (f & m & Hf & Hm & Hb).
      by exists pos, f, m.
    + intros (pos & f & m & Hpos & Hf & Hm & Hb). exists pos.
      split; [done|]. apply or_of_masks_testbit. by exists f, m.
Qed.

(** ** [compute]: preview without side effects *)

Lemma _compute_self (r : Resolver) model f s x s' :
  _compute r model f s = (x, s') → self s' = self s.
Proof.
  unfold _compute. intros H.
  destruct (_computed_models r !! model) as [cfs|]; [|by inversion H].
  destruct (cfs !! f); by inversion H.
Qed.

Lemma rewind_stack (stack : list (string * Value)) (s : Frame) :
  ∃ s', for_each stack (λ fo, setattr fo.1 fo.2) s = (inr tt, s') ∧
        imodel (self s') = imodel (self s) ∧
        iattrs (self s') =
          foldl (λ a fo, <[fo.1 := fo.2]> a) (iattrs (self s)) stack.
Proof.
  revert s. induction stack as [|[f old] stack IH]; intros s; simpl.
  - by exists s.
  - unfold bind at 1. simpl.
    edestruct IH as (s' & -> & Hm & Ha). exists s'. by rewrite Hm, Ha.
Qed.

Lemma foldl_insert_restores (A0 : gmap string Value)
    (stack : list (string * Value)) (cur : gmap string Value) :
  (∀ fo, fo ∈ stack → A0 !! fo.1 = Some fo.2) →
  (∀ k, k ∉ stack.*1 → cur !! k = A0 !! k) →
  foldl (λ a fo, <[fo.1 := fo.2]> a) cur stack = A0.
Proof.
  revert cur. induction stack as [|[f old] stack IH]; intros cur Hold Hrest.
  - simpl. apply map_eq. intros k. apply Hrest. simpl. apply not_elem_of_nil.
  - simpl. apply IH.
    + intros fo Hfo. apply Hold. by right.
    + intros k Hk. destruct (decide (k = f)) as [->|Hne].
      * rewrite lookup_insert_eq. symmetry. apply (Hold (f, old)). left.
      * rewrite lookup_insert_ne by done. apply Hrest.
        rewrite fmap_cons, not_elem_of_cons. done.
Qed.

Lemma compute_loop_restores (r : Resolver) model entries pos fieldname
    (A0 : gmap string Value) (mro : list string) :
  ∀ (stack : list (string * Value)) (s : Frame) v s',
    fieldname ∈ mro →
    NoDup (stack.*1 ++ mro) →
    (∀ fo, fo ∈ stack → A0 !! fo.1 = Some fo.2) →
    (∀ k, k ∉ stack.*1 → iattrs (self s) !! k = A0 !! k) →
    compute_loop r model entries pos fieldname mro stack s = (inr v, s') →
    iattrs (self s') = A0 ∧ imodel (self s') = imodel (self s).
Proof.
  induction mro as [|field mro IH]; intros stack s v s' Hin Hnd Hold Hrest Hrun.
  - by apply elem_of_nil in Hin.
  - simpl in Hrun. case_bool_decide as Hf.
    + unfold bind in Hrun.
      destruct (_compute r model fieldname s) as [[e|x] s1] eqn:Hc;
        [by inversion Hrun|].
      apply _compute_self in Hc.
      destruct (rewind_stack stack s1) as (s2 & Hrw & Hm & Ha).
      rewrite Hrw in Hrun. inversion Hrun; subst v s'.
      rewrite Ha, Hm, Hc. split; [|done].
      by apply foldl_insert_restores.
    + apply elem_of_cons in Hin as [Heq|Hin]; [congruence|].
      case_bool_decide as Hbit.
      * unfold bind at 1 in Hrun. unfold getattr at 1 in Hrun.
        destruct (iattrs (self s) !! field) as [old|] eqn:Hget;
          [|by inversion Hrun].
        unfold bind at 1 in Hrun.
        destruct (_compute r model field s) as [[e|new] s1] eqn:Hc;
          [by inversion Hrun|].
        apply _compute_self in Hc.
        unfold bind at 1 in Hrun. simpl in Hrun.
        assert (field ∉ stack.*1) as Hfresh.
        { apply NoDup_app in Hnd as (_ & Hdisj & _). intros Hf'.
          apply (Hdisj _ Hf'). left. }
        apply IH in Hrun as [Ha Hm]; [by rewrite Hc in Hm| done | | |].
        -- rewrite fmap_app. simpl. rewrite <- app_assoc. done.
        -- intros fo Hfo. apply elem_of_app in Hfo as [Hfo|Hfo].
           ++ by apply Hold.
           ++ apply list_elem_of_singleton in Hfo as ->. simpl.
              by rewrite <- Hrest, Hget.
        -- intros k Hk. rewrite fmap_app, not_elem_of_app in Hk.
           destruct Hk as [Hk1 Hk2]. simpl in Hk2.
           rewrite list_elem_of_singleton in Hk2. simpl. rewrite Hc.
           rewrite lookup_insert_ne by done. by apply Hrest.
      * apply IH in Hrun; [done..| |done|done].
        apply NoDup_app in Hnd as (Hs & Hdisj & Hm).
        apply NoDup_app. split_and!; [done| |by apply NoDup_cons in Hm as []].
        intros k Hk Hk'. apply (Hdisj _ Hk). by right.
Qed.

Lemma compute_loop_returns (r : Resolver) model entries pos fieldname
    (mro : list string) :
  ∀ (stack : list (string * Value)) (s : Frame),
    fieldname ∈ mro →
    (∀ f, f ∈ mro →
       ∃ cfs cf, _computed_models r !! model = Some cfs ∧
                 cfs !! f = Some cf) →
    has_attrs (self s) mro →
    ∃ v s', compute_loop r model entries pos fieldname mro stack s
            = (inr v, s').
Proof.
  induction mro as [|field mro IH]; intros stack s Hin Hfun Hattrs.
  - by apply elem_of_nil in Hin.
  - simpl. case_bool_decide as Hf.
    + subst field.
      destruct (Hfun fieldname) as (cfs & func & Hcfs & Hfunc); [by left|].
      unfold bind at 1, _compute. rewrite Hcfs, Hfunc.
      unfold bind at 1.
      edestruct rewind_stack as (s2 & -> & _). eauto.
    + apply elem_of_cons in Hin as [Heq|Hin]; [congruence|].
      assert (∀ s1, iattrs (self s1) = iattrs (self s) ∨
                    (∃ v, iattrs (self s1) = <[field := v]> (iattrs (self s)))
                    → has_attrs (self s1) mro) as Hkeep.
      { intros s1 Hs1 f Hfm.
        destruct Hs1 as [->|[v ->]]; [apply Hattrs; by right|].
        destruct (decide (field = f)) as [->|Hne];
          [by rewrite lookup_insert_eq|].
        rewrite lookup_insert_ne by done. apply Hattrs. by right. }
      assert (∀ f, f ∈ mro →
                ∃ cfs cf, _computed_models r !! model = Some cfs ∧
                          cfs !! f = Some cf) as Hfun'.
      { intros f Hfm. apply Hfun. by right. }
      case_bool_decide as Hbit.
      * destruct (Hattrs field) as [old Hold]; [by left|].
        destruct (Hfun field) as (cfs & func & Hcfs & Hfunc); [by left|].
        unfold bind at 1, getattr. rewrite Hold.
        unfold bind at 1, _compute. simpl. rewrite Hcfs, Hfunc.
        unfold bind at 1. simpl.
        apply IH; [done..|]. apply Hkeep. right. eauto.
      * apply IH; [done..|]. apply Hkeep. by left.
Qed.

(** C2 (compute): provided the model's base sequence lists every name
    once, whenever [compute] returns a value the passed instance is exactly
    as before the call, whatever the depth of the local dependency chain;
    and it does return whenever every base name has a compute function and
    the instance carries the requested and the base attributes. *)
Theorem compute_non_destructive (r : Resolver) (fieldname : string)
    (s : Frame) :
  NoDup (get_local_mro r (imodel (self s)) None) →
  (∀ v s', compute r fieldname s = (inr v, s') → self s' = self s) ∧
  (mro_funcs_defined r (imodel (self s)) →
   has_attrs (self s)
             (fieldname :: get_local_mro r (imodel (self s)) None) →
   ∃ v s', compute r fieldname s = (inr v, s')).
Proof.
  intros Hnd. split.
  - intros v s'. unfold compute. case_bool_decide as Hin.
    + unfold getattr. destruct (iattrs (self s) !! fieldname);
        intros H; by inversion H.
    + destruct (_local_mro r !! imodel (self s)) as [entry|];
        [|intros H; by inversion H].
      destruct (index _ fieldname) as [i|]; [|intros H; by inversion H].
      intros Hrun.
      apply (compute_loop_restores _ _ _ _ _ (iattrs (self s))) in Hrun
        as [Ha Hm]; [|done|done| |done].
      * destruct s as [[m a] l], s' as [[m' a'] l']. simpl in *. congruence.
      * intros fo Hfo. by apply elem_of_nil in Hfo.
  - intros Hfun Hattrs. unfold compute. case_bool_decide as Hin.
    + destruct (Hattrs fieldname) as [v Hv]; [by left|].
      unfold getattr. rewrite Hv. eauto.
    + destruct (_local_mro r !! imodel (self s)) as [entry|] eqn:Hentry.
      2:{ unfold get_local_mro in Hin. rewrite Hentry in Hin.
          by apply elem_of_nil in Hin. }
      destruct (index _ fieldname) as [i|] eqn:Hidx.
      2:{ unfold index in Hidx. apply fmap_None, list_find_None in Hidx.
          rewrite Forall_forall in Hidx. by destruct (Hidx _ Hin). }
      apply compute_loop_returns; [done|done|].
      intros f Hf. apply Hattrs. by right.
Qed.

(** C10 (compute): for a name outside the model's local MRO, [compute]
    hands back the instance's current attribute of that name (raising
    [AttributeError] when there is none) and does nothing else: the
    instance is untouched and no compute function or assignment is
    logged. *)
Theorem compute_not_in_local_mro (r : Resolver) (fieldname : string)
    (s : Frame) :
  fieldname ∉ get_local_mro r (imodel (self s)) None →
  compute r fieldname s =
    (match iattrs (self s) !! fieldname with
     | Some v => inr v
     | None => inl (AttributeError fieldname)
     end, s).
Proof.
  intros Hin. unfold compute. rewrite bool_decide_eq_true_2 by done.
  unfold getattr. by destruct (iattrs (self s) !! fieldname).
Qed.

Example get_local_mro_item_x :
  get_local_mro example_resolver "Item" (Some (FList ["x"])) = ["a"; "b"].
Proof. vm_compute. reflexivity. Qed.

Example get_local_mro_item_b :
  get_local_mro example_resolver "Item" (Some (FSet {["b"]})) = ["b"].
Proof. vm_compute. reflexivity. Qed.

Example compute_item_b :
  compute example_resolver "b" (fresh (item 1 0 0))
  = (inr (VInt 4),
     {| self := item 1 0 0;
        oplog := [OpCompute "a"; OpSetattr "a" (VInt 2); OpCompute "b";
                  OpSetattr "a" (VInt 0)] |}).
Proof. vm_compute. reflexivity. Qed.

(** ** [update_computedfields]: in-place recomputation *)

Lemma assign_in_order_model cfs (names : list string) (o : Instance) :
  imodel (assign_in_order cfs o names) = imodel o.
Proof.
  revert o. induction names as [|f names IH]; intros o; [done|].
  unfold assign_in_order in *. simpl. rewrite IH.
  by destruct (cfs !! f).
Qed.

Lemma for_each_assign (r : Resolver) model cfs (names : list string) :
  _computed_models r !! model = Some cfs →
  (∀ f, f ∈ names → is_Some (cfs !! f)) →
  ∀ s, for_each names (λ fieldname,
         new <- _compute r model fieldname ;; setattr fieldname new) s
       = (inr tt,
          {| self := assign_in_order cfs (self s) names;
             oplog := oplog s ++ assign_ops cfs (self s) names |}).
Proof.
  intros Hcfs. induction names as [|f names IH]; intros Hdef s.
  - simpl. unfold ret. rewrite app_nil_r. by destruct s.
  - destruct (Hdef f) as [func Hfunc]; [left|].
    cbn [for_each]. unfold bind at 1. unfold bind at 1. unfold _compute at 1.
    rewrite Hcfs, Hfunc. unfold setattr at 1.
    rewrite IH by (intros g Hg; apply Hdef; by right). cbn [self oplog].
    unfold assign_in_order, with_attr. simpl. rewrite Hfunc.
    by rewrite <- !app_assoc.
Qed.

Lemma assigned_fields_assign_ops cfs (names : list string) :
  (∀ f, f ∈ names → is_Some (cfs !! f)) →
  ∀ o, assigned_fields (assign_ops cfs o names) = names.
Proof.
  induction names as [|f names IH]; intros Hdef o; [done|].
  destruct (Hdef f) as [func Hfunc]; [left|].
  simpl. rewrite Hfunc. unfold assigned_fields in *. simpl. f_equal.
  apply IH. intros g Hg. apply Hdef. by right.
Qed.

Lemma truthy_union_nonempty (uf : Fields) (names : gset string) :
  frozenset uf ≠ ∅ → truthy (FSet (frozenset uf ∪ names)) = true.
Proof.
  intros Hne. simpl. apply bool_decide_eq_true.
  intros He. apply Hne. apply empty_union_L in He as [? _]. done.
Qed.

Lemma truthy_container_nonempty (uf : Fields) :
  (∀ items, uf ≠ FIter items) → truthy uf = true → frozenset uf ≠ ∅.
Proof.
  intros Hcont Ht. destruct uf as [l|u|items]; simpl in *.
  - apply bool_decide_eq_true in Ht. destruct l as [|x l]; [done|].
    simpl. intros He.
    apply (not_elem_of_empty (C := gset string) x). rewrite <- He.
    apply elem_of_union_l. by apply elem_of_singleton.
  - by apply bool_decide_eq_true in Ht.
  - by destruct (Hcont items).
Qed.

Lemma update_computedfields_result (r : Resolver) (model : Model)
    (update_fields : option Fields) :
  let cf_mro := get_local_mro r model update_fields in
  let left :=
    match get_local_mro_leaves r model update_fields with
    | Some uf =>
      if truthy uf then Some (FSet (frozenset uf ∪ list_to_set cf_mro))
      else get_local_mro_leaves r model update_fields
    | None => None
    end in
  (if opt_truthy left then left else None)
  = expanded_update_fields r model update_fields.
Proof.
  cbn zeta. unfold expanded_update_fields, get_local_mro_leaves.
  destruct update_fields as [[l|u|items]|].
  - assert (exhausted <$> Some (FList l) = Some (FList l)) as -> by done.
    assert ((match _local_mro r !! model with
             | Some _ => Some (FList l)
             | None => Some (FList l)
             end) = Some (FList l)) as -> by by destruct (_local_mro r !! _).
    destruct (truthy (FList l)) eqn:Ht; [|by cbn [opt_truthy]; rewrite Ht].
    cbn [opt_truthy]. rewrite truthy_union_nonempty; [done|].
    by apply truthy_container_nonempty.
  - assert (exhausted <$> Some (FSet u) = Some (FSet u)) as -> by done.
    assert ((match _local_mro r !! model with
             | Some _ => Some (FSet u)
             | None => Some (FSet u)
             end) = Some (FSet u)) as -> by by destruct (_local_mro r !! _).
    destruct (truthy (FSet u)) eqn:Ht; [|by cbn [opt_truthy]; rewrite Ht].
    cbn [opt_truthy]. rewrite truthy_union_nonempty; [done|].
    by apply truthy_container_nonempty.
  - destruct (_local_mro r !! model) as [entry|] eqn:Hentry.
    + rewrite (bool_decide_eq_true_2 (is_Some (Some entry))) by by eexists.
      cbn [fmap option_fmap option_map exhausted truthy frozenset
           list_to_set opt_truthy].
      by destruct (bool_decide _).
    + rewrite (bool_decide_eq_false_2 (is_Some None)) by by intros [? ?].
      cbn [truthy frozenset opt_truthy].
      by destruct (bool_decide _).
  - by destruct (_local_mro r !! model).
Qed.

Lemma ignores_mono func (names names' : list string) :
  names ⊆ names' → ignores func names' → ignores func names.
Proof.
  intros Hsub Hig o o' Hm Hagree. apply Hig; [done|].
  intros k Hk. apply Hagree. intros Hk'. by apply Hk, Hsub.
Qed.

Lemma respects_order_snoc_inv cfs (names : list string) g :
  respects_order cfs (names ++ [g]) → respects_order cfs names.
Proof.
  intros Hro pre f suf cf -> Hfunc.
  apply (ignores_mono _ _ (f :: suf ++ [g])).
  - intros k Hk. apply elem_of_cons in Hk as [->|Hk]; [left|right].
    apply elem_of_app. by left.
  - apply (Hro pre f (suf ++ [g]) cf); [|done].
    by rewrite <- app_assoc.
Qed.

(** After a pass over [names], every assigned field holds what its compute
    function yields on the final instance. *)
Lemma assign_in_order_stable cfs (names : list string) (o : Instance) :
  respects_order cfs names →
  ∀ f cf, f ∈ names → cfs !! f = Some cf →
    iattrs (assign_in_order cfs o names) !! f
    = Some (func cf (assign_in_order cfs o names)).
Proof.
  induction names as [|g names IH] using rev_ind; intros Hro f cf Hf Hfunc.
  - by apply elem_of_nil in Hf.
  - unfold assign_in_order in *. rewrite foldl_app. simpl.
    set (p := foldl _ o names) in *.
    assert (f ≠ g → f ∈ names) as Hnames.
    { intros Hne. apply elem_of_app in Hf as [Hf|Hf]; [done|].
      by apply list_elem_of_singleton in Hf. }
    destruct (cfs !! g) as [fg|] eqn:Hfg.
    2:{ destruct (decide (f = g)) as [->|Hne]; [congruence|].
        apply IH; [by eapply respects_order_snoc_inv|by apply Hnames|done]. }
    assert (ignores (func fg) [g]) as Hig by by apply (Hro names g [] fg).
    assert (func fg (with_attr p g (func fg p)) = func fg p) as Hfix_g.
    { apply Hig; [done|]. intros k Hk. simpl.
      rewrite lookup_insert_ne; [done|]. intros ->. apply Hk. left. }
    destruct (decide (f = g)) as [->|Hne].
    + assert (cf = fg) as -> by congruence.
      simpl. rewrite lookup_insert_eq. by rewrite Hfix_g.
    + specialize (Hnames Hne). clear Hf. rename Hnames into Hf.
      simpl. rewrite lookup_insert_ne by done.
      rewrite (IH (respects_order_snoc_inv _ _ _ Hro) f cf Hf Hfunc).
      f_equal. symmetry.
      apply list_elem_of_split in Hf as (pre & suf & ->).
      apply (Hro pre f (suf ++ [g]) cf);
        [by rewrite <- app_assoc|done|done|].
      intros k Hk. simpl. rewrite lookup_insert_ne; [done|].
      intros ->. apply Hk. right. apply elem_of_app. right. left.
Qed.

Lemma assign_fixed_point cfs (o : Instance) (names : list string) :
  (∀ f cf, f ∈ names → cfs !! f = Some cf →
     iattrs o !! f = Some (func cf o)) →
  assign_in_order cfs o names = o ∧
  ∀ f v, OpSetattr f v ∈ assign_ops cfs o names → iattrs o !! f = Some v.
Proof.
  induction names as [|g names IH]; intros Hst.
  - split; [done|]. intros f v Hin. by apply elem_of_nil in Hin.
  - unfold assign_in_order in *. simpl.
    destruct (cfs !! g) as [fg|] eqn:Hfg.
    + assert (with_attr o g (func fg o) = o) as ->.
      { unfold with_attr. destruct o as [m a]. simpl. f_equal.
        apply insert_id. apply (Hst g fg); [left|done]. }
      destruct IH as [IH1 IH2].
      { intros f func Hf. apply Hst. by right. }
      split; [done|]. intros f v Hin.
      apply elem_of_cons in Hin as [Hin|Hin]; [done|].
      apply elem_of_cons in Hin as [Hin|Hin]; [|by apply IH2].
      inversion Hin; subst. apply (Hst g fg); [left|done].
    + destruct IH as [IH1 IH2].
      { intros f func Hf. apply Hst. by right. }
      split; [done|]. intros f v Hin. by apply elem_of_nil in Hin.
Qed.

Lemma update_computedfields_run (r : Resolver) (update_fields : option Fields)
    (s : Frame) cfs :
  _computed_models r !! imodel (self s) = Some cfs →
  (∀ f, f ∈ get_local_mro r (imodel (self s)) update_fields →
        is_Some (cfs !! f)) →
  update_computedfields r update_fields s =
    (inr (expanded_update_fields r (imodel (self s)) update_fields),
     {| self := assign_in_order cfs (self s)
                  (get_local_mro r (imodel (self s)) update_fields);
        oplog := oplog s ++ assign_ops cfs (self s)
                  (get_local_mro r (imodel (self s)) update_fields) |}).
Proof.
  intros Hcfs Hdef. unfold update_computedfields, has_computedfields.
  rewrite bool_decide_eq_true_2 by by rewrite Hcfs. cbn [negb].
  unfold bind at 1. rewrite (for_each_assign r _ cfs) by done.
  unfold ret. f_equal. f_equal.
  apply update_computedfields_result.
Qed.


(** C9 (update_computedfields), as the code has it: when every compute
    function of the pass reads neither its own field nor a field assigned
    later in the pass, a second call with the same arguments assigns to
    every field the value it already holds and leaves the instance as the
    first call left it. *)
Theorem update_computedfields_idempotent (r : Resolver)
    (update_fields : option Fields) (s : Frame) cfs :
  _computed_models r !! imodel (self s) = Some cfs →
  (∀ f, f ∈ get_local_mro r (imodel (self s)) update_fields →
        is_Some (cfs !! f)) →
  respects_order cfs (get_local_mro r (imodel (self s)) update_fields) →
  ∃ ret1 s1 s2 ops2,
    update_computedfields r update_fields s = (inr ret1, s1) ∧
    update_computedfields r update_fields s1 = (inr ret1, s2) ∧
    self s2 = self s1 ∧
    oplog s2 = oplog s1 ++ ops2 ∧
    assigned_fields ops2 = get_local_mro r (imodel (self s)) update_fields ∧
    ∀ f v, OpSetattr f v ∈ ops2 → iattrs (self s1) !! f = Some v.
Proof.
  intros Hcfs Hdef Hro.
  set (names := get_local_mro r (imodel (self s)) update_fields) in *.
  set (s1 := {| self := assign_in_order cfs (self s) names;
                oplog := oplog s ++ assign_ops cfs (self s) names |}).
  assert (imodel (self s1) = imodel (self s)) as Hm
    by apply assign_in_order_model.
  destruct (assign_fixed_point cfs (self s1) names) as [Hfix Hops].
  { intros f func Hf Hfunc. by apply assign_in_order_stable. }
  eexists _, s1, _, (assign_ops cfs (self s1) names). split_and!.
  - by apply update_computedfields_run.
  - rewrite (update_computedfields_run r update_fields s1 cfs);
      rewrite ?Hm; [|done..]. fold names. rewrite Hfix. done.
  - done.
  - done.
  - by apply assigned_fields_assign_ops.
  - done.
Qed.

(** ** Checks on the example data *)

Lemma example_item_mro :
  get_local_mro example_resolver "Item" None = ["a"; "b"].
Proof. vm_compute. reflexivity. Qed.

Lemma example_item_funcs_defined (names : list string) :
  names ⊆ ["a"; "b"] → ∀ f, f ∈ names → is_Some (item_funcs !! f).
Proof.
  intros Hsub f Hf. apply Hsub in Hf.
  repeat (apply elem_of_cons in Hf as [->|Hf]); [by eexists..|].
  by apply elem_of_nil in Hf.
Qed.

Lemma example_item_respects_order : respects_order item_funcs ["a"; "b"].
Proof.
  intros pre f suf cf Heq Hfunc.
  destruct pre as [|p1 [|p2 [|p3 pre]]]; inversion Heq; subst.
  - unfold item_funcs in Hfunc. rewrite lookup_insert_eq in Hfunc.
    inversion Hfunc; subst.
    intros o o' _ Hag. simpl. unfold int_attr. rewrite (Hag "x"); [done|].
    apply (bool_decide_unpack _). vm_compute. exact I.
  - unfold item_funcs in Hfunc.
    rewrite lookup_insert_ne, lookup_insert_eq in Hfunc by done.
    inversion Hfunc; subst.
    intros o o' _ Hag. simpl. unfold int_attr. rewrite (Hag "a"); [done|].
    apply (bool_decide_unpack _). vm_compute. exact I.
Qed.

Lemma get_local_mro_bitmask_filter_witness :
  _local_mro example_resolver !! "Item" = Some item_mro ∧
  get_local_mro example_resolver "Item" None = ["a"; "b"] ∧
  sublist (get_local_mro example_resolver "Item" (Some (FList ["b"])))
          ["a"; "b"].
Proof.
  assert (_local_mro example_resolver !! "Item" = Some item_mro) as Hentry
    by (vm_compute; reflexivity).
  destruct (get_local_mro_bitmask_filter example_resolver "Item") as [_ H].
  destruct (H item_mro Hentry) as [Hbase Huf].
  split; [exact Hentry|]. split; [exact Hbase|].
  exact (proj1 (proj2 (Huf (FList ["b"])))).
Defined.

Lemma compute_non_destructive_witness :
  NoDup (get_local_mro example_resolver "Item" None) ∧
  self (compute example_resolver "b" (fresh (item 1 0 0))).2 = item 1 0 0.
Proof.
  assert (NoDup (get_local_mro example_resolver
                   (imodel (self (fresh (item 1 0 0)))) None)) as Hnd.
  { apply (bool_decide_unpack _). vm_compute. exact I. }
  split; [exact Hnd|].
  apply (proj1 (compute_non_destructive example_resolver "b"
                  (fresh (item 1 0 0)) Hnd) (VInt 4)).
  vm_compute. reflexivity.
Defined.

Lemma compute_not_in_local_mro_witness :
  ("x" ∉ get_local_mro example_resolver "Item" None) ∧
  compute example_resolver "x" (fresh (item 1 0 0))
  = (inr (VInt 1), fresh (item 1 0 0)).
Proof.
  assert ("x" ∉ get_local_mro example_resolver
                  (imodel (self (fresh (item 1 0 0)))) None) as Hout.
  { apply (bool_decide_unpack _). vm_compute. exact I. }
  split; [exact Hout|].
  refine (eq_trans (compute_not_in_local_mro example_resolver "x"
                      (fresh (item 1 0 0)) Hout) _).
  vm_compute. reflexivity.
Defined.



(** The compute function of [Counter.c] is a deterministic function of the
    instance's fields, yet a second call changes [c] again. *)
Lemma update_computedfields_counter_changes_again :
  let s1 := (update_computedfields example_resolver None
               (fresh (counter 0))).2 in
  let s2 := (update_computedfields example_resolver None s1).2 in
  iattrs (self s1) !! "c" = Some (VInt 1) ∧
  oplog s2 = oplog s1 ++ [OpCompute "c"; OpSetattr "c" (VInt 2)] ∧
  iattrs (self s2) !! "c" = Some (VInt 2).
Proof. vm_compute. split_and!; reflexivity. Qed.

Lemma update_computedfields_idempotent_witness :
  ∃ ret1 s1 s2,
    update_computedfields example_resolver None (fresh (item 1 0 0))
      = (inr ret1, s1) ∧
    update_computedfields example_resolver None s1 = (inr ret1, s2) ∧
    self s1 = item 1 2 4 ∧ self s2 = self s1.
Proof.
  destruct (update_computedfields_idempotent example_resolver None
              (fresh (item 1 0 0)) item_funcs)
    as (ret1 & s1 & s2 & ops2 & H1 & H2 & Hself & _).
  - vm_compute. reflexivity.
  - apply example_item_funcs_defined. vm_compute. intros f Hf. exact Hf.
  - exact example_item_respects_order.
  - exists ret1, s1, s2. split_and!; [exact H1|exact H2| |exact Hself].
    vm_compute in H1. inversion H1. vm_compute. reflexivity.
Defined.

Example as_sqlite_text :
  as_sqlite "app_item" "id" (plain_field <$> ["a"; "b"]) 2
  = "UPDATE " +:+ dq "app_item" +:+ " SET " +:+ dq "a" +:+ "=" +:+ dq "d"
    +:+ "." +:+ dq "column2" +:+ "," +:+ dq "b" +:+ "=" +:+ dq "d" +:+ "."
    +:+ dq "column3" +:+ " FROM (VALUES (%s,%s,%s),(%s,%s,%s)) AS " +:+ dq "d"
    +:+ " WHERE " +:+ dq "app_item" +:+ "." +:+ dq "id" +:+ "=" +:+ dq "d"
    +:+ "." +:+ dq "column1".
Proof. vm_compute. reflexivity. Qed.

(** ** [fast_update] *)

Section fast_update_facts.
Context `{dj : Django}.

(** The statement text handed into the flush loop is never used while the
    batch counters differ from [last_counter]: the loop rebuilds it. *)
Lemma flush_batches_ignores_previous_sql model objs fieldnames batch_size
    tablename pk_field flds vendor last_counter
    (batches : list (Z * list Value)) (sql sql' : string) :
  (∀ cd, cd ∈ batches → cd.1 ≠ last_counter) →
  flush_batches model objs fieldnames batch_size tablename pk_field flds
                vendor sql last_counter batches
  = flush_batches model objs fieldnames batch_size tablename pk_field flds
                  vendor sql' last_counter batches.
Proof.
  intros Hne. destruct batches as [|[counter data] batches]; [done|].
  simpl. rewrite bool_decide_eq_true_2; [done|].
  apply (Hne (counter, data)). left.
Qed.

Lemma make_batches_counters pk_field flds batch_size
    (objs : list Instance) :
  ∀ counter data batches result,
    0 ≤ counter →
    (∀ cd, cd ∈ batches → 0 < cd.1) →
    (counter = 0 → data = []) →
    make_batches pk_field flds batch_size objs counter data batches
      = inr result →
    ∀ cd, cd ∈ result → 0 < cd.1.
Proof.
  induction objs as [|o objs IH];
    intros counter data batches result Hc Hb Hd Hrun cd Hcd.
  - simpl in Hrun. inversion Hrun; subst. case_bool_decide as Hdata.
    + apply elem_of_app in Hcd as [Hcd|Hcd]; [by apply Hb|].
      apply list_elem_of_singleton in Hcd as ->. simpl.
      destruct (decide (counter = 0)) as [H0|H0]; [|lia].
      by apply Hd in H0.
    + by apply Hb.
  - simpl in Hrun.
    destruct (attr o (attname pk_field)) as [e|v]; [done|].
    destruct (row_values o flds) as [e|vs]; [done|].
    case_bool_decide as Hfull.
    + refine (IH 0 [] _ _ _ _ _ Hrun cd Hcd); [lia| |done].
      intros cd' Hcd'. apply elem_of_app in Hcd' as [Hcd'|Hcd'];
        [by apply Hb|].
      apply list_elem_of_singleton in Hcd' as ->. simpl. lia.
    + refine (IH _ _ _ _ _ _ _ Hrun cd Hcd); [lia|done|lia].
Qed.

Lemma bind_lift_inr {S A B} (a : A) (k : A → M S B) (s : S) :
  bind (lift (inr a)) k s = k a s.
Proof. done. Qed.

Lemma bulk_update_then_return model objs fieldnames batch_size
    (k : bool → M World unit) (w : World) :
  (∀ w', k true w' = (inr tt, w')) →
  bind (objects_bulk_update model objs fieldnames batch_size ;;; ret true) k w
  = objects_bulk_update model objs fieldnames batch_size w.
Proof.
  intros Hk. unfold bind at 1. unfold bind at 1.
  destruct (objects_bulk_update model objs fieldnames batch_size w)
    as [[e|[]] w']; [done|]. simpl. apply Hk.
Qed.

(** C7 (fast_update): on a model without primary key field, with at least
    one requested name and all requested names fields of the model, the
    whole call is one call of [bulk_update] with all objects, all requested
    names and the batch size: nothing is caught, nothing is tried again and
    nothing is left out.  So when [bulk_update] raises, as Django's does
    on objects of such a model, the call ends with that exception after
    this one attempt, with the database as the failed attempt left it. *)
Theorem fast_update_without_pk_propagates (model : Model)
    (objs : list Instance) (fieldnames : list string) (batch_size : Z)
    (names : list string * list string) (w : World) :
  pk (_meta model) = None →
  split_fieldnames model fieldnames [] [] = inr names →
  ¬ (names.1 = [] ∧ names.2 = []) →
  fast_update model objs fieldnames batch_size w
  = objects_bulk_update model objs fieldnames (Some batch_size) w ∧
  ∀ (e : exn) (d : DB),
    bulk_update (db w) model objs fieldnames (Some batch_size) = (inl e, d) →
    ∃ w', fast_update model objs fieldnames batch_size w = (inl e, w') ∧
          trace w' = trace w ++
                     [EvBulkUpdate model objs fieldnames (Some batch_size)] ∧
          db w' = d.
Proof.
  intros Hpk Hsplit Hne.
  assert (fast_update model objs fieldnames batch_size w
          = objects_bulk_update model objs fieldnames (Some batch_size) w)
    as Heq.
  { unfold fast_update.
    rewrite Hsplit, bind_lift_inr. destruct names as [non_local loc].
    simpl in *.
    destruct non_local as [|n non_local], loc as [|l loc]; simpl.
    - by destruct Hne.
    - unfold fast_update_local. rewrite Hpk.
      by apply bulk_update_then_return.
    - done.
    - destruct loc as [|l' loc]; simpl; [done|].
      unfold fast_update_local. rewrite Hpk.
      by apply bulk_update_then_return. }
  split; [exact Heq|]. intros e d Hbu. rewrite Heq.
  unfold objects_bulk_update, seq, bind, emit. simpl. rewrite Hbu.
  eexists. split; [reflexivity|]. split; reflexivity.
Qed.

(** C8 (fast_update), as the code has it: when at least one requested name
    is not local to the model's table and fewer than two local names
    remain, the call is exactly one [bulk_update] of the entire batch with
    all requested names. *)
Theorem fast_update_avoids_doubled_update (model : Model)
    (objs : list Instance) (fieldnames : list string) (batch_size : Z)
    (names : list string * list string) (w : World) :
  split_fieldnames model fieldnames [] [] = inr names →
  names.1 ≠ [] →
  (length names.2 < 2)%nat →
  fast_update model objs fieldnames batch_size w
  = objects_bulk_update model objs fieldnames (Some batch_size) w.
Proof.
  intros Hsplit Hnon Hloc. unfold fast_update.
  rewrite Hsplit, bind_lift_inr.
  rewrite (bool_decide_eq_true_2 _ Hnon), (bool_decide_eq_true_2 _ Hloc).
  done.
Qed.

End fast_update_facts.

(** C4 (fast_update), at two objects and batch size 1 on sqlite: both
    flushes have cardinality 1, and the statement builder runs before each
    of them although the text it yields is the same. *)
Theorem fast_update_rebuilds_statement_for_equal_batches :
  let sql := as_sqlite "app_item" "id" (plain_field <$> ["a"; "b"]) 1 in
  let run :=
    fast_update (dj := sqlite_django) "Item"
                [item_row 1 1 2 4; item_row 2 5 6 12] ["a"; "b"] 1
                (sqlite_world []) in
  run.1 = inr tt ∧
  trace run.2 = [EvBuildSql "sqlite" 1;
                 EvExecute sql [VInt 1; VInt 2; VInt 4];
                 EvBuildSql "sqlite" 1;
                 EvExecute sql [VInt 2; VInt 6; VInt 12]].
Proof. vm_compute. split; reflexivity. Qed.

Lemma fast_update_without_pk_propagates_witness :
  pk (_meta (Django := sqlite_django) "Keyless") = None ∧
  ∃ w', fast_update (dj := sqlite_django) "Keyless" [keyless_row 1 2]
          ["x"; "a"] 1000 (sqlite_world [keyless_row 0 0])
        = (inl (AttributeError "attname"), w') ∧
        trace w' = [EvBulkUpdate "Keyless" [keyless_row 1 2] ["x"; "a"]
                                 (Some 1000)] ∧
        db w' = [keyless_row 0 0].
Proof.
  split; [reflexivity|].
  apply (proj2 (fast_update_without_pk_propagates (dj := sqlite_django)
                  "Keyless" [keyless_row 1 2] ["x"; "a"] 1000
                  ([], ["x"; "a"]) (sqlite_world [keyless_row 0 0])
                  eq_refl eq_refl
                  (λ H, match proj2 H in _ = l
                              return match l with [] => False | _ => True end
                        with eq_refl => I end))
               (AttributeError "attname") [keyless_row 0 0]).
  vm_compute. reflexivity.
Defined.

(** A single requested field that is local to the table takes the fast
    path: one statement is executed and [bulk_update] is not called. *)
Lemma fast_update_single_local_field_takes_fast_path :
  let sql := as_sqlite "app_item" "id" (plain_field <$> ["a"]) 1 in
  let run :=
    fast_update (dj := sqlite_django) "Item" [item_row 1 1 2 4] ["a"] 1000
                (sqlite_world []) in
  split_fieldnames (dj := sqlite_django) "Item" ["a"] [] [] = inr ([], ["a"]) ∧
  run.1 = inr tt ∧
  trace run.2 = [EvBuildSql "sqlite" 1; EvExecute sql [VInt 1; VInt 2]].
Proof. vm_compute. split_and!; reflexivity. Qed.

Lemma fast_update_avoids_doubled_update_witness :
  split_fieldnames (dj := sqlite_django) "Special" ["a"; "extra"] [] []
    = inr (["a"], ["extra"]) ∧
  fast_update (dj := sqlite_django) "Special" [item_row 1 1 2 4]
              ["a"; "extra"] 1000 (sqlite_world [])
  = objects_bulk_update (dj := sqlite_django) "Special" [item_row 1 1 2 4]
                        ["a"; "extra"] (Some 1000) (sqlite_world []).
Proof.
  assert (split_fieldnames (dj := sqlite_django) "Special" ["a"; "extra"]
            [] [] = inr (["a"], ["extra"])) as Hsplit
    by (vm_compute; reflexivity).
  split; [exact Hsplit|].
  apply (fast_update_avoids_doubled_update (dj := sqlite_django) "Special"
           [item_row 1 1 2 4] ["a"; "extra"] 1000 (["a"], ["extra"])
           (sqlite_world []) Hsplit).
  - done.
  - simpl. lia.
Defined.

(** ** What the operations append to the trace *)

Section trace_facts.
Context `{dj : Django}.

Section emits.
Variable P : list event → Prop.
Hypothesis P_nil : P [].
Hypothesis P_app : ∀ a b, P a → P b → P (a ++ b).

Lemma emits_ret {A} (a : A) : emits P (ret a).
Proof.
  intros w res w' Hrun. inversion Hrun; subst. exists [].
  by rewrite app_nil_r.
Qed.

Lemma emits_raise {A} (e : exn) : emits P (raise (A := A) e).
Proof.
  intros w res w' Hrun. inversion Hrun; subst. exists [].
  by rewrite app_nil_r.
Qed.

Lemma emits_lift {A} (x : exn + A) : emits P (lift x).
Proof.
  intros w res w' Hrun. inversion Hrun; subst. exists [].
  by rewrite app_nil_r.
Qed.

Lemma emits_bind {A B} (m : M World A) (k : A → M World B) :
  emits P m → (∀ a, emits P (k a)) → emits P (bind m k).
Proof.
  intros Hm Hk w res w' Hrun. unfold bind in Hrun.
  destruct (m w) as [[e|a] w1] eqn:Hmw.
  - inversion Hrun; subst. by apply (Hm _ _ _ Hmw).
  - destruct (Hm _ _ _ Hmw) as (n1 & Ht1 & HP1).
    destruct (Hk a _ _ _ Hrun) as (n2 & Ht2 & HP2).
    exists (n1 ++ n2). rewrite Ht2, Ht1, app_assoc. split; [done|].
    by apply P_app.
Qed.

Lemma emits_emit (e : event) : P [e] → emits P (emit e).
Proof.
  intros He w res w' Hrun. inversion Hrun; subst. by exists [e].
Qed.

Lemma emits_same_trace {A} (m : M World A) :
  (∀ w res w', m w = (res, w') → trace w' = trace w) → emits P m.
Proof.
  intros Hm w res w' Hrun. exists []. rewrite app_nil_r.
  split; [by apply (Hm _ _ _ Hrun)|done].
Qed.

Lemma emits_if {A} (b : bool) (m1 m2 : M World A) :
  emits P m1 → emits P m2 → emits P (if b then m1 else m2).
Proof. by destruct b. Qed.

Hypothesis P_warning : ∀ msg, P [EvWarning msg].

Lemma emits_set_CONNECTION_HASHES h : emits P (set_CONNECTION_HASHES h).
Proof. apply emits_same_trace. intros w res w' Hrun. by inversion Hrun. Qed.

Lemma emits_adjust_mysql conn : emits P (_adjust_mysql conn).
Proof.
  intros w res w' Hrun. unfold _adjust_mysql in Hrun.
  destruct (CONNECTION_HASHES w !! connection_hash conn);
    [by apply (emits_ret _ _ _ _ Hrun)|].
  destruct (accepts_values_table conn); [|destruct (accepts_values_row conn)];
    refine ((_ : emits P _) w res w' Hrun);
    repeat first
      [ apply emits_bind | intros _
      | apply emits_set_CONNECTION_HASHES | apply emits_ret
      | by apply emits_emit, P_warning ].
Qed.

Lemma emits_check_support : emits P check_support.
Proof.
  unfold check_support.
  apply emits_if; [apply emits_ret|]. apply emits_if.
  - destruct (sqlite_version_info connection) as [[major minor] ?].
    apply emits_ret.
  - apply emits_if; [|apply emits_ret].
    apply emits_bind; [apply emits_adjust_mysql|]. intros ?. apply emits_ret.
Qed.

Lemma emits_settle_fastupdate : emits P settle_fastupdate.
Proof.
  intros w res w' Hrun. unfold settle_fastupdate in Hrun.
  destruct (use_fastupdate w); [by apply (emits_ret _ _ _ _ Hrun)|].
  refine ((_ : emits P _) w res w' Hrun).
  apply emits_bind.
  - apply emits_if; [apply emits_check_support|apply emits_ret].
  - intros supported. apply emits_bind.
    + apply emits_same_trace. intros w1 res1 w1' Hrun1. by inversion Hrun1.
    + intros _. apply emits_if; [|apply emits_ret].
      apply emits_same_trace. intros w1 res1 w1' Hrun1. by inversion Hrun1.
Qed.

Lemma emits_fetch queryset : emits P (fetch queryset).
Proof. apply emits_same_trace. intros w res w' Hrun. by inversion Hrun. Qed.

Hypothesis P_db : ∀ e, is_db_event e → P [e].

Lemma emits_objects_bulk_update model objs fieldnames batch_size :
  emits P (objects_bulk_update model objs fieldnames batch_size).
Proof.
  unfold objects_bulk_update. apply emits_bind.
  - by apply emits_emit, P_db.
  - intros _. apply emits_same_trace. intros w res w' Hrun.
    destruct (bulk_update (db w) model objs fieldnames batch_size).
    by inversion Hrun.
Qed.

Lemma emits_cursor_execute sql data : emits P (cursor_execute sql data).
Proof.
  unfold cursor_execute. apply emits_bind.
  - by apply emits_emit, P_db.
  - intros _. apply emits_same_trace. intros w res w' Hrun.
    destruct (execute (db w) sql data). by inversion Hrun.
Qed.

Lemma emits_flush_batches model objs fieldnames batch_size tablename
    pk_field flds vendor last_counter (batches : list (Z * list Value)) :
  ∀ sql, emits P (flush_batches model objs fieldnames batch_size tablename
                                pk_field flds vendor sql last_counter batches).
Proof.
  induction batches as [|[counter data] batches IH]; intros sql; simpl.
  - apply emits_ret.
  - assert (∀ sql', emits P
      (cursor_execute sql'
         (if bool_decide (vendor = "mysql")
          then range_values (length flds + 1) ++ data else data) ;;;
       flush_batches model objs fieldnames batch_size tablename pk_field flds
                     vendor sql' last_counter batches)) as Hsend.
    { intros sql'. apply emits_bind; [apply emits_cursor_execute|].
      intros _. apply IH. }
    apply emits_if; [|apply Hsend].
    apply emits_bind; [by apply emits_emit, P_db|]. intros _.
    apply emits_if; [|apply Hsend].
    apply emits_bind; [apply emits_objects_bulk_update|]. intros _.
    apply emits_ret.
Qed.

Lemma emits_fast_update model objs fieldnames batch_size :
  emits P (fast_update model objs fieldnames batch_size).
Proof.
  unfold fast_update. apply emits_bind; [apply emits_lift|]. intros names.
  apply emits_if; [apply emits_objects_bulk_update|].
  apply emits_bind.
  - apply emits_if; [|apply emits_ret]. unfold fast_update_local.
    destruct (pk (_meta model)) as [pk_field|].
    + apply emits_bind; [apply emits_lift|]. intros flds.
      apply emits_bind; [apply emits_lift|]. intros batches.
      apply emits_bind.
      * apply emits_if; [apply emits_adjust_mysql|apply emits_ret].
      * intros vendor. apply emits_flush_batches.
    + apply emits_bind; [apply emits_objects_bulk_update|]. intros _.
      apply emits_ret.
  - intros returned. apply emits_if; [apply emits_ret|].
    apply emits_if; [apply emits_objects_bulk_update|apply emits_ret].
Qed.

End emits.
End trace_facts.

(** ** Transactions of [update_dependent] *)

Lemma balanced_app (a b : list event) :
  balanced a → balanced b → balanced (a ++ b).
Proof.
  intros Ha Hb. induction Ha as [|e tr He Htr IH|inner close tr Hi _ Hc Htr IH].
  - done.
  - simpl. by apply balanced_plain.
  - simpl. rewrite <- app_assoc. simpl. by apply balanced_block.
Qed.

Lemma balanced_single (e : event) : ¬ is_bracket e → balanced [e].
Proof. intros He. apply balanced_plain; [done|apply balanced_nil]. Qed.

Lemma writes_guarded_balanced (tr : list event) :
  balanced tr →
  ∀ d rest, writes_guarded (S d) (tr ++ rest) = writes_guarded (S d) rest.
Proof.
  induction 1 as [|e tr He Htr IH|inner close tr Hi IHi Hc Htr IH];
    intros d rest.
  - done.
  - simpl. rewrite IH. destruct e; simpl in *; try done;
      by rewrite ?orb_true_r.
  - simpl. rewrite <- app_assoc. rewrite IHi. simpl.
    destruct close; simpl in *; try done; apply IH.
Qed.

Lemma one_atomic_block_guarded (tr : list event) :
  one_atomic_block tr → writes_guarded 0 tr = true.
Proof.
  intros [->|(inner & close & -> & Hin & Hc)]; [done|].
  simpl. rewrite writes_guarded_balanced by done.
  by destruct close.
Qed.

Lemma one_atomic_block_balanced (tr : list event) :
  one_atomic_block tr → balanced tr.
Proof.
  intros [->|(inner & close & -> & Hin & Hc)]; [apply balanced_nil|].
  apply balanced_block; [done..|apply balanced_nil].
Qed.

Section resolver_traces.
Context `{dj : Django}.

Section emits_resolver.
Variable P : list event → Prop.
Hypothesis P_nil : P [].
Hypothesis P_app : ∀ a b, P a → P b → P (a ++ b).
Hypothesis P_db : ∀ e, is_db_event e → P [e].
Hypothesis P_update : ∀ model change fields, P [EvUpdate model change fields].

Lemma emits_update queryset change fields :
  emits P (_update queryset change fields).
Proof.
  unfold _update. apply emits_bind; [done..|by apply emits_emit|].
  intros _ w res w' Hrun.
  destruct (use_fastupdate w) as [[|]|].
  - by apply (emits_fast_update P P_nil P_app
                (λ msg, P_db (EvWarning msg) I) P_db _ _ _ _ _ _ _ Hrun).
  - by apply (emits_objects_bulk_update P P_nil P_app P_db _ _ _ _ _ _ _ Hrun).
  - by apply (emits_objects_bulk_update P P_nil P_app P_db _ _ _ _ _ _ _ Hrun).
Qed.

Lemma emits_update_loop r queryset model mro fields (elems : list Instance) :
  ∀ change seen,
    emits P (update_loop r queryset model mro fields elems change seen).
Proof.
  induction elems as [|elem elems IH]; intros change seen; simpl.
  - apply emits_bind; [done..| |intros _; by apply emits_ret].
    apply emits_if; [apply emits_update|by apply emits_ret].
  - destruct (recompute r model mro false _) as [[e|has_changed] frame].
    + by apply emits_raise.
    + intros w res w' Hrun. case_bool_decide.
      * refine ((_ : emits P _) w res w' Hrun).
        apply emits_bind; [done..|apply emits_update|]. intros _. apply IH.
      * by apply (IH _ _ _ _ _ Hrun).
Qed.

Lemma emits_bulk_updater_with descend r queryset update_fields
    return_pks local_only :
  (local_only = false → ∀ q m f, emits P (descend q m f)) →
  emits P (bulk_updater_with descend r queryset update_fields return_pks
                             local_only).
Proof.
  intros Hdescend. unfold bulk_updater_with.
  apply emits_bind; [done..|by apply emits_lift|]. intros related.
  apply emits_bind; [done..| |].
  { apply emits_settle_fastupdate; [done..|].
    intros msg. by apply (P_db (EvWarning msg)). }
  intros _.
  assert (∀ cache : option (list Instance),
            emits P (result_cache
                       (apply_related related (QDistinct queryset)) cache))
    as Hforce.
  { intros [seen|]; [by apply emits_ret|by apply emits_fetch]. }
  apply emits_bind; [done..| |].
  - apply emits_if; [|by apply emits_ret].
    apply emits_bind; [done..|by apply emits_fetch|]. intros elems.
    apply emits_bind; [done..|apply emits_update_loop|]. intros seen.
    by apply emits_ret.
  - intros cache. apply emits_bind; [done..| |].
    + destruct local_only; [by apply emits_ret|].
      apply emits_bind; [done..|apply Hforce|]. intros seen.
      apply emits_bind; [done..| |intros _; by apply emits_ret].
      apply emits_if; [by apply Hdescend|by apply emits_ret].
    + intros cache'. apply emits_if; [|by apply emits_ret].
      apply emits_bind; [done..|apply Hforce|]. intros seen.
      apply emits_bind; [done..|by apply emits_lift|]. intros pks.
      by apply emits_ret.
Qed.

Lemma emits_update_targets bulk_updater
    (updates : list (Model * (Targets * gset string))) :
  (∀ q uf rp lo, emits P (bulk_updater q uf rp lo)) →
  ∀ pks_updated, emits P (update_targets bulk_updater updates pks_updated).
Proof.
  intros Hbu.
  induction updates as [|[m [[q|pks] fields]] updates IH];
    intros pks_updated; simpl.
  - by apply emits_ret.
  - apply emits_bind; [done..|apply Hbu|]. intros res. apply IH.
  - apply IH.
Qed.

Lemma emits_update_old bulk_updater
    (old : list (Model * (gset Value * gset string))) pks_updated :
  (∀ q uf rp lo, emits P (bulk_updater q uf rp lo)) →
  emits P (update_old bulk_updater old pks_updated).
Proof.
  intros Hbu. induction old as [|[m [pks fields]] old IH]; simpl.
  - by apply emits_ret.
  - apply emits_bind; [done..|apply Hbu|]. intros _. apply IH.
Qed.

End emits_resolver.

Lemma collect_final_lazy model_updates subquery instance (w : World) :
  ∃ final, collect_final model_updates subquery instance false w
           = (inr final, w).
Proof.
  induction model_updates as [|[m [fields paths]] rest IH]; simpl.
  - by eexists.
  - destruct IH as [final IH]. unfold bind. rewrite IH. by eexists.
Qed.

Lemma _querysets_for_update_lazy r model instance update_fields (w : World) :
  ∃ final, _querysets_for_update r model instance update_fields false w
           = (inr final, w).
Proof.
  unfold _querysets_for_update.
  destruct (_map r !! model) as [modeldata|]; [|by eexists].
  case_bool_decide; [by eexists|]. apply collect_final_lazy.
Qed.

(** An [atomic] block around a body with balanced trace: one block, and on
    an exception the database is as at entry. *)
Lemma atomic_block {A} (body : M World A) (w : World) res w' :
  emits balanced body →
  atomic body w = (res, w') →
  (∃ inner close,
     trace w' = trace w ++ EvAtomicEnter :: inner ++ [close] ∧
     balanced inner ∧ is_close close) ∧
  (raised res → db w' = db w).
Proof.
  intros Hbody. unfold atomic. unfold bind at 1. simpl.
  destruct (body _) as [[e|a] w1] eqn:Hb;
    destruct (Hbody _ _ _ Hb) as (inner & Ht & Hin); simpl in Ht;
    intros Hrun; inversion Hrun; subst; simpl.
  - split; [|done]. exists inner, EvAtomicRollback.
    rewrite Ht, <- !app_assoc. done.
  - split; [|done]. exists inner, EvAtomicCommit.
    rewrite Ht, <- !app_assoc. done.
Qed.

(** How the block closes: with a rollback exactly when the body raised. *)
Lemma atomic_block_close {A} (body : M World A) (w : World) res w' :
  emits balanced body →
  atomic body w = (res, w') →
  ∃ inner,
    trace w' = trace w ++ EvAtomicEnter :: inner ++
                 [match res with
                  | inl _ => EvAtomicRollback
                  | inr _ => EvAtomicCommit
                  end] ∧
    balanced inner ∧
    (raised res → db w' = db w).
Proof.
  intros Hbody. unfold atomic. unfold bind at 1. simpl.
  destruct (body _) as [[e|a] w1] eqn:Hb;
    destruct (Hbody _ _ _ Hb) as (inner & Ht & Hin); simpl in Ht;
    intros Hrun; inversion Hrun; subst; simpl.
  - exists inner. rewrite Ht, <- !app_assoc. done.
  - exists inner. rewrite Ht, <- !app_assoc. done.
Qed.

End resolver_traces.

Section update_dependent_facts.
Context `{dj : Django}.

Lemma balanced_db_event (e : event) : is_db_event e → balanced [e].
Proof. intros He. apply balanced_single. destruct e; simpl in *; tauto. Qed.

Lemma emits_balanced_atomic {A} (body : M World A) :
  emits balanced body → emits balanced (atomic body).
Proof.
  intros Hbody w res w' Hrun.
  destruct (atomic_block body w res w' Hbody Hrun)
    as [(inner & close & Ht & Hin & Hc) _].
  eexists. split; [exact Ht|].
  apply balanced_block; [done..|apply balanced_nil].
Qed.

Lemma emits_balanced_bulk_updater_with descend r queryset update_fields
    return_pks local_only :
  (∀ q m f, emits balanced (descend q m f)) →
  emits balanced (bulk_updater_with descend r queryset update_fields
                                    return_pks local_only).
Proof.
  intros Hd.
  apply (emits_bulk_updater_with balanced balanced_nil balanced_app
           balanced_db_event); [|done].
  intros. apply balanced_single. simpl. tauto.
Qed.

Lemma emits_balanced_update_dependent (fuel : nat) (r : Resolver) :
  ∀ instance model update_fields old update_local,
    emits balanced (update_dependent fuel r instance model update_fields old
                                     update_local).
Proof.
  induction fuel as [|fuel IH];
    intros instance model update_fields old update_local.
  - apply emits_raise. apply balanced_nil.
  - simpl.
    set (bu := bulk_updater_with _ r).
    assert (∀ q uf rp lo, emits balanced (bu q uf rp lo)) as Hbu.
    { intros. apply emits_balanced_bulk_updater_with.
      intros q' m f. apply IH. }
    apply emits_bind; [exact balanced_app| |].
    + apply emits_if; [|apply emits_ret, balanced_nil].
      apply emits_bind; [exact balanced_app| |].
      * destruct instance as [o|q]; [|apply emits_ret, balanced_nil].
        apply emits_bind; [exact balanced_app| |].
        -- apply emits_lift, balanced_nil.
        -- intros ?. apply emits_ret, balanced_nil.
      * intros q. apply emits_bind; [exact balanced_app|apply Hbu|].
        intros res. apply emits_ret, balanced_nil.
    + intros _update_fields.
      apply emits_bind; [exact balanced_app| |].
      * apply emits_same_trace; [apply balanced_nil|].
        intros w res w' Hrun.
        destruct (_querysets_for_update_lazy r
                    (default (_get_model instance) model) instance
                    (FSet <$> _update_fields) w) as [final Hq].
        rewrite Hq in Hrun. by inversion Hrun.
      * intros updates.
        apply emits_if; [|apply emits_ret, balanced_nil].
        apply emits_balanced_atomic.
        apply emits_bind; [exact balanced_app| |].
        -- by apply (emits_update_targets balanced balanced_nil balanced_app).
        -- intros pks_updated. destruct old as [old|];
             [|apply emits_ret, balanced_nil].
           by apply (emits_update_old balanced balanced_nil balanced_app).
Qed.

Lemma emits_unbracketed_bulk_updater_local descend r queryset update_fields
    return_pks :
  emits (Forall (λ e, ¬ is_bracket e))
        (bulk_updater_with descend r queryset update_fields return_pks true).
Proof.
  apply emits_bulk_updater_with; [done| | | |done].
  - intros a b Ha Hb. by apply Forall_app.
  - intros e He. apply Forall_singleton. destruct e; simpl in *; tauto.
  - intros. apply Forall_singleton. simpl. tauto.
Qed.

Lemma emits_unbracketed_entry_update fuel r instance model update_fields
    update_local :
  emits (Forall (λ e, ¬ is_bracket e))
        (entry_update fuel r instance model update_fields update_local).
Proof.
  destruct fuel as [|fuel]; [by apply emits_raise|].
  unfold entry_update. apply emits_if; [|by apply emits_ret].
  apply emits_bind; [by intros ????; apply Forall_app| |].
  - destruct instance as [o|q]; [|by apply emits_ret].
    apply emits_bind; [by intros ????; apply Forall_app|by apply emits_lift|].
    intros ?. by apply emits_ret.
  - intros q. apply emits_bind; [by intros ????; apply Forall_app| |].
    + apply emits_unbracketed_bulk_updater_local.
    + intros ?. by apply emits_ret.
Qed.

(** [update_dependent] is the entry node's own update followed by the
    lookup of the dependent querysets and, when there are any, the
    transaction around their updates. *)
Lemma update_dependent_S (fuel : nat) (r : Resolver) (instance : Source)
    (model : option Model) (update_fields : option Fields)
    (old : option (list (Model * (gset Value * gset string))))
    (update_local : bool) (w : World) :
  update_dependent (S fuel) r instance model update_fields old update_local w
  = (_update_fields <- entry_update (S fuel) r instance model update_fields
                                    update_local ;;
     updates <- _querysets_for_update r (default (_get_model instance) model)
                                      instance (FSet <$> _update_fields)
                                      false ;;
     if bool_decide (updates ≠ []) then
       atomic (
         pks_updated <- update_targets (bulk_updater fuel r) updates ∅ ;;
         match old with
         | Some old => update_old (bulk_updater fuel r) old pks_updated
         | None => ret tt
         end)
     else ret tt) w.
Proof. reflexivity. Qed.

(** C5 (update_dependent), as the code has it.  One call is two parts.
    First comes the entry node's own local update, [entry_update]: it
    contains no transaction bracket, so its writes stand outside every
    transaction, and it does nothing when [update_local] is off or the
    model has no computed fields.  Then comes nothing or exactly one
    [atomic] block holding every update of dependent records at every
    level of the descent, all of them guarded.  An exception of the first
    part ends the call before the block.  An exception of the second part
    closes the block with a rollback and leaves the database as the
    entry node's own update left it: no dependent record is updated, the
    entry node's own records stay updated.  A call that returns has
    committed the block. *)
Theorem update_dependent_one_atomic_block (fuel : nat) (r : Resolver)
    (instance : Source) (model : option Model) (update_fields : option Fields)
    (old : option (list (Model * (gset Value * gset string))))
    (update_local : bool) (w : World) res w' :
  update_dependent fuel r instance model update_fields old update_local w
    = (res, w') →
  ∃ r1 w1 local block,
    entry_update fuel r instance model update_fields update_local w
      = (r1, w1) ∧
    trace w1 = trace w ++ local ∧
    Forall (λ e, ¬ is_bracket e) local ∧
    (update_local
       && has_computedfields r (default (_get_model instance) model) = false →
     w1 = w ∧ local = [] ∧ (raised res → db w' = db w)) ∧
    trace w' = trace w1 ++ block ∧
    one_atomic_block block ∧
    writes_guarded 0 block = true ∧
    (∀ e, r1 = inl e → res = inl e ∧ w' = w1 ∧ block = []) ∧
    (returned r1 → raised res →
     db w' = db w1 ∧
     ∃ inner, block = EvAtomicEnter :: inner ++ [EvAtomicRollback]) ∧
    (returned res →
     block = [] ∨
     ∃ inner, block = EvAtomicEnter :: inner ++ [EvAtomicCommit]).
Proof.
  intros Hrun.
  destruct (entry_update fuel r instance model update_fields update_local w)
    as [r1 w1] eqn:Hentry.
  destruct (emits_unbracketed_entry_update _ _ _ _ _ _ _ _ _ Hentry)
    as (local & Ht1 & Hunb).
  exists r1, w1, local.
  destruct fuel as [|fuel].
  { simpl in Hrun, Hentry. unfold raise in Hrun, Hentry.
    inversion Hrun; inversion Hentry; subst. exists [].
    rewrite !app_nil_r. split_and!; try done.
    - intros _. split_and!; [done| |done].
      rewrite <- (app_nil_r (trace w1)) in Ht1 at 1.
      by apply app_inv_head in Ht1.
    - by left.
    - intros e He. by inversion He. }
  assert (update_local
            && has_computedfields r (default (_get_model instance) model)
            = false → w1 = w ∧ local = []) as Hoff.
  { intros Hc. unfold entry_update in Hentry. rewrite Hc in Hentry.
    inversion Hentry; subst. split; [done|].
    rewrite <- (app_nil_r (trace w1)) in Ht1 at 1.
    by apply app_inv_head in Ht1. }
  rewrite update_dependent_S in Hrun. unfold bind at 1 in Hrun.
  rewrite Hentry in Hrun. destruct r1 as [e|_update_fields].
  { inversion Hrun; subst. exists [].
    rewrite !app_nil_r. split_and!; try done.
    - intros Hc. destruct (Hoff Hc) as [-> ->]. done.
    - by left.
    - intros e' He'. by inversion He'. }
  unfold bind at 1 in Hrun.
  destruct (_querysets_for_update_lazy r
              (default (_get_model instance) model) instance
              (FSet <$> _update_fields) w1) as [updates Hq].
  rewrite Hq in Hrun.
  case_bool_decide as Hupd.
  - eapply atomic_block_close in Hrun as (inner & Ht & Hin & Hdb).
    + exists (EvAtomicEnter :: inner ++
                [match res with
                 | inl _ => EvAtomicRollback
                 | inr _ => EvAtomicCommit
                 end]).
      assert (one_atomic_block
                (EvAtomicEnter :: inner ++
                   [match res with
                    | inl _ => EvAtomicRollback
                    | inr _ => EvAtomicCommit
                    end])) as Hone.
      { right. eexists inner, _. split_and!; [done|done|].
        by destruct res. }
      split_and!; try done.
      * intros Hc. destruct (Hoff Hc) as [-> ->]. done.
      * by apply one_atomic_block_guarded.
      * intros _ Hres. split; [by apply Hdb|].
        exists inner. by destruct res.
      * intros Hres. right. exists inner. by destruct res.
    + assert (∀ q uf rp lo, emits balanced (bulk_updater fuel r q uf rp lo))
        as Hbu.
      { intros. apply emits_balanced_bulk_updater_with.
        intros q' m f. apply emits_balanced_update_dependent. }
      apply emits_bind; [exact balanced_app| |].
      * by apply (emits_update_targets balanced balanced_nil balanced_app).
      * intros pks_updated. destruct old as [old|];
          [|apply emits_ret, balanced_nil].
        by apply (emits_update_old balanced balanced_nil balanced_app).
  - inversion Hrun; subst. exists [].
    rewrite !app_nil_r. split_and!; try done.
    + intros Hc. destruct (Hoff Hc) as [-> ->]. done.
    + by left.
    + by left.
Qed.

End update_dependent_facts.

(** The entry node's own update is written before the [atomic] block
    opens; when the dependent table then refuses its write, the exception
    reaches the caller with the entry node's row already changed in the
    database and the dependent row not. *)
Lemma update_dependent_local_write_unguarded :
  let rows := [item_row 1 1 0 0; dependent_row "Locked" 7 1 0] in
  let run :=
    update_dependent (dj := plain_django) 5 (dependent_resolver "Locked")
                     (SrcInstance (item_row 1 1 0 0)) None None None true
                     (plain_world rows) in
  run.1 = inl (DatabaseError "table is locked") ∧
  trace run.2 =
    [EvUpdate "Item" [item_row 1 1 2 4] {["a"; "b"]};
     EvBulkUpdate "Item" [item_row 1 1 2 4] ["a"; "b"] None;
     EvAtomicEnter;
     EvUpdate "Locked" [dependent_row "Locked" 7 1 101] {["c"]};
     EvBulkUpdate "Locked" [dependent_row "Locked" 7 1 101] ["c"] None;
     EvAtomicRollback] ∧
  writes_guarded 0 (trace run.2) = false ∧
  db run.2 = [item_row 1 1 2 4; dependent_row "Locked" 7 1 0].
Proof. vm_compute. split_and!; reflexivity. Qed.

Lemma update_dependent_one_atomic_block_witness :
  let rows := [item_row 1 1 0 0; dependent_row "Locked" 7 1 0] in
  let run :=
    update_dependent (dj := plain_django) 5 (dependent_resolver "Locked")
                     (SrcInstance (item_row 1 1 0 0)) None None None true
                     (plain_world rows) in
  ∃ w1 local block,
    (entry_update (dj := plain_django) 5 (dependent_resolver "Locked")
                  (SrcInstance (item_row 1 1 0 0)) None None true
                  (plain_world rows)).2 = w1 ∧
    local = [EvUpdate "Item" [item_row 1 1 2 4] {["a"; "b"]};
             EvBulkUpdate "Item" [item_row 1 1 2 4] ["a"; "b"] None] ∧
    trace w1 = local ∧
    trace run.2 = trace w1 ++ block ∧
    one_atomic_block block ∧
    writes_guarded 0 block = true ∧
    run.1 = inl (DatabaseError "table is locked") ∧
    db run.2 = db w1 ∧
    db w1 = [item_row 1 1 2 4; dependent_row "Locked" 7 1 0] ∧
    ∃ inner, block = EvAtomicEnter :: inner ++ [EvAtomicRollback].
Proof.
  intros rows run.
  destruct (update_dependent_one_atomic_block (dj := plain_django) 5
              (dependent_resolver "Locked") (SrcInstance (item_row 1 1 0 0))
              None None None true (plain_world rows)
              run.1 run.2 (surjective_pairing run))
    as (r1 & w1 & local & block & Hentry & Ht1 & _ & _ & Ht & Hone & Hg & _
        & Hfail & _).
  assert (r1 = (entry_update (dj := plain_django) 5
                  (dependent_resolver "Locked")
                  (SrcInstance (item_row 1 1 0 0)) None None true
                  (plain_world rows)).1) as Hr1
    by (by rewrite Hentry).
  assert ((entry_update (dj := plain_django) 5
             (dependent_resolver "Locked")
             (SrcInstance (item_row 1 1 0 0)) None None true
             (plain_world rows)).2 = w1) as Hw1
    by (by rewrite Hentry).
  assert (run.1 = inl (DatabaseError "table is locked")) as Hres
    by (vm_compute; reflexivity).
  destruct Hfail as [Hdb Hclose].
  { rewrite Hr1. vm_compute. exact I. }
  { rewrite Hres. exact I. }
  assert (trace w1 = [EvUpdate "Item" [item_row 1 1 2 4] {["a"; "b"]};
                      EvBulkUpdate "Item" [item_row 1 1 2 4] ["a"; "b"] None])
    as Hlocal.
  { rewrite <- Hw1. vm_compute. reflexivity. }
  exists w1, (trace w1), block.
  split_and!; [exact Hw1|exact Hlocal|reflexivity|exact Ht|exact Hone|exact Hg
              |exact Hres|exact Hdb| |exact Hclose].
  rewrite <- Hw1. vm_compute. reflexivity.
Defined.

(** ** [bulk_updater]: which records are written *)

Lemma with_attr_same (o : Instance) (f : string) (v : Value) :
  iattrs o !! f = Some v → with_attr o f v = o.
Proof.
  intros H. unfold with_attr. destruct o as [m a]. simpl in *. f_equal.
  by apply insert_id.
Qed.

Lemma has_attrs_with_attr (o : Instance) (f : string) (v : Value)
    (names : list string) :
  has_attrs o names → has_attrs (with_attr o f v) names.
Proof.
  intros H g Hg. simpl. destruct (decide (f = g)) as [->|Hne].
  - by rewrite lookup_insert_eq.
  - rewrite lookup_insert_ne by done. by apply H.
Qed.

Lemma has_attrs_tail (o : Instance) (f : string) (names : list string) :
  has_attrs o (f :: names) → has_attrs o names.
Proof. intros H g Hg. apply H. by right. Qed.

Lemma recompute_spec (r : Resolver) model cfs (mro : list string) :
  _computed_models r !! model = Some cfs →
  ∀ (b : bool) (o : Instance) (l : list op),
    (∀ f, f ∈ mro → is_Some (cfs !! f)) →
    has_attrs o mro →
    ∃ l', recompute r model mro b {| self := o; oplog := l |}
          = (inr (b || differs_somewhere cfs o mro),
             {| self := assign_in_order cfs o mro; oplog := l' |}).
Proof.
  intros Hcfs. induction mro as [|f mro IH]; intros b o l Hdef Hattrs.
  - exists l. simpl. unfold ret. by rewrite orb_false_r.
  - destruct (Hdef f) as [cf Hcf]; [left|].
    destruct (Hattrs f) as [current Hcur]; [left|].
    assert (∀ g, g ∈ mro → is_Some (cfs !! g)) as Hdef'
      by (intros g Hg; apply Hdef; by right).
    cbn [recompute differs_somewhere]. rewrite Hcf.
    unfold bind at 1. unfold _compute at 1. rewrite Hcfs, Hcf.
    unfold bind at 1. unfold getattr at 1. cbn [self]. rewrite Hcur.
    unfold py_ne. unfold assign_in_order. cbn [foldl]. rewrite Hcf.
    fold (assign_in_order cfs (with_attr o f (func cf o)) mro).
    case_bool_decide as Hne.
    + unfold bind at 1. unfold setattr at 1. cbn [self oplog].
      destruct (IH true (with_attr o f (func cf o))
                   ((l ++ [OpCompute f]) ++ [OpSetattr f (func cf o)]) Hdef')
        as [l' Hl'].
      { apply has_attrs_with_attr. by eapply has_attrs_tail. }
      exists l'. refine (eq_trans Hl' _). f_equal. f_equal.
      rewrite (bool_decide_eq_true_2 (Some current ≠ Some (func cf o)))
        by congruence.
      by rewrite orb_true_r.
    + assert (func cf o = current) as Heq by by destruct (decide (func cf o = current)).
      rewrite with_attr_same by by rewrite Heq.
      destruct (IH b o (l ++ [OpCompute f]) Hdef') as [l' Hl'].
      { by eapply has_attrs_tail. }
      exists l'. refine (eq_trans Hl' _). f_equal. f_equal.
      rewrite (bool_decide_eq_false_2 (Some current ≠ Some (func cf o)))
        by (rewrite Heq; intros H; by apply H).
      done.
Qed.

(** The recorded difference is a difference at some field of the order,
    seen on the record as the earlier fields of the order left it. *)
Lemma differs_somewhere_spec cfs (mro : list string) :
  (∀ f, f ∈ mro → is_Some (cfs !! f)) →
  ∀ o, differs_somewhere cfs o mro = true ↔
       ∃ pre f suf cf,
         mro = pre ++ f :: suf ∧ cfs !! f = Some cf ∧
         iattrs (assign_in_order cfs o pre) !! f
           ≠ Some (func cf (assign_in_order cfs o pre)).
Proof.
  induction mro as [|g mro IH]; intros Hdef o.
  - simpl. split; [done|]. intros (pre & f & suf & cf & Heq & _).
    by destruct pre.
  - destruct (Hdef g) as [cg Hcg]; [left|].
    assert (∀ f, f ∈ mro → is_Some (cfs !! f)) as Hdef'
      by (intros f Hf; apply Hdef; by right).
    simpl. rewrite Hcg, orb_true_iff, bool_decide_eq_true, (IH Hdef').
    split.
    + intros [Hfirst|(pre & f & suf & cf & -> & Hcf & Hne)].
      * by exists [], g, mro, cg.
      * exists (g :: pre), f, suf, cf. split_and!; [done..|].
        unfold assign_in_order in *. simpl. by rewrite Hcg.
    + intros (pre & f & suf & cf & Heq & Hcf & Hne).
      destruct pre as [|g' pre]; simpl in Heq; inversion Heq; subst.
      * left. by assert (cf = cg) as -> by congruence.
      * right. exists pre, f, suf, cf. split_and!; [done..|].
        unfold assign_in_order in *. simpl in Hne. by rewrite Hcg in Hne.
Qed.

Lemma update_batches_app (a b : list event) :
  update_batches (a ++ b) = update_batches a ++ update_batches b.
Proof. apply omap_app. Qed.

Lemma update_batches_db (tr : list event) :
  Forall is_db_event tr → update_batches tr = [].
Proof.
  induction 1 as [|e tr He _ IH]; [done|].
  destruct e; simpl in He; try done; exact IH.
Qed.

Lemma update_batches_one_call model change fields (new : list event) :
  Forall is_db_event new →
  concat (update_batches (EvUpdate model change fields :: new)) = change.
Proof.
  intros Hdb.
  change (update_batches (EvUpdate model change fields :: new))
    with (change :: update_batches new).
  rewrite update_batches_db by done. simpl. apply app_nil_r.
Qed.

Lemma changed_records_cons cfs (mro : list string) (elem : Instance)
    (elems : list Instance) :
  changed_records cfs mro (elem :: elems)
  = (if differs_somewhere cfs elem mro
     then [assign_in_order cfs elem mro] else [])
    ++ changed_records cfs mro elems.
Proof.
  unfold changed_records. simpl. by destruct (differs_somewhere cfs elem mro).
Qed.

Section bulk_updater_facts.
Context `{dj : Django}.

Lemma Forall_db_app (a b : list event) :
  Forall is_db_event a → Forall is_db_event b → Forall is_db_event (a ++ b).
Proof. intros. by apply Forall_app. Qed.

Lemma Forall_db_single (e : event) : is_db_event e → Forall is_db_event [e].
Proof. intros He. by apply Forall_singleton. Qed.

Lemma _update_trace queryset change fields (w : World) res w' :
  _update queryset change fields w = (res, w') →
  ∃ new, trace w' = trace w ++ EvUpdate (qs_model queryset) change fields :: new
         ∧ Forall is_db_event new.
Proof.
  unfold _update. unfold bind at 1. simpl. intros Hrun.
  assert (∃ new, trace w' = (trace w ++ [EvUpdate (qs_model queryset) change
                                                  fields]) ++ new
                 ∧ Forall is_db_event new) as (new & Ht & Hdb).
  { destruct (use_fastupdate w) as [[|]|].
    - apply (emits_fast_update (Forall is_db_event) (Forall_nil_2 _)
               Forall_db_app (λ msg, Forall_db_single (EvWarning msg) I)
               Forall_db_single _ _ _ _ _ _ _ Hrun).
    - apply (emits_objects_bulk_update (Forall is_db_event) (Forall_nil_2 _)
               Forall_db_app Forall_db_single _ _ _ _ _ _ _ Hrun).
    - apply (emits_objects_bulk_update (Forall is_db_event) (Forall_nil_2 _)
               Forall_db_app Forall_db_single _ _ _ _ _ _ _ Hrun). }
  exists new. by rewrite Ht, <- app_assoc.
Qed.

Lemma update_loop_spec (r : Resolver) queryset model cfs mro fields :
  _computed_models r !! model = Some cfs →
  (∀ f, f ∈ mro → is_Some (cfs !! f)) →
  ∀ (elems change seen : list Instance) (w : World) res w',
    (∀ elem, elem ∈ elems → has_attrs elem mro) →
    update_loop r queryset model mro fields elems change seen w = (res, w') →
    ∃ new,
      trace w' = trace w ++ new ∧
      concat (update_batches new)
        `prefix_of` change ++ changed_records cfs mro elems ∧
      (returned res →
       concat (update_batches new) = change ++ changed_records cfs mro elems).
Proof.
  intros Hcfs Hdef.
  induction elems as [|elem elems IH];
    intros change seen w res w' Hattrs Hrun.
  - simpl in Hrun. unfold bind at 1 in Hrun. rewrite app_nil_r.
    case_bool_decide as Hch.
    + destruct (_update queryset change fields w) as [r1 w1] eqn:Hu.
      apply _update_trace in Hu as (new & Ht & Hdb).
      exists (EvUpdate (qs_model queryset) change fields :: new).
      assert (trace w' = trace w1) as ->
        by (destruct r1 as [e|[]]; by inversion Hrun).
      split; [done|].
      by rewrite update_batches_one_call.
    + subst change. inversion Hrun; subst.
      exists []. by rewrite app_nil_r.
  - simpl in Hrun.
    destruct (recompute_spec r model cfs mro Hcfs false elem [] Hdef)
      as [l' Hre]; [apply Hattrs; left|].
    rewrite Hre in Hrun. cbn [self orb] in Hrun.
    rewrite changed_records_cons.
    set (elem' := assign_in_order cfs elem mro) in *.
    set (change' := if differs_somewhere cfs elem mro
                    then change ++ [elem'] else change) in *.
    assert (change ++ (if differs_somewhere cfs elem mro then [elem'] else [])
            = change') as Hchange.
    { unfold change'. destruct (differs_somewhere cfs elem mro); [done|].
      apply app_nil_r. }
    rewrite app_assoc, Hchange.
    assert (∀ e, e ∈ elems → has_attrs e mro) as Hattrs'
      by (intros e He; apply Hattrs; by right).
    case_bool_decide as Hfull.
    + unfold bind at 1 in Hrun.
      destruct (_update queryset change' fields w) as [r1 w1] eqn:Hu.
      apply _update_trace in Hu as (new1 & Ht1 & Hdb1).
      assert (concat (update_batches
                (EvUpdate (qs_model queryset) change' fields :: new1))
              = change') as Hfirst.
      { by apply update_batches_one_call. }
      destruct r1 as [e|[]].
      * inversion Hrun; subst.
        exists (EvUpdate (qs_model queryset) change' fields :: new1).
        rewrite Hfirst. split_and!; [done| |done].
        by apply prefix_app_r.
      * apply IH in Hrun as (new2 & Ht2 & Hpre & Hret); [|done].
        exists ((EvUpdate (qs_model queryset) change' fields :: new1) ++ new2).
        rewrite update_batches_app, concat_app, Hfirst.
        split_and!.
        -- by rewrite Ht2, Ht1, <- app_assoc.
        -- by apply prefix_app.
        -- intros Hr. by rewrite (Hret Hr).
    + by apply IH in Hrun.
Qed.

Lemma changed_records_nil_cons cfs (mro : list string) (elem : Instance)
    (elems : list Instance) :
  changed_records cfs mro (elem :: elems) = [] →
  differs_somewhere cfs elem mro = false ∧ changed_records cfs mro elems = [].
Proof.
  rewrite changed_records_cons.
  destruct (differs_somewhere cfs elem mro); [done|]. simpl. by intros ->.
Qed.

Lemma update_loop_in_sync (r : Resolver) queryset model cfs mro fields :
  _computed_models r !! model = Some cfs →
  (∀ f, f ∈ mro → is_Some (cfs !! f)) →
  ∀ (elems seen : list Instance) (w : World),
    (∀ elem, elem ∈ elems → has_attrs elem mro) →
    changed_records cfs mro elems = [] →
    0 < _batchsize w →
    ∃ seen', update_loop r queryset model mro fields elems [] seen w
             = (inr seen', w).
Proof.
  intros Hcfs Hdef.
  induction elems as [|elem elems IH]; intros seen w Hattrs Hsync Hbs.
  - by exists seen.
  - apply changed_records_nil_cons in Hsync as [Hsame Hsync].
    simpl.
    destruct (recompute_spec r model cfs mro Hcfs false elem [] Hdef)
      as [l' ->]; [apply Hattrs; left|].
    rewrite Hsame. cbn [self orb]. simpl.
    rewrite bool_decide_eq_false_2 by lia.
    apply IH; [|done..]. intros e He. apply Hattrs. by right.
Qed.

End bulk_updater_facts.

Section bulk_updater_claim.
Context `{dj : Django}.

Lemma settle_fastupdate_db (w : World) res w' :
  settle_fastupdate w = (res, w') → db w' = db w.
Proof.
  unfold settle_fastupdate, check_support, _adjust_mysql, bind, ret, emit,
    set_use_fastupdate, set_batchsize, set_CONNECTION_HASHES.
  destruct (sqlite_version_info connection) as [[major minor] patch].
  repeat case_match; intros; simplify_eq; done.
Qed.

Lemma related_lookups_defined (r : Resolver) model (names : list string) :
  ∀ select prefetch related,
    related_lookups r model names select prefetch = inr related →
    names ≠ [] →
    ∃ cfs, _computed_models r !! model = Some cfs ∧
           ∀ f, f ∈ names → is_Some (cfs !! f).
Proof.
  induction names as [|f names IH]; intros select prefetch related Hrun Hne;
    [done|].
  simpl in Hrun.
  destruct (_computed_models r !! model) as [cfs|] eqn:Hcfs; [|done].
  exists cfs. split; [done|].
  destruct (cfs !! f) as [cf|] eqn:Hcf; [|done].
  intros g Hg. apply elem_of_cons in Hg as [->|Hg]; [by rewrite Hcf|].
  destruct names as [|f' names]; [by apply elem_of_nil in Hg|].
  destruct (IH _ _ _ Hrun) as (cfs' & Hcfs' & Hall); [done|].
  assert (cfs' = cfs) as -> by congruence. by apply Hall.
Qed.

Lemma changed_records_empty_mro cfs (elems : list Instance) :
  changed_records cfs [] elems = [].
Proof. induction elems as [|e elems IH]; [done|exact IH]. Qed.

Lemma elem_of_changed_records cfs (mro : list string)
    (elems : list Instance) (x : Instance) :
  (∀ f, f ∈ mro → is_Some (cfs !! f)) →
  x ∈ changed_records cfs mro elems ↔
  ∃ elem pre f suf cf,
    elem ∈ elems ∧ x = assign_in_order cfs elem mro ∧
    mro = pre ++ f :: suf ∧ cfs !! f = Some cf ∧
    iattrs (assign_in_order cfs elem pre) !! f
      ≠ Some (func cf (assign_in_order cfs elem pre)).
Proof.
  intros Hdef. unfold changed_records. rewrite list_elem_of_omap. split.
  - intros (elem & Hin & Hsome).
    destruct (differs_somewhere cfs elem mro) eqn:Hd; [|done].
    inversion Hsome; subst.
    apply (differs_somewhere_spec cfs mro Hdef) in Hd
      as (pre & f & suf & cf & Hsplit & Hcf & Hne).
    by exists elem, pre, f, suf, cf.
  - intros (elem & pre & f & suf & cf & Hin & -> & Hsplit & Hcf & Hne).
    exists elem. split; [done|].
    rewrite (proj2 (differs_somewhere_spec cfs mro Hdef elem)); [done|].
    by exists pre, f, suf, cf.
Qed.

Lemma quiet_update_batches (new : list event) :
  Forall (λ e, is_db_event e ∧ is_write e = false) new →
  update_batches new = [] ∧ Forall (λ e, is_write e = false) new.
Proof.
  intros H. split.
  - apply update_batches_db. eapply Forall_impl; [done|]. by intros e [].
  - eapply Forall_impl; [done|]. by intros e [].
Qed.

Lemma emits_quiet_settle_fastupdate :
  emits (Forall (λ e, is_db_event e ∧ is_write e = false)) settle_fastupdate.
Proof.
  apply emits_settle_fastupdate.
  - apply Forall_nil_2.
  - intros a b Ha Hb. by apply Forall_app.
  - intros msg. by apply Forall_singleton.
Qed.

(** C1 (bulk_updater): what one call appends to the trace is first its own
    part and then, unless [local_only], whatever the descent into
    [update_dependent] appends.  In its own part the change lists handed to
    [_update] add up, in order, to exactly the records of the evaluated
    queryset for which some recomputed local computed field differs from
    the value the record holds when the field's turn comes, each as the
    recomputation leaves it; a call cut short by an exception has handed
    over a prefix of them.  When no record differs and the batch size in
    force is positive, [_update] is not called and nothing is written. *)
Theorem bulk_updater_writes_changed_records (fuel : nat) (r : Resolver)
    (queryset : QuerySet) (update_fields : option (gset string))
    (return_pks local_only : bool) (w : World) res w' related :
  let model := qs_model queryset in
  let mro := get_local_mro r model (FSet <$> update_fields) in
  let cfs := default ∅ (_computed_models r !! model) in
  let prepared := apply_related related (QDistinct queryset) in
  let elems := evaluate (db w) prepared in
  related_lookups r model (elements (list_to_set mro : gset string)) ∅ []
    = inr related →
  (∀ elem, elem ∈ elems → has_attrs elem mro) →
  bulk_updater fuel r queryset update_fields return_pks local_only w
    = (res, w') →
  ∃ new rest,
    trace w' = trace w ++ new ++ rest ∧
    (local_only = true → rest = []) ∧
    (rest ≠ [] →
     ∃ w1 res1 w2,
       trace w1 = trace w ++ new ∧
       update_dependent fuel r (SrcQuerySet prepared) (Some model)
                        (Some (FSet (list_to_set mro))) None false w1
         = (res1, w2) ∧
       trace w2 = trace w1 ++ rest) ∧
    concat (update_batches new) `prefix_of` changed_records cfs mro elems ∧
    (returned res →
     concat (update_batches new) = changed_records cfs mro elems) ∧
    (∀ x, x ∈ changed_records cfs mro elems ↔
          ∃ elem pre f suf cf,
            elem ∈ elems ∧ x = assign_in_order cfs elem mro ∧
            mro = pre ++ f :: suf ∧ cfs !! f = Some cf ∧
            iattrs (assign_in_order cfs elem pre) !! f
              ≠ Some (func cf (assign_in_order cfs elem pre))) ∧
    (changed_records cfs mro elems = [] →
     0 < _batchsize (settle_fastupdate w).2 →
     update_batches new = [] ∧ Forall (λ e, is_write e = false) new).
Proof.
  intros model mro cfs prepared elems Hrel Hattrs Hrun.
  assert (∀ x, x ∈ changed_records cfs mro elems ↔
            ∃ elem pre f suf cf,
              elem ∈ elems ∧ x = assign_in_order cfs elem mro ∧
              mro = pre ++ f :: suf ∧ cfs !! f = Some cf ∧
              iattrs (assign_in_order cfs elem pre) !! f
                ≠ Some (func cf (assign_in_order cfs elem pre))) as Hiff.
  { intros x. apply elem_of_changed_records.
    destruct (decide (mro = [])) as [Hmro|Hmro].
    { rewrite Hmro. intros f Hf. by apply elem_of_nil in Hf. }
    destruct (related_lookups_defined _ _ _ _ _ _ Hrel)
      as (cfs' & Hcfs' & Hall).
    { intros Hnil. assert (∃ y, y ∈ mro) as [y Hy0].
      { destruct mro as [|y ?]; [done|]. exists y. left. }
      assert (y ∈ elements (list_to_set mro : gset string)) as Hy
        by by apply elem_of_elements, elem_of_list_to_set.
      rewrite Hnil in Hy. by apply elem_of_nil in Hy. }
    intros f Hf. unfold cfs. rewrite Hcfs'. simpl.
    by apply Hall, elem_of_elements, elem_of_list_to_set. }
  cut (∃ new rest,
    trace w' = trace w ++ new ++ rest ∧
    (local_only = true → rest = []) ∧
    (rest ≠ [] →
     ∃ w1 res1 w2,
       trace w1 = trace w ++ new ∧
       update_dependent fuel r (SrcQuerySet prepared) (Some model)
                        (Some (FSet (list_to_set mro))) None false w1
         = (res1, w2) ∧
       trace w2 = trace w1 ++ rest) ∧
    concat (update_batches new) `prefix_of` changed_records cfs mro elems ∧
    (returned res →
     concat (update_batches new) = changed_records cfs mro elems) ∧
    (changed_records cfs mro elems = [] →
     0 < _batchsize (settle_fastupdate w).2 →
     update_batches new = [] ∧ Forall (λ e, is_write e = false) new)).
  { intros (new & rest & H1 & H2 & H3 & H4 & H5 & H6).
    exists new, rest. by split_and!. }
  clear Hiff.
  unfold bulk_updater, bulk_updater_with in Hrun.
  cbn [qs_model] in Hrun. fold model in Hrun. fold mro in Hrun.
  fold prepared in Hrun.
  rewrite Hrel, bind_lift_inr in Hrun.
  unfold bind at 1 in Hrun.
  destruct (settle_fastupdate w) as [[e|[]] w0] eqn:Hs;
    destruct (emits_quiet_settle_fastupdate _ _ _ Hs) as (new0 & Ht0 & Hq);
    destruct (quiet_update_batches _ Hq) as [Hub0 Hw0].
  { inversion Hrun; subst. exists new0, []. rewrite Hub0, app_nil_r. simpl.
    split_and!; [done|done|done|apply prefix_nil|done|done]. }
  pose proof (settle_fastupdate_db _ _ _ Hs) as Hdb. simpl.
  match type of Hrun with
  | bind _ ?k _ = _ => set (tail := k) in Hrun
  end.
  assert (∀ (cache : option (list Instance)) (w2 : World),
            tail cache w2 = (res, w') →
            ∃ rest,
              trace w' = trace w2 ++ rest ∧
              (local_only = true → rest = []) ∧
              (rest ≠ [] →
               ∃ res1 w3,
                 update_dependent fuel r (SrcQuerySet prepared) (Some model)
                   (Some (FSet (list_to_set mro))) None false w2
                   = (res1, w3) ∧
                 trace w3 = trace w2 ++ rest)) as Htail.
  { intros cache w2. subst tail. cbv beta.
    assert (∀ c w3, ∃ x, result_cache prepared c w3 = (inr x, w3)) as Hrc.
    { intros [x|] w3; by eexists. }
    assert (∀ c uf (w3 : World),
              (if return_pks then
                 seen <- result_cache prepared c ;;
                 pks <- lift (instance_pks seen) ;;
                 ret (Some (list_to_set pks : gset Value), uf)
               else ret (None, uf)) w3 = (res, w') → w' = w3) as Hfin.
    { intros c uf w3. destruct return_pks; [|intros H'; by inversion H'].
      unfold bind at 1. destruct (Hrc c w3) as [x ->].
      unfold bind, lift, ret. destruct (instance_pks x);
        intros H'; by inversion H'. }
    destruct local_only.
    - unfold bind at 1. unfold ret at 1. intros Hrun'.
      apply Hfin in Hrun'. subst w'. exists []. by rewrite app_nil_r.
    - unfold bind at 1. unfold bind at 1.
      destruct (Hrc cache w2) as [seen Hseen].
      change (apply_related related (QDistinct queryset)) with prepared.
      rewrite Hseen. unfold bind at 1.
      destruct (bool_decide (seen ≠ [])).
      + destruct (update_dependent fuel r (SrcQuerySet prepared) (Some model)
                    (Some (FSet (list_to_set mro))) None false w2)
          as [res1 w3] eqn:Hd.
        destruct (emits_balanced_update_dependent _ _ _ _ _ _ _ _ _ _ Hd)
          as (rest & Ht & _).
        intros Hrun'.
        assert (w' = w3) as ->.
        { destruct res1 as [e|[]]; [by inversion Hrun'|].
          revert Hrun'. unfold ret at 1. apply Hfin. }
        exists rest. split_and!; [done|done|]. intros _. by exists res1, w3.
      + unfold ret at 1. unfold ret at 1. intros Hrun'.
        apply Hfin in Hrun'. subst w'. exists []. by rewrite app_nil_r. }
  clearbody tail.
  destruct (decide (mro = [])) as [Hmro|Hmro].
  - revert Hrun. case_bool_decide as Hf.
    { exfalso. apply Hf. by rewrite Hmro. }
    unfold bind at 1. unfold ret at 1. intros Hrun.
    apply Htail in Hrun as (rest & Ht & Hlo & Hdesc).
    assert (changed_records cfs mro elems = []) as Hch
      by (rewrite Hmro; apply changed_records_empty_mro).
    exists new0, rest. rewrite Hub0, Hch. simpl.
    split_and!; [by rewrite Ht, Ht0, <- app_assoc|done| |apply prefix_nil
                 |done|done].
    intros Hrest. destruct (Hdesc Hrest) as (res1 & w3 & Hd & Ht3).
    exists w0, res1, w3. by split_and!.
  - assert (∃ x, x ∈ mro) as [x Hx].
    { destruct mro as [|x ?]; [done|]. exists x. left. }
    assert (∀ f, f ∈ elements (list_to_set mro : gset string) ↔ f ∈ mro)
      as Hnames.
    { intros f. by rewrite elem_of_elements, elem_of_list_to_set. }
    destruct (related_lookups_defined _ _ _ _ _ _ Hrel)
      as (cfs' & Hcfs' & Hall).
    { intros Hnil. apply Hnames in Hx. rewrite Hnil in Hx.
      by apply elem_of_nil in Hx. }
    assert (cfs = cfs') as Hcfs by (unfold cfs; by rewrite Hcfs').
    assert (∀ f, f ∈ mro → is_Some (cfs' !! f)) as Hdef.
    { intros f Hf. by apply Hall, Hnames. }
    revert Hrun. case_bool_decide as Hf.
    2:{ exfalso.
        assert (x ∈ (list_to_set mro : gset string)) as Hin
          by by apply elem_of_list_to_set.
        rewrite Hf in Hin. by apply not_elem_of_empty in Hin. }
    unfold bind at 1. unfold bind at 1. unfold fetch at 1.
    unfold bind at 1. rewrite Hdb. fold prepared. fold elems.
    destruct (update_loop r _ model mro _ elems [] [] w0) as [r2 w2] eqn:Hloop.
    pose proof Hloop as Hloop'.
    apply (update_loop_spec r _ model cfs' mro _ Hcfs' Hdef) in Hloop
      as (new2 & Ht2 & Hpre & Hret); [|done].
    simpl in Hpre, Hret. rewrite Hcfs.
    assert (changed_records cfs' mro elems = [] → 0 < _batchsize w0 →
            returned r2 ∧ new2 = []) as Hsync.
    { intros Hnone Hbs.
      destruct (update_loop_in_sync r prepared model cfs' mro
                  (list_to_set mro) Hcfs' Hdef elems [] w0 Hattrs Hnone Hbs)
        as [seen' Hl'].
      rewrite Hl' in Hloop'. inversion Hloop'; subst. split; [done|].
      apply (app_inv_head (trace w2)). by rewrite app_nil_r. }
    assert (trace w2 = trace w ++ new0 ++ new2) as Ht
      by by rewrite Ht2, Ht0, <- app_assoc.
    assert (update_batches (new0 ++ new2) = update_batches new2) as Hub
      by by rewrite update_batches_app, Hub0.
    destruct r2 as [e|seen].
    + intros Hrun. inversion Hrun; subst. exists (new0 ++ new2), [].
      rewrite Hub, app_nil_r. split_and!; [done..|].
      intros Hnone Hbs. by destruct (Hsync Hnone Hbs) as [[] _].
    + unfold ret at 1. intros Hrun.
      apply Htail in Hrun as (rest & Ht' & Hlo & Hdesc).
      exists (new0 ++ new2), rest. rewrite Hub.
      split_and!; [by rewrite Ht', Ht, <- !app_assoc|done| |done| |].
      * intros Hrest. destruct (Hdesc Hrest) as (res1 & w3 & Hd & Ht3).
        exists w2, res1, w3. by split_and!.
      * intros _. by apply Hret.
      * intros Hnone Hbs. destruct (Hsync Hnone Hbs) as [_ ->].
        rewrite app_nil_r. by split.
Qed.

End bulk_updater_claim.

Lemma has_attrs_Forall (elems : list Instance) (names : list string) :
  Forall (λ o, Forall (λ f, is_Some (iattrs o !! f)) names) elems →
  ∀ elem, elem ∈ elems → has_attrs elem names.
Proof.
  intros Hall elem Hin f Hf.
  rewrite Forall_forall in Hall. specialize (Hall elem Hin).
  rewrite Forall_forall in Hall. by apply Hall.
Qed.

Lemma bulk_updater_writes_changed_records_witness :
  let rows := [item_row 1 1 2 4; item_row 2 1 0 0] in
  let run :=
    bulk_updater (dj := plain_django) 5 example_resolver (QAll "Item") None
                 false true (plain_world rows) in
  ∃ new,
    trace run.2 = new ∧
    concat (update_batches new) = [item_row 2 1 2 4].
Proof.
  intros rows run.
  destruct (bulk_updater_writes_changed_records (dj := plain_django) 5
              example_resolver (QAll "Item") None false true
              (plain_world rows) run.1 run.2 (∅, []))
    as (new & rest & Ht & Hlo & _ & _ & Hret & _).
  - vm_compute. reflexivity.
  - apply has_attrs_Forall. apply (bool_decide_unpack _). vm_compute. exact I.
  - apply surjective_pairing.
  - exists new. rewrite (Hlo eq_refl), app_nil_r in Ht. split; [exact Ht|].
    rewrite Hret; [vm_compute; reflexivity|]. vm_compute. exact I.
Defined.

(** A record set in sync with its sources: the call appends nothing to the
    trace. *)
Example bulk_updater_in_sync_writes_nothing :
  let rows := [item_row 1 1 2 4; item_row 2 5 6 12] in
  let run :=
    bulk_updater (dj := plain_django) 5 example_resolver (QAll "Item") None
                 true true (plain_world rows) in
  run.1 = inr (Some {[VInt 1; VInt 2]}, None) ∧ trace run.2 = [] ∧
  db run.2 = rows.
Proof. vm_compute. split_and!; reflexivity. Qed.

(** * Further properties *)

(** ** Local MRO lookup: monotonicity *)

Lemma names_with_bit_set_mono (m1 m2 : Z) (l : list string) :
  (∀ i : nat, Z.testbit m1 (Z.of_nat i) = true →
              Z.testbit m2 (Z.of_nat i) = true) →
  sublist (names_with_bit_set m1 l) (names_with_bit_set m2 l).
Proof.
  unfold names_with_bit_set. intros Hbits.
  assert (∀ (Q1 Q2 : nat → bool),
    (∀ i, Q1 i = true → Q2 i = true) →
    sublist (omap id (imap (λ i x, if Q1 i then Some x else None) l))
            (omap id (imap (λ i x, if Q2 i then Some x else None) l))) as H.
  { induction l as [|x l IH]; intros Q1 Q2 HQ; [done|]. simpl.
    specialize (IH (Q1 ∘ S) (Q2 ∘ S) (λ i, HQ (S i))).
    destruct (Q1 0%nat) eqn:H1.
    - rewrite (HQ _ H1). simpl. by apply sublist_skip.
    - destruct (Q2 0%nat); simpl; [by apply sublist_cons|done]. }
  apply (H (λ i, Z.testbit m1 (Z.of_nat i)) (λ i, Z.testbit m2 (Z.of_nat i))).
  done.
Qed.

Lemma get_local_mro_names_with_bit_set (r : Resolver) (model : Model)
    (entry : MroEntry) (update_fields : Fields) :
  _local_mro r !! model = Some entry →
  get_local_mro r model (Some update_fields)
  = names_with_bit_set (or_of_masks entry (frozenset update_fields))
                       (base entry).
Proof.
  intros Hentry. unfold get_local_mro. rewrite Hentry. simpl.
  rewrite set_fold_lor_masks. unfold enumerate, names_with_bit_set.
  exact (filter_imap_positions
           (λ i, Z.land (or_of_masks entry (frozenset update_fields))
                        (Z.shiftl 1 (Z.of_nat i)) ≠ 0)
           (λ i, Z.testbit (or_of_masks entry (frozenset update_fields))
                           (Z.of_nat i))
           (λ i, i) (base entry) (λ i, land_shiftl_1_testbit _ i)).
Qed.

(** X1 (get_local_mro): naming more changed fields never drops a field
    from the result nor reorders it: the result for a set of names is a
    subsequence of the result for any larger set. *)
Theorem get_local_mro_monotone (r : Resolver) (model : Model)
    (update_fields1 update_fields2 : Fields) :
  frozenset update_fields1 ⊆ frozenset update_fields2 →
  sublist (get_local_mro r model (Some update_fields1))
          (get_local_mro r model (Some update_fields2)).
Proof.
  intros Hsub.
  destruct (_local_mro r !! model) as [entry|] eqn:Hentry.
  - rewrite !(get_local_mro_names_with_bit_set r model entry) by done.
    apply names_with_bit_set_mono. intros i.
    rewrite !or_of_masks_testbit.
    intros (f & m & Hf & Hm & Hb). exists f, m. split_and!; [|done..].
    by apply Hsub.
  - unfold get_local_mro. by rewrite Hentry.
Qed.

Lemma get_local_mro_monotone_witness :
  frozenset (FList ["b"]) ⊆ frozenset (FSet {["x"; "b"]}) ∧
  sublist (get_local_mro example_resolver "Item" (Some (FList ["b"])))
          (get_local_mro example_resolver "Item" (Some (FSet {["x"; "b"]}))).
Proof.
  assert (frozenset (FList ["b"]) ⊆ frozenset (FSet {["x"; "b"]})) as Hsub.
  { apply (bool_decide_unpack _). vm_compute. exact I. }
  split; [exact Hsub|].
  exact (get_local_mro_monotone example_resolver "Item" _ _ Hsub).
Defined.

(** ** [update_computedfields] and [compute]: what stays, what agrees *)

Lemma assign_in_order_frame cfs (names : list string) (o : Instance)
    (k : string) :
  k ∉ names → iattrs (assign_in_order cfs o names) !! k = iattrs o !! k.
Proof.
  revert o. induction names as [|f names IH]; intros o Hk; [done|].
  apply not_elem_of_cons in Hk as [Hne Hk].
  unfold assign_in_order in *. simpl. rewrite IH by done.
  destruct (cfs !! f); [|done]. simpl. by rewrite lookup_insert_ne.
Qed.

Lemma for_each_compute_frame (r : Resolver) model (names : list string)
    (k : string) :
  k ∉ names →
  ∀ s res s',
    for_each names (λ fieldname,
      new <- _compute r model fieldname ;; setattr fieldname new) s
      = (res, s') →
    iattrs (self s') !! k = iattrs (self s) !! k ∧
    imodel (self s') = imodel (self s).
Proof.
  induction names as [|f names IH]; intros Hk s res s' Hrun.
  - by inversion Hrun.
  - apply not_elem_of_cons in Hk as [Hne Hk].
    cbn [for_each] in Hrun. unfold bind at 1 in Hrun.
    unfold bind at 1 in Hrun. unfold _compute at 1 in Hrun.
    destruct (_computed_models r !! model) as [cfs|];
      [|by inversion Hrun].
    destruct (cfs !! f) as [cf|]; [|by inversion Hrun].
    unfold setattr at 1 in Hrun. cbn [self oplog] in Hrun.
    apply (IH Hk) in Hrun as [Ha Hm]. cbn [self iattrs imodel] in Ha, Hm.
    rewrite Ha, Hm. by rewrite lookup_insert_ne.
Qed.

(** X2 (update_computedfields): however the call ends, it leaves the
    model class and every attribute outside the affected local MRO as they
    were; only the computed fields selected by [get_local_mro] can
    change. *)
Theorem update_computedfields_frame (r : Resolver)
    (update_fields : option Fields) (s : Frame) res s' (k : string) :
  update_computedfields r update_fields s = (res, s') →
  k ∉ get_local_mro r (imodel (self s)) update_fields →
  iattrs (self s') !! k = iattrs (self s) !! k ∧
  imodel (self s') = imodel (self s).
Proof.
  unfold update_computedfields. intros Hrun Hk.
  destruct (negb (has_computedfields r (imodel (self s))));
    [by inversion Hrun|].
  unfold bind at 1 in Hrun.
  destruct (for_each _ _ s) as [[e|[]] s1] eqn:Hfor.
  - inversion Hrun; subst. by eapply for_each_compute_frame.
  - inversion Hrun; subst. by eapply for_each_compute_frame.
Qed.

Lemma update_computedfields_frame_witness :
  let run := update_computedfields example_resolver (Some (FList ["b"]))
               (fresh (item 1 0 0)) in
  ("a" ∉ get_local_mro example_resolver "Item" (Some (FList ["b"]))) ∧
  iattrs (self run.2) !! "a" = Some (VInt 0).
Proof.
  intros run.
  assert ("a" ∉ get_local_mro example_resolver
                  (imodel (self (fresh (item 1 0 0))))
                  (Some (FList ["b"]))) as Hout.
  { apply (bool_decide_unpack _). vm_compute. exact I. }
  split; [exact Hout|].
  destruct (update_computedfields_frame example_resolver
              (Some (FList ["b"])) (fresh (item 1 0 0)) run.1 run.2 "a"
              (surjective_pairing run) Hout) as [Ha _].
  rewrite Ha. vm_compute. reflexivity.
Defined.

Lemma assign_in_order_app cfs (o : Instance) (l1 l2 : list string) :
  assign_in_order cfs o (l1 ++ l2)
  = assign_in_order cfs (assign_in_order cfs o l1) l2.
Proof. unfold assign_in_order. by rewrite foldl_app. Qed.

Lemma index_first (pre suf : list string) (f : string) :
  f ∉ pre → index (pre ++ f :: suf) f = Some (length pre).
Proof.
  intros Hf. unfold index.
  assert (list_find (λ name, name = f) (pre ++ f :: suf)
          = Some (length pre, f)) as ->; [|done].
  apply list_find_Some. split_and!.
  - by rewrite lookup_app_r, Nat.sub_diag.
  - done.
  - intros j y Hj Hlt ->. apply Hf.
    rewrite lookup_app_l in Hj by done. by eapply list_elem_of_lookup_2.
Qed.

Lemma compute_loop_simulates (r : Resolver) model (entry : MroEntry)
    (pos : Z) (f : string) cfs cf (U suf : list string) :
  _computed_models r !! model = Some cfs →
  cfs !! f = Some cf →
  ignores (func cf) U →
  ∀ (todo : list string) (stack : list (string * Value)) (s : Frame)
    (o' : Instance),
    f ∉ todo →
    imodel (self s) = imodel o' →
    (∀ k, k ∉ U → iattrs (self s) !! k = iattrs o' !! k) →
    (∀ g, g ∈ todo → Z.land (default 0 (fields entry !! g)) pos ≠ 0 →
       is_Some (iattrs (self s) !! g) ∧
       ∃ cg, cfs !! g = Some cg ∧ ignores (func cg) U) →
    (∀ g, g ∈ todo → Z.land (default 0 (fields entry !! g)) pos = 0 →
       g ∈ U) →
    ∃ s', compute_loop r model (fields entry) pos f (todo ++ f :: suf) stack s
          = (inr (func cf (assign_in_order cfs o' todo)), s').
Proof.
  intros Hcfs Hcf Hign.
  induction todo as [|g todo IH]; intros stack s o' Hf Hm Hagree Hon Hoff.
  - simpl. rewrite bool_decide_eq_true_2 by done.
    unfold bind at 1. unfold _compute at 1. rewrite Hcfs, Hcf.
    unfold bind at 1.
    edestruct rewind_stack as (s2 & -> & _).
    eexists. unfold ret. do 2 f_equal. by apply Hign.
  - apply not_elem_of_cons in Hf as [Hne Hf].
    cbn [app compute_loop]. rewrite bool_decide_eq_false_2 by done.
    case_bool_decide as Hbit.
    + destruct (Hon g) as [[old Hold] (cg & Hcg & Hig)]; [left|done|].
      unfold bind at 1. unfold getattr at 1. rewrite Hold.
      unfold bind at 1. unfold _compute at 1. rewrite Hcfs, Hcg.
      unfold bind at 1. unfold setattr at 1. cbn [self oplog].
      assert (func cg (self s) = func cg o') as Hval by by apply Hig.
      unfold assign_in_order. cbn [foldl]. rewrite Hcg.
      fold (assign_in_order cfs (with_attr o' g (func cg o')) todo).
      apply IH; [done|done| | |].
      * intros k Hk. cbn [self iattrs with_attr]. rewrite Hval.
        destruct (decide (g = k)) as [->|Hgk].
        -- by rewrite !lookup_insert_eq.
        -- rewrite !lookup_insert_ne by done. by apply Hagree.
      * intros h Hh Hhbit. destruct (Hon h) as [Hattr Hfn]; [by right|done|].
        split; [|done]. cbn [self iattrs].
        destruct (decide (g = h)) as [->|Hgh].
        -- by rewrite lookup_insert_eq.
        -- by rewrite lookup_insert_ne.
      * intros h Hh. apply Hoff. by right.
    + assert (Z.land (default 0 (fields entry !! g)) pos = 0) as Hzero.
      { destruct (decide (Z.land (default 0 (fields entry !! g)) pos = 0))
          as [Hz|Hz]; [exact Hz|exfalso; tauto]. }
      assert (g ∈ U) as HgU by (apply Hoff; [left|done]).
      unfold assign_in_order. cbn [foldl].
      fold (assign_in_order cfs
              (match cfs !! g with
               | Some cg => with_attr o' g (func cg o')
               | None => o'
               end) todo).
      apply IH; [done| | | |].
      * rewrite Hm. by destruct (cfs !! g).
      * intros k Hk. rewrite Hagree by done.
        destruct (cfs !! g); [|done]. cbn [iattrs with_attr].
        rewrite lookup_insert_ne; [done|]. by intros ->.
      * intros h Hh. apply Hon. by right.
      * intros h Hh. apply Hoff. by right.
Qed.

Lemma ignores_nothing (func : Instance → Value) : ignores func [].
Proof.
  intros [m a] [m' a'] Hm Ha. simpl in *. subst m'.
  assert (a = a') as ->; [|done].
  apply map_eq. intros k. apply Ha. apply not_elem_of_nil.
Qed.

(** X3 (compute, update_computedfields): when the dependency table is
    sound, [compute] returns for a computed field exactly the value a full
    [update_computedfields] pass stores in it.  Sound means: the requested
    field and the fields recomputed on the way to it read none of the fields
    that are skipped. *)
Theorem compute_agrees_with_update_computedfields (r : Resolver) (s : Frame)
    (entry : MroEntry) cfs (pre suf : list string) (f : string) :
  _local_mro r !! imodel (self s) = Some entry →
  _computed_models r !! imodel (self s) = Some cfs →
  base entry = pre ++ f :: suf →
  NoDup (base entry) →
  (∀ g, g ∈ base entry → is_Some (cfs !! g)) →
  has_attrs (self s) pre →
  (∀ g cg, g ∈ f :: pre → cfs !! g = Some cg →
     g ∉ off_path entry (Z.shiftl 1 (Z.of_nat (length pre))) pre →
     ignores (func cg)
             (off_path entry (Z.shiftl 1 (Z.of_nat (length pre))) pre)) →
  ∃ v, (compute r f s).1 = inr v ∧
       iattrs (self (update_computedfields r None s).2) !! f = Some v.
Proof.
  intros Hentry Hcfs Hbase Hnd Hdef Hattrs Hsound.
  set (pos := Z.shiftl 1 (Z.of_nat (length pre))) in *.
  assert ((f ∉ pre) ∧ (f ∉ suf)) as [Hpre Hsuf].
  { rewrite Hbase in Hnd. apply NoDup_app in Hnd as (_ & Hdisj & Hnd).
    apply NoDup_cons in Hnd as [Hsuf _]. split; [|done].
    intros Hin. apply (Hdisj f Hin). left. }
  destruct (Hdef f) as [cf Hcf]; [rewrite Hbase; set_solver|].
  assert (f ∉ off_path entry pos pre) as HfU.
  { intros Hin. apply list_elem_of_filter in Hin as [_ Hin]. done. }
  exists (func cf (assign_in_order cfs (self s) pre)). split.
  - unfold compute. unfold get_local_mro. rewrite Hentry. cbn beta iota zeta.
    rewrite bool_decide_eq_false_2; [|rewrite Hbase; set_solver].
    rewrite Hbase, index_first by done. fold pos.
    edestruct (compute_loop_simulates r (imodel (self s)) entry pos f cfs cf
                 (off_path entry pos pre) suf Hcfs Hcf) as [s' ->].
    + apply (Hsound f cf); [left|done|done].
    + exact Hpre.
    + reflexivity.
    + done.
    + intros g Hg Hbit. split; [by apply Hattrs|].
      destruct (Hdef g) as [cg Hcg]; [rewrite Hbase; set_solver|].
      exists cg. split; [done|]. apply (Hsound g cg); [by right|done|].
      intros Hin. apply list_elem_of_filter in Hin as [Hz _]. done.
    + intros g Hg Hz. by apply list_elem_of_filter.
    + done.
  - rewrite (update_computedfields_run r None s cfs Hcfs).
    + cbn [snd self]. unfold get_local_mro. rewrite Hentry, Hbase.
      rewrite assign_in_order_app.
      change (f :: suf) with ([f] ++ suf). rewrite assign_in_order_app.
      rewrite assign_in_order_frame by done.
      unfold assign_in_order at 1. cbn [foldl]. rewrite Hcf.
      cbn [iattrs with_attr]. by rewrite lookup_insert_eq.
    + intros g Hg. apply Hdef. unfold get_local_mro in Hg.
      by rewrite Hentry in Hg.
Qed.

Lemma compute_agrees_with_update_computedfields_witness :
  ∃ v, (compute example_resolver "b" (fresh (item 1 0 0))).1 = inr v ∧
       iattrs (self (update_computedfields example_resolver None
                       (fresh (item 1 0 0))).2) !! "b" = Some v.
Proof.
  apply (compute_agrees_with_update_computedfields example_resolver
           (fresh (item 1 0 0)) item_mro item_funcs ["a"] [] "b").
  - reflexivity.
  - reflexivity.
  - reflexivity.
  - apply (bool_decide_unpack _). vm_compute. exact I.
  - intros g Hg. apply (bool_decide_unpack _).
    apply elem_of_cons in Hg as [->|Hg]; [vm_compute; exact I|].
    apply list_elem_of_singleton in Hg as ->. vm_compute. exact I.
  - intros g Hg. apply list_elem_of_singleton in Hg as ->.
    apply (bool_decide_unpack _). vm_compute. exact I.
  - intros g cg _ _ _.
    replace (off_path item_mro (Z.shiftl 1 (Z.of_nat (length ["a"]))) ["a"])
      with (@nil string) by (vm_compute; reflexivity).
    apply ignores_nothing.
Defined.

(** ** [fast_update]: field lookup, batches and unsupported backends *)

Section fast_update_facts.
Context `{dj : Django}.

Lemma get_field_unknown (model : Model) (f : string) :
  f ∉ name <$> get_fields (_meta model) →
  get_field model f = inl (FieldDoesNotExist f).
Proof.
  intros Hf. unfold get_field.
  destruct (list_find _ _) as [[i fld]|] eqn:Hfind; [|done].
  apply list_find_Some in Hfind as (Hi & Hname & _).
  exfalso. apply Hf. apply list_elem_of_fmap. exists fld. split; [done|].
  by eapply list_elem_of_lookup_2.
Qed.

Lemma get_field_error (model : Model) (f : string) (e : exn) :
  get_field model f = inl e → e = FieldDoesNotExist f.
Proof.
  unfold get_field. destruct (list_find _ _) as [[i fld]|]; [done|].
  by intros [= <-].
Qed.

Lemma split_fieldnames_unknown (model : Model) (fieldnames : list string)
    (f : string) :
  f ∈ fieldnames → f ∉ name <$> get_fields (_meta model) →
  ∀ non_local_fieldnames local_fieldnames,
    ∃ g, g ∈ fieldnames ∧ (g ∉ name <$> get_fields (_meta model)) ∧
         split_fieldnames model fieldnames non_local_fieldnames
                          local_fieldnames
         = inl (FieldDoesNotExist g).
Proof.
  intros Hin Hf.
  induction fieldnames as [|h fieldnames IH]; intros nl l.
  - by apply elem_of_nil in Hin.
  - simpl. destruct (get_field model h) as [e|fld] eqn:Hget.
    + exists h. split; [left|]. split.
      * intros Hh. unfold get_field in Hget.
        destruct (list_find _ _) as [[i x]|] eqn:Hfind; [done|].
        apply list_find_None in Hfind.
        apply list_elem_of_fmap in Hh as (x & -> & Hx).
        by eapply (proj1 (Forall_forall _ _) Hfind x).
      * by rewrite (get_field_error _ _ _ Hget).
    + apply elem_of_cons in Hin as [->|Hin].
      { by rewrite get_field_unknown in Hget. }
      case_bool_decide.
      * destruct (IH Hin (nl ++ [h]) l) as (g & Hg & Hgn & ->).
        exists g. split; [by right|done].
      * destruct (IH Hin nl (l ++ [h])) as (g & Hg & Hgn & ->).
        exists g. split; [by right|done].
Qed.

(** X4 (fast_update): a name that is no field of the model makes the call
    raise [FieldDoesNotExist] for such a name before anything reaches the
    database: the world is as it was. *)
Theorem fast_update_unknown_field (model : Model) (objs : list Instance)
    (fieldnames : list string) (batch_size : Z) (w : World) (f : string) :
  f ∈ fieldnames → f ∉ name <$> get_fields (_meta model) →
  ∃ g, g ∈ fieldnames ∧ (g ∉ name <$> get_fields (_meta model)) ∧
       fast_update model objs fieldnames batch_size w
       = (inl (FieldDoesNotExist g), w).
Proof.
  intros Hin Hf.
  destruct (split_fieldnames_unknown model fieldnames f Hin Hf [] [])
    as (g & Hg & Hgn & Hsplit).
  exists g. split; [done|]. split; [done|].
  unfold fast_update, bind, lift. by rewrite Hsplit.
Qed.

Lemma row_values_length (o : Instance) (flds : list Field) (vs : list Value) :
  row_values o flds = inr vs → length vs = length flds.
Proof.
  revert vs. induction flds as [|fld flds IH]; intros vs; simpl.
  - by intros [= <-].
  - destruct (attr o (attname fld)); [done|].
    destruct (row_values o flds) as [|vs']; [done|].
    intros [= <-]. simpl. by rewrite (IH vs').
Qed.

Lemma make_batches_spec (pk_field : Field) (flds : list Field)
    (batch_size : Z) (objs : list Instance) :
  ∀ (counter : Z) (data : list Value) (batches result : list (Z * list Value)),
    0 ≤ counter < Z.max 1 batch_size →
    Z.of_nat (length data) = counter * (1 + Z.of_nat (length flds)) →
    make_batches pk_field flds batch_size objs counter data batches
      = inr result →
    ∃ rows new,
      Forall2 (λ o row, row_values o (pk_field :: flds) = inr row) objs rows ∧
      result = batches ++ new ∧
      concat new.*2 = data ++ concat rows ∧
      foldr Z.add 0 new.*1 = counter + Z.of_nat (length objs) ∧
      Forall (λ b, 0 < b.1 ≤ Z.max 1 batch_size ∧
                   Z.of_nat (length b.2)
                   = b.1 * (1 + Z.of_nat (length flds))) new ∧
      (∀ i b, new !! i = Some b → (S i < length new)%nat →
              b.1 = Z.max 1 batch_size).
Proof.
  induction objs as [|o objs IH]; intros counter data batches result Hc Hd Hrun.
  - simpl in Hrun. inversion Hrun; subst result. exists [].
    case_bool_decide as Hdata.
    + exists [(counter, data)]. split_and!.
      * constructor.
      * done.
      * done.
      * simpl. lia.
      * apply Forall_singleton. simpl. split; [|done].
        destruct data; [done|]. simpl in Hd. nia.
      * intros [|i] b Hb Hlen; simpl in Hlen; lia.
    + assert (data = []) as ->.
      { destruct (decide (data = [])) as [Hz|Hz]; [exact Hz|exfalso; tauto]. }
      exists []. split_and!.
      * constructor.
      * by rewrite app_nil_r.
      * done.
      * simpl in *. nia.
      * constructor.
      * intros i b Hb. by rewrite lookup_nil in Hb.
  - cbn [make_batches] in Hrun.
    destruct (row_values o (pk_field :: flds)) as [e|sub] eqn:Hrow; [done|].
    pose proof (row_values_length _ _ _ Hrow) as Hsub. simpl in Hsub.
    case_bool_decide as Hfull.
    + apply IH in Hrun as (rows & new & Hrows & -> & Hcat & Hsum & Hall & Hlast);
        [|lia|simpl; lia].
      exists (sub :: rows), ((counter + 1, data ++ sub) :: new). split_and!.
      * by constructor.
      * by rewrite <- app_assoc.
      * change (concat ((counter + 1, data ++ sub) :: new).*2)
          with ((data ++ sub) ++ concat new.*2).
        rewrite Hcat. simpl. by rewrite <- app_assoc.
      * change (foldr Z.add 0 ((counter + 1, data ++ sub) :: new).*1)
          with (counter + 1 + foldr Z.add 0 new.*1).
        rewrite Hsum. simpl length. lia.
      * constructor; [|done]. simpl. split; [lia|].
        rewrite length_app, Hsub. lia.
      * intros [|i] b Hb Hlen; simpl in Hb.
        -- inversion Hb; subst b. simpl. lia.
        -- apply (Hlast i b Hb). simpl in Hlen. lia.
    + apply IH in Hrun as (rows & new & Hrows & -> & Hcat & Hsum & Hall & Hlast);
        [|lia|rewrite length_app, Hsub; lia].
      exists (sub :: rows), new. split_and!.
      * by constructor.
      * done.
      * rewrite Hcat. simpl. by rewrite <- app_assoc.
      * rewrite Hsum. simpl length. lia.
      * done.
      * done.
Qed.

(** X5 (fast_update): the batches hold the value rows of the objects, in
    the order of the objects and with nothing lost or repeated; the record
    counts add up to the number of objects, and each batch carries one row
    of [1 + len(fields)] values per counted record. *)
Theorem make_batches_partition (pk_field : Field) (flds : list Field)
    (batch_size : Z) (objs : list Instance)
    (batches : list (Z * list Value)) :
  make_batches pk_field flds batch_size objs 0 [] [] = inr batches →
  ∃ rows,
    Forall2 (λ o row, row_values o (pk_field :: flds) = inr row) objs rows ∧
    concat batches.*2 = concat rows ∧
    foldr Z.add 0 batches.*1 = Z.of_nat (length objs) ∧
    Forall (λ b, 0 < b.1 ∧
                 Z.of_nat (length b.2) = b.1 * (1 + Z.of_nat (length flds)))
           batches.
Proof.
  intros Hrun.
  apply make_batches_spec in Hrun
    as (rows & new & Hrows & -> & Hcat & Hsum & Hall & _); [|lia|done].
  exists rows. split_and!; try done.
  eapply Forall_impl; [exact Hall|]. intros b [[? _] ?]. done.
Qed.

(** X6 (fast_update): no batch holds more than [max(1, batch_size)]
    records and every batch but the last holds exactly that many; a
    [batch_size] of zero or less therefore gives one batch per object
    rather than an error. *)
Theorem make_batches_sizes (pk_field : Field) (flds : list Field)
    (batch_size : Z) (objs : list Instance)
    (batches : list (Z * list Value)) :
  make_batches pk_field flds batch_size objs 0 [] [] = inr batches →
  Forall (λ b, 0 < b.1 ≤ Z.max 1 batch_size) batches ∧
  ∀ i b, batches !! i = Some b → (S i < length batches)%nat →
         b.1 = Z.max 1 batch_size.
Proof.
  intros Hrun.
  apply make_batches_spec in Hrun
    as (rows & new & Hrows & -> & Hcat & Hsum & Hall & Hlast); [|lia|done].
  split; [|exact Hlast].
  eapply Forall_impl; [exact Hall|]. intros b [? _]. done.
Qed.

End fast_update_facts.

Lemma fast_update_unknown_field_witness :
  ∃ g, g ∈ ["a"; "nope"] ∧
       (g ∉ name <$> get_fields (@_meta sqlite_django "Item")) ∧
       @fast_update sqlite_django "Item" [item_row 1 1 0 0] ["a"; "nope"] 10
                    (sqlite_world [item_row 1 1 0 0])
       = (inl (FieldDoesNotExist g), sqlite_world [item_row 1 1 0 0]).
Proof.
  apply (@fast_update_unknown_field sqlite_django "Item" [item_row 1 1 0 0]
           ["a"; "nope"] 10 (sqlite_world [item_row 1 1 0 0]) "nope").
  - apply (bool_decide_unpack _). vm_compute. exact I.
  - apply (bool_decide_unpack _). vm_compute. exact I.
Defined.

Lemma make_batches_partition_witness :
  ∃ rows,
    Forall2 (λ o row, @row_values sqlite_django o
                        (plain_field "id" :: [plain_field "a"]) = inr row)
            [item_row 1 1 2 0; item_row 2 1 3 0; item_row 3 1 4 0] rows ∧
    concat [(2, [VInt 1; VInt 2; VInt 2; VInt 3]); (1, [VInt 3; VInt 4])].*2
      = concat rows ∧
    foldr Z.add 0
      [(2, [VInt 1; VInt 2; VInt 2; VInt 3]); (1, [VInt 3; VInt 4])].*1
      = Z.of_nat 3 ∧
    Forall (λ b : Z * list Value,
              0 < b.1 ∧ Z.of_nat (length b.2) = b.1 * (1 + Z.of_nat 1))
           [(2, [VInt 1; VInt 2; VInt 2; VInt 3]); (1, [VInt 3; VInt 4])].
Proof.
  apply (@make_batches_partition sqlite_django (plain_field "id")
           [plain_field "a"] 2
           [item_row 1 1 2 0; item_row 2 1 3 0; item_row 3 1 4 0]).
  vm_compute. reflexivity.
Defined.

Lemma make_batches_sizes_witness :
  Forall (λ b : Z * list Value, 0 < b.1 ≤ Z.max 1 0)
         [(1, [VInt 1; VInt 2]); (1, [VInt 2; VInt 3])] ∧
  ∀ i b, [(1, [VInt 1; VInt 2]); (1, [VInt 2; VInt 3])] !! i = Some b →
         (S i < length [(1, [VInt 1; VInt 2]); (1, [VInt 2; VInt 3])])%nat →
         b.1 = Z.max 1 0.
Proof.
  apply (@make_batches_sizes sqlite_django (plain_field "id")
           [plain_field "a"] 0 [item_row 1 1 2 0; item_row 2 1 3 0]).
  vm_compute. reflexivity.
Defined.

(** ** Backends: fallback, vendor cache and support check *)

Section backend_facts.
Context `{dj : Django}.

Lemma objects_bulk_update_trace model objs fieldnames batch_size
    (w : World) res w' :
  objects_bulk_update model objs fieldnames batch_size w = (res, w') →
  trace w' = trace w ++ [EvBulkUpdate model objs fieldnames batch_size].
Proof.
  unfold objects_bulk_update, bind, emit. simpl.
  destruct (bulk_update _ _ _ _ _) as [r d]. by intros [= <- <-].
Qed.

Lemma QUERY_get_unsupported (vendor : string) :
  vendor ∉ ["sqlite"; "postgresql"; "mysql"; "mysql8"] →
  QUERY_get vendor = as_dummy.
Proof.
  intros Hv. unfold QUERY_get.
  rewrite !bool_decide_eq_false_2; [done|..]; intros ->; apply Hv;
    set_solver.
Qed.

Lemma flush_batches_unsupported model objs fieldnames batch_size tablename
    pk_field flds vendor sql last_counter
    (batches : list (Z * list Value)) (w : World) res w' :
  QUERY_get vendor = as_dummy →
  (∀ cd, cd ∈ batches → cd.1 ≠ last_counter) →
  flush_batches model objs fieldnames batch_size tablename pk_field flds
                vendor sql last_counter batches w = (res, w') →
  (batches = [] ∧ res = inr false ∧ w' = w) ∨
  (∃ counter, res ≠ inr false ∧
     trace w' = trace w ++ [EvBuildSql vendor counter;
                            EvBulkUpdate model objs fieldnames
                                         (Some batch_size)]).
Proof.
  intros Hq Hne Hrun. destruct batches as [|[counter data] batches].
  - left. simpl in Hrun. by inversion Hrun.
  - right. exists counter. cbn [flush_batches] in Hrun.
    rewrite bool_decide_eq_true_2 in Hrun
      by (apply (Hne (counter, data)); left).
    rewrite Hq in Hrun. unfold as_dummy in Hrun.
    rewrite bool_decide_eq_true_2 in Hrun by done.
    unfold bind at 1 in Hrun. unfold emit at 1 in Hrun.
    unfold bind at 1 in Hrun.
    destruct (objects_bulk_update _ _ _ _ _) as [[e|[]] w1] eqn:Hbulk;
      apply objects_bulk_update_trace in Hbulk; simpl in Hbulk;
      inversion Hrun; subst; (split; [done|]);
      by rewrite Hbulk, <- app_assoc.
Qed.

(** X7 (fast_update): on a backend without a statement builder the call
    never executes a statement of its own; whatever it writes goes through
    a single [bulk_update] of the given objects. *)
Theorem fast_update_unsupported_vendor (model : Model) (objs : list Instance)
    (fieldnames : list string) (batch_size : Z) (w : World) res w' :
  vendor connection ∉ ["sqlite"; "postgresql"; "mysql"; "mysql8"] →
  fast_update model objs fieldnames batch_size w = (res, w') →
  ∃ new, trace w' = trace w ++ new ∧
    (filter (λ e, is_write e = true) new = [] ∨
     ∃ names, filter (λ e, is_write e = true) new
              = [EvBulkUpdate model objs names (Some batch_size)]).
Proof.
  intros Hv Hrun. unfold fast_update in Hrun.
  unfold bind at 1 in Hrun. unfold lift at 1 in Hrun.
  destruct (split_fieldnames model fieldnames [] []) as [e|[nl l]];
    [inversion Hrun; subst; exists []; split; [by rewrite app_nil_r|by left]|].
  cbn [fst snd] in Hrun.
  destruct (bool_decide (nl ≠ []) && bool_decide (length l < 2)%nat).
  { apply objects_bulk_update_trace in Hrun. eexists. split; [done|].
    right. by eexists. }
  unfold bind at 1 in Hrun.
  destruct (bool_decide (l ≠ [])).
  - unfold fast_update_local in Hrun.
    destruct (pk (_meta model)) as [pk_field|].
    + unfold bind at 1 in Hrun. unfold lift at 1 in Hrun.
      destruct (get_all_fields model l) as [e|flds];
        [inversion Hrun; subst; exists []; split;
           [by rewrite app_nil_r|by left]|].
      unfold bind at 1 in Hrun. unfold lift at 1 in Hrun.
      destruct (make_batches pk_field flds batch_size objs 0 [] [])
        as [e|batches] eqn:Hbatches;
        [inversion Hrun; subst; exists []; split;
           [by rewrite app_nil_r|by left]|].
      rewrite bool_decide_eq_false_2 in Hrun
        by (intros Heq; apply Hv; rewrite Heq; set_solver).
      unfold bind at 1 in Hrun. unfold ret at 1 in Hrun.
      assert (∀ cd, cd ∈ batches → cd.1 ≠ -1) as Hcnt.
      { intros cd Hcd.
        assert (0 < cd.1); [|lia].
        refine (make_batches_counters _ _ _ _ 0 [] [] batches _ _ _
                  Hbatches cd Hcd); [lia|set_solver|done]. }
      pose proof (QUERY_get_unsupported _ Hv) as Hq.
      destruct (flush_batches _ _ _ _ _ _ _ _ _ _ _ w)
        as [[e|returned] w1] eqn:Hflush.
      * inversion Hrun; subst.
        apply (flush_batches_unsupported _ _ _ _ _ _ _ _ _ _ _ _ _ _ Hq Hcnt)
          in Hflush as [(_ & Hres & _)|(c & _ & Ht)]; [done|].
        eexists. split; [exact Ht|]. right. by eexists.
      * apply (flush_batches_unsupported _ _ _ _ _ _ _ _ _ _ _ _ _ _ Hq Hcnt)
          in Hflush as [(_ & Hres & ->)|(c & Hret & Ht)].
        -- inversion Hres; subst returned.
           destruct (bool_decide (nl ≠ [])).
           ++ apply objects_bulk_update_trace in Hrun. eexists.
              split; [done|]. right. by eexists.
           ++ inversion Hrun; subst. exists [].
              split; [by rewrite app_nil_r|by left].
        -- destruct returned; [|done]. inversion Hrun; subst.
           eexists. split; [exact Ht|]. right. by eexists.
    + unfold bind at 1 in Hrun.
      destruct (objects_bulk_update _ _ _ _ w) as [[e|[]] w1] eqn:Hbulk;
        apply objects_bulk_update_trace in Hbulk; inversion Hrun; subst;
        (eexists; split; [exact Hbulk|]; right; by eexists).
  - unfold ret at 1 in Hrun.
    destruct (bool_decide (nl ≠ [])).
    + apply objects_bulk_update_trace in Hrun. eexists.
      split; [done|]. right. by eexists.
    + inversion Hrun; subst. exists [].
      split; [by rewrite app_nil_r|by left].
Qed.

Lemma _adjust_mysql_spec (conn : Connection) (w : World) res w' :
  _adjust_mysql conn w = (res, w') →
  ∃ v, res = inr v ∧
       CONNECTION_HASHES w' !! connection_hash conn = Some v ∧
       _adjust_mysql conn w' = (inr v, w') ∧
       (CONNECTION_HASHES w !! connection_hash conn = Some v ∨
        v ∈ ["mysql"; "mysql8"; EmptyString]).
Proof.
  unfold _adjust_mysql at 1.
  destruct (CONNECTION_HASHES w !! connection_hash conn) as [v|] eqn:Hc.
  - intros [= <- <-]. exists v. split_and!; [done|done| |by left].
    unfold _adjust_mysql. by rewrite Hc.
  - destruct (accepts_values_table conn); [|destruct (accepts_values_row conn)];
      intros [= <- <-]; eexists; (split; [done|]);
      (split; [simpl; by rewrite lookup_insert_eq|]);
      (split; [unfold _adjust_mysql; simpl; by rewrite lookup_insert_eq|]);
      right; set_solver.
Qed.

(** X8 (_adjust_mysql): the probes run at most once per connection: after
    any call the answer is in the cache, and a further call returns that
    answer and changes nothing, so the fallback warning is not repeated. *)
Theorem _adjust_mysql_remembers (conn : Connection) (w : World) res w' :
  _adjust_mysql conn w = (res, w') →
  ∃ v, res = inr v ∧
       CONNECTION_HASHES w' !! connection_hash conn = Some v ∧
       _adjust_mysql conn w' = (inr v, w').
Proof.
  intros Hrun. apply _adjust_mysql_spec in Hrun as (v & ? & ? & ? & _).
  by exists v.
Qed.

(** X9 (bulk_updater): the lazy decision on [use_fastupdate] is taken
    once.  The step always succeeds and leaves a decision behind; running
    it again changes nothing, so the batch size is raised at most once. *)
Theorem settle_fastupdate_once (w : World) res w' :
  settle_fastupdate w = (res, w') →
  res = inr tt ∧ is_Some (use_fastupdate w') ∧
  settle_fastupdate w' = (inr tt, w').
Proof.
  unfold settle_fastupdate at 1.
  destruct (use_fastupdate w) as [b|] eqn:Hb.
  - intros [= <- <-]. split; [done|]. split; [by rewrite Hb|].
    unfold settle_fastupdate. by rewrite Hb.
  - intros Hrun.
    assert (∃ supported w1,
      (if COMPUTEDFIELDS_FASTUPDATE then check_support else ret false) w
      = (inr supported, w1)) as (supported & w1 & Hsup).
    { destruct COMPUTEDFIELDS_FASTUPDATE; [|by eexists _, _].
      unfold check_support.
      destruct (bool_decide (vendor connection = "postgresql"));
        [by eexists _, _|].
      destruct (bool_decide (vendor connection = "sqlite")).
      { destruct (sqlite_version_info connection) as [[major minor] ?].
        by eexists _, _. }
      destruct (bool_decide (vendor connection = "mysql"));
        [|by eexists _, _].
      unfold bind.
      destruct (_adjust_mysql connection w) as [r0 w0] eqn:Hadj.
      apply _adjust_mysql_spec in Hadj as (v & -> & _).
      by eexists _, _. }
    unfold bind at 1 in Hrun. rewrite Hsup in Hrun.
    unfold bind at 1 in Hrun. unfold set_use_fastupdate at 1 in Hrun.
    destruct supported; inversion Hrun; subst; (split; [done|]);
      (split; [by eexists|]); by unfold settle_fastupdate.
Qed.


End backend_facts.

Lemma fast_update_unsupported_vendor_witness :
  let w := toy_world oracle_connection true [item_row 1 1 0 0] in
  let run := @fast_update (toy_django oracle_connection true) "Item"
               [item_row 1 1 2 0] ["a"] 10 w in
  ∃ new, trace run.2 = trace w ++ new ∧
    (filter (λ e, is_write e = true) new = [] ∨
     ∃ names, filter (λ e, is_write e = true) new
              = [EvBulkUpdate "Item" [item_row 1 1 2 0] names (Some 10)]).
Proof.
  intros w run.
  apply (@fast_update_unsupported_vendor (toy_django oracle_connection true)
           "Item" [item_row 1 1 2 0] ["a"] 10 w run.1 run.2).
  - apply (bool_decide_unpack _). vm_compute. exact I.
  - apply surjective_pairing.
Defined.

Lemma _adjust_mysql_remembers_witness :
  let conn := mysql_connection false false in
  let w := toy_world conn true [] in
  let run := @_adjust_mysql (toy_django conn true) conn w in
  ∃ v, run.1 = inr v ∧
       CONNECTION_HASHES run.2 !! connection_hash conn = Some v ∧
       @_adjust_mysql (toy_django conn true) conn run.2 = (inr v, run.2).
Proof.
  intros conn w run.
  apply (@_adjust_mysql_remembers (toy_django conn true) conn w run.1 run.2).
  apply surjective_pairing.
Defined.

Lemma settle_fastupdate_once_witness :
  let run := @settle_fastupdate sqlite_django (sqlite_world []) in
  run.1 = inr tt ∧ is_Some (use_fastupdate run.2) ∧
  @settle_fastupdate sqlite_django run.2 = (inr tt, run.2).
Proof.
  intros run.
  apply (@settle_fastupdate_once sqlite_django (sqlite_world []) run.1 run.2).
  apply surjective_pairing.
Defined.


(** ** Dependent querysets *)

Lemma merge_update_keys
    (model_updates : list (Model * (gset string * gset string)))
    (model : Model) (fields paths : gset string) :
  (merge_update model_updates model fields paths).*1
  = if bool_decide (model ∈ model_updates.*1) then model_updates.*1
    else model_updates.*1 ++ [model].
Proof.
  induction model_updates as [|[m [mf mp]] rest IH]; [done|].
  cbn [merge_update]. destruct (decide (m = model)) as [->|Hm].
  - rewrite (bool_decide_eq_true_2 (model = model)) by done.
    rewrite bool_decide_eq_true_2; [done|]. left.
  - rewrite (bool_decide_eq_false_2 (m = model)) by done.
    rewrite !fmap_cons. cbn [fst]. rewrite IH.
    destruct (decide (model ∈ rest.*1)) as [Hin|Hin].
    + rewrite !bool_decide_eq_true_2; [done|by right|done].
    + rewrite !bool_decide_eq_false_2; [done| |done].
      intros [?|?]%elem_of_cons; [congruence|done].
Qed.

Lemma merge_update_NoDup
    (model_updates : list (Model * (gset string * gset string)))
    (model : Model) (fields paths : gset string) :
  NoDup model_updates.*1 →
  NoDup (merge_update model_updates model fields paths).*1.
Proof.
  intros Hnd. rewrite merge_update_keys. case_bool_decide as Hin; [done|].
  apply NoDup_app. split_and!; [done| |apply NoDup_singleton].
  intros x Hx Hx'. apply list_elem_of_singleton in Hx' as ->. done.
Qed.

Lemma model_updates_NoDup
    (modeldata : gmap string (list (Model * (gset string * gset string))))
    (updates : list string) :
  ∀ model_updates,
    NoDup model_updates.*1 →
    NoDup (foldl (λ model_updates update,
                    foldl (λ model_updates entry,
                             merge_update model_updates entry.1
                                          entry.2.1 entry.2.2)
                          model_updates (default [] (modeldata !! update)))
                 model_updates updates).*1.
Proof.
  induction updates as [|update updates IH]; intros mu Hnd; [done|].
  cbn [foldl]. apply IH.
  generalize (default [] (modeldata !! update)). intros entries.
  revert mu Hnd. induction entries as [|entry entries IHe]; intros mu Hnd;
    [done|].
  cbn [foldl]. apply IHe. by apply merge_update_NoDup.
Qed.

Section queryset_facts.
Context `{dj : Django}.

Lemma collect_final_spec
    (model_updates : list (Model * (gset string * gset string)))
    (subquery : string) (instance : Source) (pk_list : bool)
    (w : World) res w' :
  collect_final model_updates subquery instance pk_list w = (res, w') →
  w' = w ∧
  ∀ final, res = inr final →
    sublist final.*1 model_updates.*1 ∧
    (pk_list = true →
     Forall (λ entry, ∃ pks, entry.2.1 = TPks pks ∧ pks ≠ ∅) final).
Proof.
  revert res w'.
  induction model_updates as [|[m [flds paths]] rest IH]; intros res w' Hrun.
  - simpl in Hrun. inversion Hrun; subst. split; [done|].
    intros final [= <-]. split; [done|]. intros _. constructor.
  - cbn [collect_final] in Hrun.
    specialize (IH (collect_final rest subquery instance pk_list w).1
                   (collect_final rest subquery instance pk_list w).2
                   (surjective_pairing _)).
    destruct pk_list.
    + unfold bind at 1 in Hrun. unfold fetch at 1 in Hrun.
      unfold bind at 1 in Hrun. unfold lift at 1 in Hrun.
      destruct (instance_pks _) as [e|pks] eqn:Hpks;
        [by inversion Hrun|].
      unfold bind at 1 in Hrun.
      destruct (collect_final rest subquery instance true w)
        as [[e|final0] w0]; cbn [fst snd] in IH; destruct IH as [-> Hfinal].
      * by inversion Hrun.
      * destruct (Hfinal final0 eq_refl) as [Hsub Hpk].
        inversion Hrun; subst. split; [done|].
        intros final [= <-]. case_bool_decide as Hempty.
        -- split; [by apply sublist_cons|done].
        -- split; [by apply sublist_skip|]. intros _.
           constructor; [|by apply Hpk]. simpl. eexists. split; [done|].
           destruct pks as [|pk0 pks]; [done|].
           rewrite list_to_set_cons. intros Hset.
           apply (not_elem_of_empty (C := gset Value) pk0).
           rewrite <- Hset. apply elem_of_union_l. by apply elem_of_singleton.
    + unfold bind at 1 in Hrun.
      destruct (collect_final rest subquery instance false w)
        as [[e|final0] w0]; cbn [fst snd] in IH; destruct IH as [-> Hfinal].
      * by inversion Hrun.
      * destruct (Hfinal final0 eq_refl) as [Hsub _].
        inversion Hrun; subst. split; [done|].
        intros final [= <-]. split; [by apply sublist_skip|done].
Qed.

(** X11 (_querysets_for_update): the result is keyed by model: however
    many changed fields lead to the same dependent model, the model comes
    up once. *)
Theorem _querysets_for_update_one_entry_per_model (r : Resolver)
    (model : Model) (instance : Source) (update_fields : option Fields)
    (pk_list : bool) (w : World) final w' :
  _querysets_for_update r model instance update_fields pk_list w
    = (inr final, w') →
  NoDup final.*1.
Proof.
  unfold _querysets_for_update. intros Hrun.
  destruct (_map r !! model) as [modeldata|];
    [|inversion Hrun; subst; constructor].
  case_bool_decide; [inversion Hrun; subst; constructor|].
  apply collect_final_spec in Hrun as [_ Hfinal].
  destruct (Hfinal final eq_refl) as [Hsub _].
  refine (sublist_NoDup _ _ _ Hsub).
  apply model_updates_NoDup. constructor.
Qed.

(** X12 (preupdate_dependent): the call only reads.  The world is left as
    it was, and every entry of the result carries a set of primary keys
    that is not empty, never a queryset. *)
Theorem preupdate_dependent_pks (r : Resolver) (instance : Source)
    (model : option Model) (update_fields : option Fields)
    (w : World) res w' :
  preupdate_dependent r instance model update_fields w = (res, w') →
  w' = w ∧
  ∀ final, res = inr final →
    Forall (λ entry, ∃ pks, entry.2.1 = TPks pks ∧ pks ≠ ∅) final.
Proof.
  unfold preupdate_dependent, _querysets_for_update. intros Hrun.
  destruct (_map r !! _) as [modeldata|].
  - case_bool_decide.
    + inversion Hrun; subst. split; [done|]. intros final [= <-].
      constructor.
    + apply collect_final_spec in Hrun as [-> Hfinal]. split; [done|].
      intros final ->. by apply (Hfinal final eq_refl).
  - inversion Hrun; subst. split; [done|]. intros final [= <-]. constructor.
Qed.

Lemma _querysets_for_update_unrelated (r : Resolver) (model : Model)
    (instance : Source) (update_fields : gset string) (pk_list : bool)
    (w : World) :
  update_fields ≠ ∅ →
  (∀ modeldata f, _map r !! model = Some modeldata →
                  f ∈ update_fields → modeldata !! f = None) →
  _querysets_for_update r model instance (Some (FSet update_fields))
                        pk_list w
  = (inr [], w).
Proof.
  intros Hne Hnone. unfold _querysets_for_update.
  destruct (_map r !! model) as [modeldata|] eqn:Hmap; [|done].
  case_bool_decide; [done|].
  cbn [truthy frozenset]. rewrite (bool_decide_eq_true_2 _ Hne).
  cbn [negb].
  assert (filter (λ fieldname, fieldname ∈ dom modeldata) update_fields
          = (∅ : gset string)) as ->.
  { apply set_eq. intros f. rewrite elem_of_filter, elem_of_dom.
    split; [|set_solver]. intros [[x Hx] Hf].
    rewrite (Hnone modeldata f eq_refl Hf) in Hx. done. }
  rewrite elements_empty. by destruct pk_list.
Qed.

(** X13 (update_dependent): when no dependency starts at any of the named
    fields, a call without the local part does nothing at all: no query,
    no transaction, no write, and the records listed in [old] are not
    looked at either. *)
Theorem update_dependent_nothing_depends (fuel : nat) (r : Resolver)
    (instance : Source) (model : option Model) (update_fields : Fields)
    (old : option (list (Model * (gset Value * gset string)))) (w : World) :
  frozenset update_fields ≠ ∅ →
  (∀ modeldata f,
     _map r !! default (_get_model instance) model = Some modeldata →
     f ∈ frozenset update_fields → modeldata !! f = None) →
  update_dependent (S fuel) r instance model (Some update_fields) old false w
  = (inr tt, w).
Proof.
  intros Hne Hnone. cbn [update_dependent andb fmap option_fmap option_map].
  unfold bind at 1. unfold ret at 1.
  unfold bind at 1. cbn beta iota. cbn [fmap option_fmap option_map].
  rewrite (_querysets_for_update_unrelated r _ instance _ false w Hne Hnone).
  by rewrite bool_decide_eq_false_2 by (intros Hx; by apply Hx).
Qed.

End queryset_facts.

Lemma _querysets_for_update_one_entry_per_model_witness :
  let run := @_querysets_for_update sqlite_django (dependent_resolver "Dep")
               "Item" (SrcInstance (item_row 1 1 0 0)) None false
               (sqlite_world []) in
  ∃ final, run.1 = inr final ∧ NoDup final.*1.
Proof.
  intros run.
  destruct (@_querysets_for_update_lazy sqlite_django (dependent_resolver "Dep")
              "Item" (SrcInstance (item_row 1 1 0 0)) None (sqlite_world []))
    as [final Hfinal].
  exists final. split; [unfold run; by rewrite Hfinal|].
  exact (@_querysets_for_update_one_entry_per_model sqlite_django
           (dependent_resolver "Dep") "Item" (SrcInstance (item_row 1 1 0 0))
           None false (sqlite_world []) final _ Hfinal).
Defined.

Lemma preupdate_dependent_pks_witness :
  let w := sqlite_world [item_row 1 1 0 0; dependent_row "Dep" 7 1 0] in
  let run := @preupdate_dependent sqlite_django (dependent_resolver "Dep")
               (SrcInstance (item_row 1 1 0 0)) None None w in
  run.2 = w ∧
  ∀ final, run.1 = inr final →
    Forall (λ entry, ∃ pks, entry.2.1 = TPks pks ∧ pks ≠ ∅) final.
Proof.
  intros w run.
  apply (@preupdate_dependent_pks sqlite_django (dependent_resolver "Dep")
           (SrcInstance (item_row 1 1 0 0)) None None w run.1 run.2).
  apply surjective_pairing.
Defined.

Lemma update_dependent_nothing_depends_witness :
  let w := sqlite_world [item_row 1 1 0 0; dependent_row "Dep" 7 1 0] in
  @update_dependent sqlite_django 1 (dependent_resolver "Dep")
    (SrcInstance (item_row 1 1 0 0)) None (Some (FList ["x"]))
    (Some [("Dep", ({[VInt 7]}, {["c"]}))]) false w
  = (inr tt, w).
Proof.
  intros w.
  apply (@update_dependent_nothing_depends sqlite_django 0
           (dependent_resolver "Dep") (SrcInstance (item_row 1 1 0 0)) None
           (FList ["x"]) (Some [("Dep", ({[VInt 7]}, {["c"]}))]) w).
  - apply (bool_decide_unpack _). vm_compute. exact I.
  - intros modeldata f Hmap Hf.
    change (_map (dependent_resolver "Dep") !! "Item" = Some modeldata)
      in Hmap.
    unfold dependent_resolver in Hmap. cbn [_map] in Hmap.
    rewrite lookup_insert_eq in Hmap. injection Hmap as <-.
    apply elem_of_list_to_set, list_elem_of_singleton in Hf as ->.
    rewrite lookup_insert_ne by done. apply lookup_empty.
Defined.

(** ** Batch sizes of [bulk_updater] *)

Section keeps.
Context `{dj : Django} {X : Type} (f : World → X).

Lemma keeps_ret {A} (a : A) : keeps f (ret a).
Proof. intros w res w' Hrun. by inversion Hrun. Qed.

Lemma keeps_lift {A} (x : exn + A) : keeps f (lift x).
Proof. intros w res w' Hrun. by inversion Hrun. Qed.

Lemma keeps_bind {A B} (m : M World A) (k : A → M World B) :
  keeps f m → (∀ a, keeps f (k a)) → keeps f (bind m k).
Proof.
  intros Hm Hk w res w' Hrun. unfold bind in Hrun.
  destruct (m w) as [[e|a] w1] eqn:Hmw.
  - inversion Hrun; subst. by apply (Hm _ _ _ Hmw).
  - rewrite (Hk a _ _ _ Hrun). by apply (Hm _ _ _ Hmw).
Qed.

Lemma keeps_if {A} (b : bool) (m1 m2 : M World A) :
  keeps f m1 → keeps f m2 → keeps f (if b then m1 else m2).
Proof. by destruct b. Qed.

End keeps.

Section batch_facts.
Context `{dj : Django}.

Lemma keeps_batchsize_emit (e : event) : keeps _batchsize (emit e).
Proof. intros w res w' Hrun. by inversion Hrun. Qed.

Lemma keeps_batchsize_objects_bulk_update model objs fieldnames batch_size :
  keeps _batchsize (objects_bulk_update model objs fieldnames batch_size).
Proof.
  unfold objects_bulk_update. apply keeps_bind; [apply keeps_batchsize_emit|].
  intros _ w res w' Hrun. destruct (bulk_update _ _ _ _ _).
  by inversion Hrun.
Qed.

Lemma keeps_batchsize_cursor_execute sql data :
  keeps _batchsize (cursor_execute sql data).
Proof.
  unfold cursor_execute. apply keeps_bind; [apply keeps_batchsize_emit|].
  intros _ w res w' Hrun. destruct (execute _ _ _). by inversion Hrun.
Qed.

Lemma keeps_batchsize_adjust_mysql conn : keeps _batchsize (_adjust_mysql conn).
Proof.
  intros w res w' Hrun. unfold _adjust_mysql in Hrun.
  destruct (CONNECTION_HASHES w !! connection_hash conn);
    [by inversion Hrun|].
  destruct (accepts_values_table conn); [|destruct (accepts_values_row conn)];
    by inversion Hrun.
Qed.

Lemma keeps_batchsize_flush_batches model objs fieldnames batch_size tablename
    pk_field flds vendor last_counter (batches : list (Z * list Value)) :
  ∀ sql, keeps _batchsize
           (flush_batches model objs fieldnames batch_size tablename
                          pk_field flds vendor sql last_counter batches).
Proof.
  induction batches as [|[counter data] batches IH]; intros sql; simpl.
  - apply keeps_ret.
  - apply keeps_if.
    + apply keeps_bind; [apply keeps_batchsize_emit|]. intros _.
      apply keeps_if.
      * apply keeps_bind; [apply keeps_batchsize_objects_bulk_update|].
        intros _. apply keeps_ret.
      * apply keeps_bind; [apply keeps_batchsize_cursor_execute|].
        intros _. apply IH.
    + apply keeps_bind; [apply keeps_batchsize_cursor_execute|].
      intros _. apply IH.
Qed.

Lemma keeps_batchsize_fast_update model objs fieldnames batch_size :
  keeps _batchsize (fast_update model objs fieldnames batch_size).
Proof.
  unfold fast_update. apply keeps_bind; [apply keeps_lift|]. intros names.
  apply keeps_if; [apply keeps_batchsize_objects_bulk_update|].
  apply keeps_bind.
  - apply keeps_if; [|apply keeps_ret]. unfold fast_update_local.
    destruct (pk (_meta model)) as [pk_field|].
    + apply keeps_bind; [apply keeps_lift|]. intros flds.
      apply keeps_bind; [apply keeps_lift|]. intros batches.
      apply keeps_bind.
      * apply keeps_if; [apply keeps_batchsize_adjust_mysql|apply keeps_ret].
      * intros vendor. apply keeps_batchsize_flush_batches.
    + apply keeps_bind; [apply keeps_batchsize_objects_bulk_update|].
      intros _. apply keeps_ret.
  - intros returned. apply keeps_if; [apply keeps_ret|].
    apply keeps_if; [apply keeps_batchsize_objects_bulk_update|apply keeps_ret].
Qed.

Lemma keeps_batchsize_update queryset change fields :
  keeps _batchsize (_update queryset change fields).
Proof.
  unfold _update. apply keeps_bind; [apply keeps_batchsize_emit|].
  intros _ w res w' Hrun.
  destruct (use_fastupdate w) as [[|]|].
  - by apply (keeps_batchsize_fast_update _ _ _ _ _ _ _ Hrun).
  - by apply (keeps_batchsize_objects_bulk_update _ _ _ _ _ _ _ Hrun).
  - by apply (keeps_batchsize_objects_bulk_update _ _ _ _ _ _ _ Hrun).
Qed.

Lemma update_batches_update_call model change fields (new : list event) :
  Forall is_db_event new →
  update_batches (EvUpdate model change fields :: new) = [change].
Proof.
  intros Hdb.
  change (update_batches (EvUpdate model change fields :: new))
    with (change :: update_batches new).
  by rewrite update_batches_db.
Qed.

Lemma update_loop_batches (r : Resolver) queryset model mro fields :
  ∀ (elems change seen : list Instance) (w : World) res w',
    0 < _batchsize w →
    Z.of_nat (length change) < _batchsize w →
    update_loop r queryset model mro fields elems change seen w = (res, w') →
    _batchsize w' = _batchsize w ∧
    ∃ new,
      trace w' = trace w ++ new ∧
      Forall (λ batch, 0 < Z.of_nat (length batch) ≤ _batchsize w)
             (update_batches new).
Proof.
  induction elems as [|elem elems IH];
    intros change seen w res w' Hbs Hlen Hrun.
  - simpl in Hrun. unfold bind at 1 in Hrun.
    case_bool_decide as Hch.
    + destruct (_update queryset change fields w) as [r1 w1] eqn:Hu.
      pose proof (keeps_batchsize_update _ _ _ _ _ _ Hu) as Hkeep.
      apply _update_trace in Hu as (new & Ht & Hdb).
      assert (w' = w1) as -> by (destruct r1 as [e|[]]; by inversion Hrun).
      split; [done|]. eexists. split; [exact Ht|].
      rewrite update_batches_update_call by done.
      apply Forall_singleton. destruct change; [done|]. simpl length in *. lia.
    + inversion Hrun; subst. split; [done|]. exists [].
      rewrite app_nil_r. split; [done|]. constructor.
  - cbn [update_loop] in Hrun.
    destruct (recompute r model mro false {| self := elem; oplog := [] |})
      as [[e|has_changed] frame].
    { inversion Hrun; subst. split; [done|]. exists [].
      rewrite app_nil_r. split; [done|]. constructor. }
    set (change' := if has_changed then change ++ [self frame] else change)
      in *.
    assert (Z.of_nat (length change') ≤ _batchsize w) as Hlen'.
    { unfold change'. destruct has_changed; [|lia].
      rewrite length_app. simpl. lia. }
    case_bool_decide as Hfull.
    + unfold bind at 1 in Hrun.
      destruct (_update queryset change' fields w) as [r1 w1] eqn:Hu.
      pose proof (keeps_batchsize_update _ _ _ _ _ _ Hu) as Hkeep.
      apply _update_trace in Hu as (new & Ht & Hdb).
      assert (Forall (λ batch, 0 < Z.of_nat (length batch) ≤ _batchsize w)
                     (update_batches
                        (EvUpdate (qs_model queryset) change' fields :: new)))
        as Hfirst.
      { rewrite update_batches_update_call by done.
        apply Forall_singleton. lia. }
      destruct r1 as [e|[]].
      * inversion Hrun; subst. split; [done|]. eexists. by split.
      * apply IH in Hrun as (Hkeep' & new' & Ht' & Hall');
          [|rewrite Hkeep; lia|rewrite Hkeep; simpl; lia].
        split; [by rewrite Hkeep', Hkeep|].
        exists ((EvUpdate (qs_model queryset) change' fields :: new) ++ new').
        split; [by rewrite Ht', Ht, <- app_assoc|].
        rewrite update_batches_app. apply Forall_app. split; [done|].
        by rewrite Hkeep in Hall'.
    + apply IH in Hrun; [done|done|lia].
Qed.

Lemma settle_fastupdate_batchsize (w : World) res w' :
  0 < _batchsize w →
  (∀ n, COMPUTEDFIELDS_BATCHSIZE_FAST = Some n → 0 < n) →
  settle_fastupdate w = (res, w') → 0 < _batchsize w'.
Proof.
  intros Hbs Hfast.
  unfold settle_fastupdate, check_support, _adjust_mysql, bind, ret, emit,
    set_use_fastupdate, set_batchsize, set_CONNECTION_HASHES.
  destruct (sqlite_version_info connection) as [[major minor] patch].
  destruct COMPUTEDFIELDS_BATCHSIZE_FAST as [n|] eqn:Hn;
    [specialize (Hfast n eq_refl)|];
    repeat case_match; intros; simplify_eq; simpl; lia.
Qed.

(** X14 (bulk_updater): with a positive batch size in force (the
    resolver's own, and [COMPUTEDFIELDS_BATCHSIZE_FAST] when it is set),
    every change list handed to [_update] is non-empty and holds at most
    [_batchsize] records, the batch size as it stands after the call. *)
Theorem bulk_updater_batches_bounded (fuel : nat) (r : Resolver)
    (queryset : QuerySet) (update_fields : option (gset string))
    (return_pks : bool) (w : World) res w' :
  0 < _batchsize w →
  (∀ n, COMPUTEDFIELDS_BATCHSIZE_FAST = Some n → 0 < n) →
  bulk_updater fuel r queryset update_fields return_pks true w = (res, w') →
  ∃ new,
    trace w' = trace w ++ new ∧
    Forall (λ batch, 0 < Z.of_nat (length batch) ≤ _batchsize w')
           (update_batches new).
Proof.
  intros Hbs Hfast Hrun. unfold bulk_updater, bulk_updater_with in Hrun.
  unfold bind at 1 in Hrun. unfold lift at 1 in Hrun.
  destruct (related_lookups _ _ _ _ _) as [e|related].
  { inversion Hrun; subst. exists []. rewrite app_nil_r.
    split; [done|constructor]. }
  unfold bind at 1 in Hrun.
  destruct (settle_fastupdate w) as [r0 w0] eqn:Hsettle.
  pose proof (settle_fastupdate_batchsize _ _ _ Hbs Hfast Hsettle) as Hbs0.
  destruct (emits_quiet_settle_fastupdate _ _ _ Hsettle)
    as (new0 & Ht0 & Hquiet).
  apply quiet_update_batches in Hquiet as [Hnone _].
  destruct r0 as [e|[]].
  { inversion Hrun; subst. exists new0. split; [done|].
    rewrite Hnone. constructor. }
  unfold bind at 1 in Hrun.
  match type of Hrun with
  | context [bool_decide (?fs ≠ ∅)] => destruct (bool_decide (fs ≠ ∅))
  end.
  - unfold bind at 1 in Hrun. unfold fetch at 1 in Hrun.
    unfold bind at 1 in Hrun.
    destruct (update_loop _ _ _ _ _ _ _ _ w0) as [r1 w1] eqn:Hloop.
    apply update_loop_batches in Hloop as (Hkeep & new & Ht & Hall);
      [|done|simpl; lia].
    assert (_batchsize w' = _batchsize w1 ∧ trace w' = trace w1)
      as [Hb' Ht'].
    { destruct r1 as [e|seen]; [by inversion Hrun|].
      unfold ret at 1 in Hrun. unfold bind at 1 in Hrun.
      unfold ret at 1 in Hrun. destruct return_pks.
      - unfold bind at 1 in Hrun. unfold result_cache, ret at 1 in Hrun.
        unfold bind at 1 in Hrun. unfold lift at 1 in Hrun.
        destruct (instance_pks seen); by inversion Hrun.
      - by inversion Hrun. }
    exists (new0 ++ new). split; [by rewrite Ht', Ht, Ht0, <- app_assoc|].
    rewrite update_batches_app, Hnone, Hb', Hkeep. done.
  - assert (_batchsize w' = _batchsize w0 ∧ trace w' = trace w0)
      as [Hb' Ht'].
    { unfold ret at 1 in Hrun. unfold bind at 1 in Hrun.
      unfold ret at 1 in Hrun. destruct return_pks.
      - unfold bind at 1 in Hrun. unfold result_cache, fetch at 1 in Hrun.
        unfold bind at 1 in Hrun. unfold lift at 1 in Hrun.
        destruct (instance_pks _); by inversion Hrun.
      - by inversion Hrun. }
    exists new0. split; [by rewrite Ht', Ht0|].
    rewrite Hnone. constructor.
Qed.

End batch_facts.

Lemma bulk_updater_batches_bounded_witness :
  let w := plain_world [item_row 1 1 0 0; item_row 2 5 6 12] in
  let run := @bulk_updater plain_django 1 example_resolver (QAll "Item") None
               false true w in
  ∃ new,
    trace run.2 = trace w ++ new ∧
    Forall (λ batch, 0 < Z.of_nat (length batch) ≤ _batchsize run.2)
           (update_batches new).
Proof.
  intros w run.
  apply (@bulk_updater_batches_bounded plain_django 1 example_resolver
           (QAll "Item") None false w run.1 run.2).
  - vm_compute. reflexivity.
  - intros n Hn. vm_compute in Hn. discriminate Hn.
  - apply surjective_pairing.
Defined.

(** ** The fast path of [fast_update] *)

Section fast_path_facts.
Context `{dj : Django}.

Lemma cursor_execute_trace sql data (w : World) res w' :
  cursor_execute sql data w = (res, w') →
  trace w' = trace w ++ [EvExecute sql data].
Proof.
  unfold cursor_execute, bind, emit. simpl.
  destruct (execute _ _ _) as [r d]. by intros [= <- <-].
Qed.

Lemma flush_batches_supported model objs fieldnames batch_size tablename
    pk_field flds vendor last_counter (batches : list (Z * list Value)) :
  (∀ count, QUERY_get vendor tablename (column pk_field) flds count
            ≠ EmptyString) →
  (∀ cd, cd ∈ batches → cd.1 ≠ last_counter) →
  ∀ sql (w : World) res w',
    flush_batches model objs fieldnames batch_size tablename pk_field flds
                  vendor sql last_counter batches w = (res, w') →
    ∃ new,
      trace w' = trace w ++ new ∧
      new `prefix_of`
        statements_for vendor tablename (column pk_field) flds batches ∧
      res ≠ inr true ∧
      (returned res →
       new = statements_for vendor tablename (column pk_field) flds batches).
Proof.
  intros Hsql. induction batches as [|[counter data] batches IH];
    intros Hne sql w res w' Hrun.
  - simpl in Hrun. inversion Hrun; subst. exists [].
    rewrite app_nil_r. split_and!; done.
  - cbn [flush_batches] in Hrun.
    rewrite bool_decide_eq_true_2 in Hrun
      by (apply (Hne (counter, data)); left).
    rewrite bool_decide_eq_false_2 in Hrun by apply Hsql.
    unfold bind at 1 in Hrun. unfold emit at 1 in Hrun.
    unfold bind at 1 in Hrun.
    match type of Hrun with
    | context [cursor_execute ?s ?d ?w0] =>
      destruct (cursor_execute s d w0) as [r1 w1] eqn:Hexec
    end.
    apply cursor_execute_trace in Hexec. simpl in Hexec.
    rewrite <- app_assoc in Hexec. cbn [app] in Hexec.
    unfold statements_for. rewrite fmap_cons. cbn [concat fst snd].
    fold (statements_for vendor tablename (column pk_field) flds batches).
    match type of Hexec with _ = _ ++ ?l => set (sent := l) in * end.
    destruct r1 as [e|[]].
    + inversion Hrun; subst. exists sent. split_and!.
      * done.
      * apply (prefix_app sent []), prefix_nil.
      * done.
      * done.
    + apply IH in Hrun as (new & Ht & Hpre & Hres & Hall);
        [|intros cd Hcd; apply Hne; by right].
      exists (sent ++ new). split_and!.
      * by rewrite Ht, Hexec, <- app_assoc.
      * by apply prefix_app.
      * done.
      * intros Hret. by rewrite (Hall Hret).
Qed.

(** X15 (fast_update): on sqlite and postgresql, for a model with a
    primary key and requested names that are all local to its table, the
    call sends exactly one statement per batch, building the statement
    text anew before each, and never calls [bulk_update].  A call cut
    short by an exception has sent a prefix of these statements. *)
Theorem fast_update_one_statement_per_batch (model : Model)
    (objs : list Instance) (fieldnames : list string) (batch_size : Z)
    (pk_field : Field) (flds : list Field)
    (batches : list (Z * list Value)) (w : World) res w' :
  vendor connection ∈ ["sqlite"; "postgresql"] →
  fieldnames ≠ [] →
  split_fieldnames model fieldnames [] [] = inr ([], fieldnames) →
  pk (_meta model) = Some pk_field →
  get_all_fields model fieldnames = inr flds →
  make_batches pk_field flds batch_size objs 0 [] [] = inr batches →
  fast_update model objs fieldnames batch_size w = (res, w') →
  ∃ new,
    trace w' = trace w ++ new ∧
    new `prefix_of`
      statements_for (vendor connection) (db_table (_meta model))
                     (column pk_field) flds batches ∧
    (returned res →
     new = statements_for (vendor connection) (db_table (_meta model))
                          (column pk_field) flds batches).
Proof.
  intros Hv Hne Hsplit Hpk Hflds Hbatches Hrun.
  unfold fast_update in Hrun. rewrite Hsplit, bind_lift_inr in Hrun.
  cbn [fst snd] in Hrun.
  rewrite (bool_decide_eq_false_2 ([] ≠ [])) in Hrun by (intros Hx; by apply Hx).
  cbn [andb] in Hrun. rewrite bool_decide_eq_true_2 in Hrun by done.
  unfold fast_update_local in Hrun. rewrite Hpk, Hflds in Hrun.
  unfold bind at 1 in Hrun. unfold bind at 1 in Hrun. unfold lift at 1 in Hrun.
  rewrite Hbatches in Hrun. unfold bind at 1 in Hrun. unfold lift at 1 in Hrun.
  rewrite bool_decide_eq_false_2 in Hrun.
  2:{ intros Heq. rewrite Heq in Hv.
      apply elem_of_cons in Hv as [Hv|Hv]; [done|].
      by apply list_elem_of_singleton in Hv. }
  unfold bind at 1 in Hrun. unfold ret at 1 in Hrun.
  destruct (flush_batches _ _ _ _ _ _ _ _ _ _ _ w) as [r1 w1] eqn:Hflush.
  apply flush_batches_supported in Hflush as (new & Ht & Hpre & Hnot & Hall).
  - exists new.
    destruct r1 as [e|[|]]; [| |]; inversion Hrun; subst; try done.
  - intros count.
    apply elem_of_cons in Hv as [->|Hv]; [done|].
    apply list_elem_of_singleton in Hv as ->. done.
  - intros cd Hcd.
    assert (0 < cd.1); [|lia].
    refine (make_batches_counters _ _ _ _ 0 [] [] batches _ _ _
              Hbatches cd Hcd); [lia|set_solver|done].
Qed.

End fast_path_facts.

Lemma fast_update_one_statement_per_batch_witness :
  let objs := [item_row 1 1 2 4; item_row 2 5 6 12; item_row 3 0 1 2] in
  let run := @fast_update sqlite_django "Item" objs ["a"; "b"] 2
               (sqlite_world []) in
  let batches := [(2, [VInt 1; VInt 2; VInt 4; VInt 2; VInt 6; VInt 12]);
                  (1, [VInt 3; VInt 1; VInt 2])] in
  ∃ new,
    trace run.2 = [] ++ new ∧
    new `prefix_of`
      @statements_for sqlite_django "sqlite" "app_item" "id"
                      (plain_field <$> ["a"; "b"]) batches ∧
    (returned run.1 →
     new = @statements_for sqlite_django "sqlite" "app_item" "id"
                           (plain_field <$> ["a"; "b"]) batches).
Proof.
  intros objs run batches.
  apply (@fast_update_one_statement_per_batch sqlite_django "Item" objs
           ["a"; "b"] 2 (plain_field "id") (plain_field <$> ["a"; "b"])
           batches (sqlite_world []) run.1 run.2).
  - apply (bool_decide_unpack _). vm_compute. exact I.
  - done.
  - vm_compute. reflexivity.
  - vm_compute. reflexivity.
  - vm_compute. reflexivity.
  - vm_compute. reflexivity.
  - apply surjective_pairing.
Defined.

(** ** Start-up: sealing and the computed models *)

Section boot_facts.
Variable django_lesser_3_2 : bool.
Variable meta_fields : Model → list Boot.FieldObj.
Variable is_ComputedFieldsModel : Model → bool.

Local Abbreviation test := (generator_test django_lesser_3_2).
Local Abbreviation collect := (generator_fields django_lesser_3_2 meta_fields).

Lemma test_is_tracked (self : Boot.Resolver) (field : Boot.FieldObj) :
  test self field = true ↔ is_tracked django_lesser_3_2 self field.
Proof.
  unfold generator_test, is_tracked, Boot.contains.
  destruct django_lesser_3_2.
  - rewrite bool_decide_eq_true. split; [by intros ?|by intros [? _]].
  - rewrite andb_true_iff, !bool_decide_eq_true. split.
    + intros [? ?]. done.
    + intros [? Hc]. split; [by apply Hc|done].
Qed.

Lemma models_with_computedfields_sealed (self : Boot.Resolver) :
  Boot._sealed self = true →
  Boot.models_with_computedfields django_lesser_3_2 meta_fields self
  = (inr (omap (λ model,
                  if bool_decide (collect self model ≠ [])
                  then Some (model, collect self model) else None)
               (elements (Boot.models self))), self).
Proof.
  intros Hs.
  unfold Boot.models_with_computedfields, generator_fields, generator_test.
  rewrite Hs. cbn [negb]. by destruct django_lesser_3_2.
Qed.

Lemma collect_fold_spec (self : Boot.Resolver) (l : list Boot.FieldObj) :
  ∀ acc,
    let result :=
      foldl (λ fields field,
               if test self field then Boot.set_add field fields else fields)
            acc l in
    (∀ f, f ∈ result → f ∈ acc ∨ (f ∈ l ∧ test self f = true)) ∧
    (acc ≠ [] → result ≠ []) ∧
    ((∃ f, f ∈ l ∧ test self f = true) → result ≠ []).
Proof.
  induction l as [|g l IH]; intros acc; cbn zeta.
  - split_and!; [by left|done|]. intros (f & Hf & _).
    by apply elem_of_nil in Hf.
  - cbn [foldl].
    destruct (IH (if test self g then Boot.set_add g acc else acc))
      as (Hin & Hne & Hex).
    assert (acc ≠ [] →
            (if test self g then Boot.set_add g acc else acc) ≠ []) as Hacc.
    { intros Ha. destruct (test self g); [|done]. unfold Boot.set_add.
      case_bool_decide; [done|]. by destruct acc. }
    assert (test self g = true →
            (if test self g then Boot.set_add g acc else acc) ≠ []) as Hg.
    { intros ->. unfold Boot.set_add. case_bool_decide as Hc.
      - destruct acc; [|done]. simpl in Hc. by apply elem_of_nil in Hc.
      - by destruct acc. }
    split_and!.
    + intros f Hf. destruct (Hin f Hf) as [Hacc'|[Hl Ht]].
      * destruct (test self g) eqn:Htg; [|by left].
        unfold Boot.set_add in Hacc'. case_bool_decide; [by left|].
        apply elem_of_app in Hacc' as [?|Hfg]; [by left|].
        apply list_elem_of_singleton in Hfg as ->. right. split; [left|done].
      * right. split; [by right|done].
    + intros Ha. by apply Hne, Hacc.
    + intros (f & Hf & Ht). apply elem_of_cons in Hf as [->|Hf].
      * by apply Hne, Hg.
      * apply Hex. by exists f.
Qed.

Lemma collect_spec (self : Boot.Resolver) (model : Model) :
  (∀ f, f ∈ collect self model →
        f ∈ meta_fields model ∧ is_tracked django_lesser_3_2 self f) ∧
  (collect self model ≠ [] ↔
   ∃ f, f ∈ meta_fields model ∧ is_tracked django_lesser_3_2 self f).
Proof.
  destruct (collect_fold_spec self (meta_fields model) []) as (Hin & _ & Hex).
  fold (collect self model) in Hin, Hex. split.
  - intros f Hf. destruct (Hin f Hf) as [Hnil|[Hl Ht]].
    + by apply elem_of_nil in Hnil.
    + split; [done|]. by apply test_is_tracked.
  - split.
    + intros Hne. destruct (collect self model) as [|f l] eqn:Hc; [done|].
      destruct (Hin f) as [Hnil|[Hl Ht]]; [left| |].
      * by apply elem_of_nil in Hnil.
      * exists f. split; [done|]. by apply test_is_tracked.
    + intros (f & Hf & Ht). apply Hex. exists f. split; [done|].
      by apply test_is_tracked.
Qed.

Lemma entry_spec (fields : list Boot.FieldObj) :
  ∀ (acc : gmap string Boot.FieldObj),
    let entry :=
      foldl (λ entry field, <[Boot.attname field := field]> entry) acc fields
    in
    (∀ name field, entry !! name = Some field →
       acc !! name = Some field ∨
       (field ∈ fields ∧ Boot.attname field = name)) ∧
    (fields ≠ [] ∨ acc ≠ ∅ → entry ≠ ∅).
Proof.
  induction fields as [|g fields IH]; intros acc; cbn zeta.
  - split; [by left|]. intros [?|?]; done.
  - cbn [foldl]. destruct (IH (<[Boot.attname g := g]> acc)) as [Hin Hne].
    split.
    + intros name field Hl. destruct (Hin name field Hl) as [Hacc|[Hf Ha]].
      * destruct (decide (Boot.attname g = name)) as [<-|Hn].
        -- rewrite lookup_insert_eq in Hacc. injection Hacc as <-.
           right. split; [left|done].
        -- rewrite lookup_insert_ne in Hacc by done. by left.
      * right. split; [by right|done].
    + intros _. apply Hne. right. apply insert_non_empty.
Qed.

Lemma extract_loop_spec (pairs : list (Model * list Boot.FieldObj)) :
  ∀ acc,
    NoDup pairs.*1 →
    match Boot.extract_loop is_ComputedFieldsModel pairs acc with
    | inr cm =>
      (∀ m fl, (m, fl) ∈ pairs →
         is_ComputedFieldsModel m = true ∧
         cm !! m = Some (foldl (λ entry field,
                                  <[Boot.attname field := field]> entry)
                               ∅ fl)) ∧
      (∀ m, m ∉ pairs.*1 → cm !! m = acc !! m)
    | inl e =>
      ∃ m, m ∈ pairs.*1 ∧ is_ComputedFieldsModel m = false ∧
           e = Boot.ResolverException
                 (m +:+ " is not a subclass of ComputedFieldsModel")
    end.
Proof.
  induction pairs as [|[m fl] pairs IH]; intros acc Hnd.
  - simpl. split; [|done]. intros m fl Hin. by apply elem_of_nil in Hin.
  - cbn [Boot.extract_loop]. rewrite fmap_cons in Hnd.
    apply NoDup_cons in Hnd as [Hm Hnd].
    destruct (is_ComputedFieldsModel m) eqn:Hsub; cbn [negb].
    + specialize (IH (<[m := foldl (λ entry field,
                                      <[Boot.attname field := field]> entry)
                                   ∅ fl]> acc) Hnd).
      destruct (Boot.extract_loop _ pairs _) as [e|cm].
      * destruct IH as (m' & Hin & Hf & ->). exists m'.
        split; [by right|done].
      * destruct IH as [Hpairs Hrest]. split.
        -- intros m' fl' Hin. apply elem_of_cons in Hin as [[= -> ->]|Hin].
           ++ split; [done|]. rewrite (Hrest m Hm).
              by rewrite lookup_insert_eq.
           ++ by apply Hpairs.
        -- intros m' Hm'. rewrite fmap_cons in Hm'.
           apply not_elem_of_cons in Hm' as [Hne Hm'].
           rewrite (Hrest m' Hm'). by rewrite lookup_insert_ne.
    + exists m. split; [left|done].
Qed.

Lemma pairs_spec (self : Boot.Resolver) :
  let pairs :=
    omap (λ model,
            if bool_decide (collect self model ≠ [])
            then Some (model, collect self model) else None)
         (elements (Boot.models self)) in
  NoDup pairs.*1 ∧
  (∀ m fl, (m, fl) ∈ pairs ↔
     m ∈ Boot.models self ∧ fl = collect self m ∧ fl ≠ []) ∧
  (∀ m, m ∈ pairs.*1 ↔ m ∈ Boot.models self ∧ collect self m ≠ []).
Proof.
  cbn zeta.
  assert (∀ m fl,
    (m, fl) ∈ omap (λ model,
                      if bool_decide (collect self model ≠ [])
                      then Some (model, collect self model) else None)
                   (elements (Boot.models self)) ↔
    m ∈ Boot.models self ∧ fl = collect self m ∧ fl ≠ []) as Hmem.
  { intros m fl. rewrite list_elem_of_omap. split.
    - intros (model & Hin & Hsome). apply elem_of_elements in Hin.
      case_bool_decide as Hne; [|done]. injection Hsome as <- <-. done.
    - intros (Hin & -> & Hne). exists m.
      split; [by apply elem_of_elements|].
      by rewrite bool_decide_eq_true_2. }
  split_and!.
  - generalize (NoDup_elements (Boot.models self)).
    generalize (elements (Boot.models self)). intros l Hnd.
    induction Hnd as [|x l Hx Hnd IH]; [constructor|]. cbn [omap list_omap].
    case_bool_decide as Hne; [|exact IH].
    rewrite fmap_cons. apply NoDup_cons. split; [|exact IH].
    cbn [fst]. intros Hin. apply Hx.
    apply list_elem_of_fmap in Hin as ([m fl] & -> & Hin).
    apply list_elem_of_omap in Hin as (model & Hin & Hsome).
    case_bool_decide; [|done]. injection Hsome as <- <-. done.
  - exact Hmem.
  - intros m. rewrite list_elem_of_fmap. split.
    + intros ([m' fl] & -> & Hin). apply Hmem in Hin as (? & -> & ?). done.
    + intros [Hin Hne]. exists (m, collect self m). split; [done|].
      by apply Hmem.
Qed.

Lemma seal_sealed (self : Boot.Resolver) :
  Boot._sealed (Boot.seal self).2 = true ∧
  Boot.models (Boot.seal self).2 = Boot.models self ∧
  Boot.computedfields (Boot.seal self).2 = Boot.computedfields self.
Proof. done. Qed.

Lemma initialize_run (self : Boot.Resolver) (load_maps : Boot.B unit) :
  let sealed := (Boot.seal self).2 in
  Boot.initialize django_lesser_3_2 meta_fields is_ComputedFieldsModel
                  load_maps true self
  = match Boot.extract_loop is_ComputedFieldsModel
            (omap (λ model,
                     if bool_decide (collect sealed model ≠ [])
                     then Some (model, collect sealed model) else None)
                  (elements (Boot.models sealed))) ∅ with
    | inl e => (inl e, sealed)
    | inr cm =>
      (inr tt,
       {| Boot.models := Boot.models self;
          Boot.computedfields := Boot.computedfields self;
          Boot._computed_models := cm;
          Boot._fk_map := Boot._fk_map self;
          Boot._sealed := true;
          Boot._initialized := true;
          Boot._map_loaded := Boot._map_loaded self |})
    end.
Proof.
  cbn zeta. unfold Boot.initialize. unfold Boot.bind at 1.
  cbn [Boot.seal]. unfold Boot.bind at 1.
  assert (Boot.extract_computed_models django_lesser_3_2 meta_fields
            is_ComputedFieldsModel (Boot.seal self).2
          = (Boot.extract_loop is_ComputedFieldsModel
               (omap (λ model,
                        if bool_decide (collect (Boot.seal self).2 model ≠ [])
                        then Some (model, collect (Boot.seal self).2 model)
                        else None)
                     (elements (Boot.models (Boot.seal self).2))) ∅,
             (Boot.seal self).2)) as Hex.
  { unfold Boot.extract_computed_models.
    destruct django_lesser_3_2 eqn:Hv; unfold Boot.bind;
      rewrite <- Hv, models_with_computedfields_sealed by done; done. }
  cbn [Boot.seal snd] in Hex. rewrite Hex.
  destruct (Boot.extract_loop _ _ _) as [e|cm]; done.
Qed.

(** X16 (initialize, add_model, add_field, get_contributing_fks): once
    [initialize] has run with [models_only], whether it returned or
    raised, the resolver is sealed: [add_model] and [add_field] raise
    [ResolverException] and change nothing.  No maps are loaded by such a
    call: if none were loaded before, [get_contributing_fks] raises as
    well. *)
Theorem initialize_seals (load_maps : Boot.B unit) (self : Boot.Resolver)
    res self' (sender : Model) (field : Boot.FieldObj) :
  Boot.initialize django_lesser_3_2 meta_fields is_ComputedFieldsModel
                  load_maps true self = (res, self') →
  (∃ msg, Boot.add_model sender self'
          = (inl (Boot.ResolverException msg), self')) ∧
  (∃ msg, Boot.add_field field self'
          = (inl (Boot.ResolverException msg), self')) ∧
  (Boot._map_loaded self = false →
   ∃ msg, Boot.get_contributing_fks self'
          = (inl (Boot.ResolverException msg), self')).
Proof.
  rewrite initialize_run. cbn zeta. intros Hrun.
  assert (Boot._sealed self' = true ∧
          Boot._map_loaded self' = Boot._map_loaded self) as [Hs Hm].
  { destruct (Boot.extract_loop _ _ _); by inversion Hrun. }
  unfold Boot.add_model, Boot.add_field, Boot.get_contributing_fks,
    Boot.raise.
  rewrite Hs, Hm. split_and!; [by eexists..|].
  intros ->. by eexists.
Qed.

Lemma initialize_entries (load_maps : Boot.B unit)
    (self self' : Boot.Resolver) :
  Boot.initialize django_lesser_3_2 meta_fields is_ComputedFieldsModel
                  load_maps true self = (inr tt, self') →
  ∃ cm,
    Boot.computed_models self' = (inr cm, self') ∧
    ∀ model,
      (model ∈ Boot.models self ∧ collect self model ≠ [] →
       is_ComputedFieldsModel model = true ∧
       cm !! model = Some (foldl (λ entry field,
                                    <[Boot.attname field := field]> entry)
                                 ∅ (collect self model))) ∧
      (¬ (model ∈ Boot.models self ∧ collect self model ≠ []) →
       cm !! model = None).
Proof.
  rewrite initialize_run. cbn zeta.
  set (sealed := (Boot.seal self).2).
  destruct (pairs_spec sealed) as (Hnd & Hmem & Hkeys). cbn zeta in *.
  pose proof (extract_loop_spec _ ∅ Hnd) as Hloop.
  destruct (Boot.extract_loop _ _ _) as [e|cm]; [done|].
  destruct Hloop as [Hpairs Hrest].
  intros [= <-]. exists cm. split; [done|].
  change (collect sealed) with (collect self) in *.
  change (Boot.models sealed) with (Boot.models self) in *.
  intros model. split.
  - intros [Hin Hne]. apply Hpairs. by apply Hmem.
  - intros Hno. rewrite Hrest; [apply lookup_empty|].
    intros Hin. by apply Hkeys in Hin.
Qed.

(** X17 (initialize, computed_models, extract_computed_models,
    models_with_computedfields): after a successful [initialize] the
    property [computed_models] lists exactly the collected models that
    have a computed field among their fields.  Each listed model is a
    [ComputedFieldsModel], its entry is not empty, and every name in the
    entry is the [attname] of a computed field of that model. *)
Theorem initialize_computed_models (load_maps : Boot.B unit)
    (self self' : Boot.Resolver) :
  Boot.initialize django_lesser_3_2 meta_fields is_ComputedFieldsModel
                  load_maps true self = (inr tt, self') →
  ∃ cm,
    Boot.computed_models self' = (inr cm, self') ∧
    (∀ model,
       is_Some (cm !! model) ↔
       model ∈ Boot.models self ∧
       ∃ field, field ∈ meta_fields model ∧
                is_tracked django_lesser_3_2 self field) ∧
    (∀ model entry, cm !! model = Some entry →
       is_ComputedFieldsModel model = true ∧ entry ≠ ∅ ∧
       ∀ name field, entry !! name = Some field →
         field ∈ meta_fields model ∧
         is_tracked django_lesser_3_2 self field ∧
         Boot.attname field = name).
Proof.
  intros Hinit.
  apply initialize_entries in Hinit as (cm & Hcm & Hcases).
  exists cm. split; [done|]. split.
  - intros model. destruct (Hcases model) as [Hyes Hno]. split.
    + intros [entry Hl].
      destruct (decide (model ∈ Boot.models self
                        ∧ collect self model ≠ [])) as [[Hin Hne]|Hout];
        [|by rewrite (Hno Hout) in Hl].
      split; [done|]. by apply collect_spec.
    + intros [Hin Hfield]. apply collect_spec in Hfield.
      destruct (Hyes (conj Hin Hfield)) as [_ ->]. by eexists.
  - intros model entry Hl. destruct (Hcases model) as [Hyes Hno].
    destruct (decide (model ∈ Boot.models self
                      ∧ collect self model ≠ [])) as [Hin|Hout];
      [|by rewrite (Hno Hout) in Hl].
    destruct (Hyes Hin) as [Hsub Hcm']. rewrite Hcm' in Hl.
    injection Hl as <-. split; [done|].
    destruct (entry_spec (collect self model) ∅) as [Hnames Hnonempty].
    split; [apply Hnonempty; left; apply Hin|].
    intros name field Hf. destruct (Hnames name field Hf) as [He|[Hc Ha]].
    + by rewrite lookup_empty in He.
    + destruct (collect_spec self model) as [Hall _].
      destruct (Hall field Hc) as [Hmeta Ht]. done.
Qed.

(** X18 (initialize, extract_computed_models): a collected model that has
    a computed field but does not derive from [ComputedFieldsModel] makes
    [initialize] raise [ResolverException].  The resolver is then sealed
    but not initialized: apart from the seal it is as before, and
    [computed_models] keeps raising. *)
Theorem initialize_rejects_foreign_model (load_maps : Boot.B unit)
    (self : Boot.Resolver) (model : Model) (field : Boot.FieldObj) :
  Boot._initialized self = false →
  model ∈ Boot.models self →
  field ∈ meta_fields model →
  is_tracked django_lesser_3_2 self field →
  is_ComputedFieldsModel model = false →
  ∃ msg,
    Boot.initialize django_lesser_3_2 meta_fields is_ComputedFieldsModel
                    load_maps true self
    = (inl (Boot.ResolverException msg), (Boot.seal self).2) ∧
    ∃ msg',
      Boot.computed_models (Boot.seal self).2
      = (inl (Boot.ResolverException msg'), (Boot.seal self).2).
Proof.
  intros Hinit Hin Hf Ht Hsub. rewrite initialize_run. cbn zeta.
  set (sealed := (Boot.seal self).2).
  destruct (pairs_spec sealed) as (Hnd & Hmem & Hkeys). cbn zeta in *.
  pose proof (extract_loop_spec _ ∅ Hnd) as Hloop.
  destruct (Boot.extract_loop _ _ _) as [e|cm].
  - destruct Hloop as (m & _ & _ & ->). eexists. split; [done|].
    unfold Boot.computed_models, Boot.raise. cbn [sealed Boot.seal snd].
    cbn [Boot._initialized]. rewrite Hinit. by eexists.
  - exfalso. destruct Hloop as [Hpairs _].
    assert (collect sealed model ≠ []) as Hne.
    { apply collect_spec. by exists field. }
    destruct (Hpairs model (collect sealed model)) as [Hyes _];
      [by apply Hmem|]. congruence.
Qed.

End boot_facts.

Lemma initialize_seals_witness :
  let run := Boot.initialize false boot_meta boot_is_ComputedFieldsModel
               (Boot.ret tt) true (collected ["Item"; "Foreign"]) in
  (∃ msg, Boot.add_model "Late" run.2
          = (inl (Boot.ResolverException msg), run.2)) ∧
  (∃ msg, Boot.add_field boot_id run.2
          = (inl (Boot.ResolverException msg), run.2)) ∧
  (Boot._map_loaded (collected ["Item"; "Foreign"]) = false →
   ∃ msg, Boot.get_contributing_fks run.2
          = (inl (Boot.ResolverException msg), run.2)).
Proof.
  intros run.
  apply (initialize_seals false boot_meta boot_is_ComputedFieldsModel
           (Boot.ret tt) (collected ["Item"; "Foreign"]) run.1 run.2).
  apply surjective_pairing.
Defined.

Lemma initialize_computed_models_witness :
  let self := collected ["Item"; "Plain"] in
  let self' := (Boot.initialize false boot_meta boot_is_ComputedFieldsModel
                  (Boot.ret tt) true self).2 in
  ∃ cm,
    Boot.computed_models self' = (inr cm, self') ∧
    (∀ model,
       is_Some (cm !! model) ↔
       model ∈ Boot.models self ∧
       ∃ field, field ∈ boot_meta model ∧ is_tracked false self field) ∧
    (∀ model entry, cm !! model = Some entry →
       boot_is_ComputedFieldsModel model = true ∧ entry ≠ ∅ ∧
       ∀ name field, entry !! name = Some field →
         field ∈ boot_meta model ∧ is_tracked false self field ∧
         Boot.attname field = name).
Proof.
  intros self self'.
  apply (initialize_computed_models false boot_meta
           boot_is_ComputedFieldsModel (Boot.ret tt) self self').
  transitivity ((Boot.initialize false boot_meta boot_is_ComputedFieldsModel
                   (Boot.ret tt) true self).1, self');
    [apply surjective_pairing|].
  f_equal.
Defined.

Lemma initialize_rejects_foreign_model_witness :
  let self := collected ["Item"; "Foreign"] in
  ∃ msg,
    Boot.initialize false boot_meta boot_is_ComputedFieldsModel
                    (Boot.ret tt) true self
    = (inl (Boot.ResolverException msg), (Boot.seal self).2) ∧
    ∃ msg',
      Boot.computed_models (Boot.seal self).2
      = (inl (Boot.ResolverException msg'), (Boot.seal self).2).
Proof.
  intros self.
  apply (initialize_rejects_foreign_model false boot_meta
           boot_is_ComputedFieldsModel (Boot.ret tt) self "Foreign" boot_c).
  - reflexivity.
  - apply (bool_decide_unpack _). vm_compute. exact I.
  - apply list_elem_of_singleton. reflexivity.
  - split.
    + cbn. apply elem_of_cons. right. apply list_elem_of_singleton.
      reflexivity.
    + intros _. by eexists.
  - reflexivity.
Defined.

(** ** The dependency check of [computed] *)

Lemma check_rule_accepts (rule : Boot.PyObj) :
  Boot.check_rule rule = inr tt ↔ well_formed_rule rule.
Proof.
  unfold Boot.check_rule, well_formed_rule. split.
  - destruct (Boot.py_iter rule) as [[|path [|fieldnames [|? ?]]]|];
      try done.
    destruct path as [| |path| | |]; try done. cbn [Boot.is_str negb].
    destruct (Boot.py_iter fieldnames) as [names|] eqn:Hnames; [|done].
    destruct (forallb Boot.is_str names) eqn:Hall; [|done].
    intros _. exists path, fieldnames, names. split_and!; [done..|].
    apply Forall_forall. intros o Ho.
    rewrite forallb_forall in Hall. apply Hall. by apply list_elem_of_In.
  - intros (path & fieldnames & names & -> & -> & Hall).
    cbn [Boot.is_str negb].
    assert (forallb Boot.is_str names = true) as ->; [|done].
    apply forallb_forall. intros o Ho.
    rewrite Forall_forall in Hall. apply Hall. by apply list_elem_of_In.
Qed.

Lemma check_rules_accepts (depends : list Boot.PyObj) :
  Boot.check_rules depends = inr tt ↔ Forall well_formed_rule depends.
Proof.
  induction depends as [|rule depends IH]; [done|].
  cbn [Boot.check_rules]. rewrite Forall_cons, <- IH.
  rewrite <- check_rule_accepts.
  destruct (Boot.check_rule rule) as [e|[]].
  - split; [done|]. by intros [? _].
  - split; [by intros ?|by intros [_ ?]].
Qed.

(** X19 (_sanity_check): the check passes exactly when the field is a
    [Field] and every rule unpacks into a string and an iterable of
    strings. *)
Theorem _sanity_check_accepts (field : Boot.PyObj)
    (depends : list Boot.PyObj) :
  Boot._sanity_check field depends = inr tt ↔
  Boot.is_Field field = true ∧ Forall well_formed_rule depends.
Proof.
  unfold Boot._sanity_check. destruct (Boot.is_Field field); cbn [negb].
  - rewrite check_rules_accepts. split; [done|]. by intros [_ ?].
  - split; [done|]. by intros [? _].
Qed.

Lemma characters_are_strings (s : string) :
  forallb Boot.is_str
    ((λ c, Boot.PyStr (String c EmptyString)) <$> String.list_ascii_of_string s)
  = true.
Proof. induction s as [|c s IH]; [done|]. exact IH. Qed.

(** X20 (_sanity_check): the check cannot tell a list of field names from
    a single string: a rule whose second component is a bare string
    passes, its characters counting as the field names. *)
Theorem _sanity_check_accepts_bare_string (field : Boot.PyObj)
    (path fieldnames : string) :
  Boot.is_Field field = true →
  Boot._sanity_check field
    [Boot.PyTuple [Boot.PyStr path; Boot.PyStr fieldnames]] = inr tt.
Proof.
  intros Hf. unfold Boot._sanity_check. rewrite Hf.
  cbn [negb Boot.check_rules Boot.check_rule Boot.py_iter Boot.is_str].
  by rewrite characters_are_strings.
Qed.

Lemma _sanity_check_accepts_bare_string_witness :
  Boot._sanity_check (Boot.PyField boot_a)
    [Boot.PyTuple [Boot.PyStr "self"; Boot.PyStr "name"]] = inr tt.
Proof.
  apply (_sanity_check_accepts_bare_string (Boot.PyField boot_a)
           "self" "name").
  reflexivity.
Defined.

(** ** [precomputed] and [is_computedfield] *)

Lemma expanded_update_fields_truthy (r : Resolver) (model : Model)
    (update_fields : option Fields) (names : Fields) :
  expanded_update_fields r model update_fields = Some names →
  truthy names = true.
Proof.
  unfold expanded_update_fields.
  destruct update_fields as [[l|u|items]|]; [| | |done].
  - destruct (truthy (FList l)) eqn:Ht; [|done]. intros [= <-].
    apply (truthy_union_nonempty (FList l)).
    by apply truthy_container_nonempty.
  - destruct (truthy (FSet u)) eqn:Ht; [|done]. intros [= <-].
    apply (truthy_union_nonempty (FSet u)).
    by apply truthy_container_nonempty.
  - cbn zeta. case_bool_decide as Hne; [|done]. intros [= <-].
    by apply bool_decide_eq_true.
Qed.

(** X21 (precomputed, update_computedfields): when every compute function
    of the pass reads neither its own field nor a field assigned later,
    the wrapped save method is entered with the affected local computed
    fields in sync, each holding what its compute function yields on the
    instance as the method finds it.  It receives the [skip] flag of the
    decorator and, as [update_fields], what [update_computedfields]
    returned when that is not [None]: for a non-empty list or set the
    given names extended by the recomputed fields, for a one-shot
    iterable the names the MRO lookup left over extended by the recomputed
    fields.  Otherwise it receives the caller's argument as the call left
    it: nothing, the empty list or set, or the used-up iterable. *)
Theorem precomputed_save_enters_in_sync {A} (r : Resolver) (skip : bool)
    (save : option Fields → bool → M Frame A)
    (update_fields : option Fields) (s : Frame) cfs :
  let mro := get_local_mro r (imodel (self s)) update_fields in
  _computed_models r !! imodel (self s) = Some cfs →
  (∀ f, f ∈ mro → is_Some (cfs !! f)) →
  respects_order cfs mro →
  ∃ received s1,
    _save r skip save update_fields s = save received skip s1 ∧
    received
    = match expanded_update_fields r (imodel (self s)) update_fields with
      | Some names => Some names
      | None => exhausted <$> update_fields
      end ∧
    (∀ uf, update_fields = Some uf → (∀ items, uf ≠ FIter items) →
       received = if truthy uf
                  then Some (FSet (frozenset uf ∪ list_to_set mro))
                  else update_fields) ∧
    (∀ items, update_fields = Some (FIter items) →
       is_Some (_local_mro r !! imodel (self s)) →
       received = if bool_decide (mro ≠ [])
                  then Some (FSet (list_to_set mro))
                  else Some (FIter [])) ∧
    (update_fields = None → received = None) ∧
    imodel (self s1) = imodel (self s) ∧
    ∀ f cf, f ∈ mro → cfs !! f = Some cf →
      iattrs (self s1) !! f = Some (func cf (self s1)).
Proof.
  intros mro Hcfs Hdef Hro. unfold _save, bind.
  rewrite (update_computedfields_run r update_fields s cfs Hcfs Hdef).
  unfold update_computedfields_leaves, has_computedfields.
  rewrite (bool_decide_eq_true_2
             (is_Some (_computed_models r !! imodel (self s))))
    by (by exists cfs).
  assert ((if opt_truthy
                (expanded_update_fields r (imodel (self s)) update_fields)
           then expanded_update_fields r (imodel (self s)) update_fields
           else exhausted <$> update_fields)
          = match expanded_update_fields r (imodel (self s)) update_fields with
            | Some names => Some names
            | None => exhausted <$> update_fields
            end) as Hrec.
  { destruct (expanded_update_fields r (imodel (self s)) update_fields)
      as [names|] eqn:Hexp; [|done].
    cbn [opt_truthy]. by rewrite (expanded_update_fields_truthy _ _ _ _ Hexp). }
  eexists _, _. split_and!.
  - rewrite Hrec. reflexivity.
  - reflexivity.
  - intros uf -> Hcont. unfold expanded_update_fields. fold mro.
    destruct uf as [l|u|items]; [| |by destruct (Hcont items)].
    + by destruct (truthy (FList l)).
    + by destruct (truthy (FSet u)).
  - intros items -> Hentry. unfold expanded_update_fields. fold mro.
    rewrite (bool_decide_eq_true_2 _ Hentry), union_empty_l_L.
    destruct mro as [|f mro'] eqn:Hmro.
    + rewrite bool_decide_eq_false_2 by (intros Hx; by apply Hx).
      by rewrite bool_decide_eq_false_2 by (intros Hx; by apply Hx).
    + rewrite (bool_decide_eq_true_2 (f :: mro' ≠ [])) by done.
      rewrite bool_decide_eq_true_2; [done|].
      intros He.
      apply (not_elem_of_empty (C := gset string) f). rewrite <- He.
      rewrite list_to_set_cons. apply elem_of_union_l.
      by apply elem_of_singleton.
  - by intros ->.
  - apply assign_in_order_model.
  - intros f cf Hf Hcf. cbn [self]. by apply assign_in_order_stable.
Qed.

Lemma for_each_compute_outcome (r : Resolver) (model : Model) cfs
    (names : list string) :
  _computed_models r !! model = Some cfs →
  ∀ s0 : Frame,
    match for_each names (λ fieldname,
            new <- _compute r model fieldname ;; setattr fieldname new) s0 with
    | (inr _, _) => ∀ f, f ∈ names → is_Some (cfs !! f)
    | (inl e, _) => (∃ f, e = KeyError f) ∧
                    ¬ ∀ f, f ∈ names → is_Some (cfs !! f)
    end.
Proof.
  intros Hcfs. induction names as [|g names IH]; intros s0.
  - simpl. intros f Hf. by apply elem_of_nil in Hf.
  - cbn [for_each]. unfold bind at 1. unfold bind at 1.
    unfold _compute at 1. rewrite Hcfs.
    destruct (cfs !! g) as [cg|] eqn:Hg.
    + unfold setattr at 1. cbn [self oplog].
      match goal with
      | |- context [for_each names ?body ?s1] =>
        specialize (IH s1); destruct (for_each names body s1)
          as [[e|[]] s2]
      end.
      * destruct IH as [He Hnot]. split; [done|].
        intros Hall. apply Hnot. intros f Hf. apply Hall. by right.
      * intros f Hf. apply elem_of_cons in Hf as [->|Hf];
          [by rewrite Hg|by apply IH].
    + split; [by eexists|]. intros Hall.
      destruct (Hall g) as [? Hx]; [left|]. by rewrite Hg in Hx.
Qed.

(** X22 (is_computedfield, update_computedfields): on a model with
    computed fields [update_computedfields] returns normally exactly when
    every name of the affected local MRO is a computed field of the model
    in the sense of [is_computedfield]; otherwise it raises [KeyError]. *)
Theorem update_computedfields_returns_iff (r : Resolver)
    (update_fields : option Fields) (s : Frame) :
  has_computedfields r (imodel (self s)) = true →
  (returned (update_computedfields r update_fields s).1 ↔
   ∀ f, f ∈ get_local_mro r (imodel (self s)) update_fields →
        is_computedfield r (imodel (self s)) f = true) ∧
  (raised (update_computedfields r update_fields s).1 →
   ∃ f, (update_computedfields r update_fields s).1 = inl (KeyError f)).
Proof.
  intros Hhas. unfold has_computedfields in Hhas.
  apply bool_decide_eq_true in Hhas as [cfs Hcfs].
  assert (∀ f, is_computedfield r (imodel (self s)) f = true
               ↔ is_Some (cfs !! f)) as Hic.
  { intros f. unfold is_computedfield, get_computedfields.
    rewrite Hcfs, bool_decide_eq_true. cbn [default]. apply elem_of_dom. }
  remember (update_computedfields r update_fields s) as run eqn:Hrun.
  unfold update_computedfields, has_computedfields in Hrun.
  rewrite (bool_decide_eq_true_2
             (is_Some (_computed_models r !! imodel (self s))))
    in Hrun by (by exists cfs).
  cbn [negb] in Hrun. unfold bind at 1 in Hrun.
  revert Hrun.
  generalize (get_local_mro r (imodel (self s)) update_fields).
  intros names Hrun.
  pose proof (for_each_compute_outcome r (imodel (self s)) cfs names Hcfs s)
    as Hloop.
  destruct (for_each names _ s) as [[e|[]] s1]; subst run; cbn [fst].
  - destruct Hloop as [[f ->] Hnot]. split.
    + split; [done|]. intros Hall. exfalso. apply Hnot.
      intros g Hg. apply Hic. by apply Hall.
    + intros _. by exists f.
  - split; [|done]. split; [|done]. intros _ f Hf.
    apply Hic. by apply Hloop.
Qed.

Lemma precomputed_save_enters_in_sync_witness :
  ∃ s1,
    _save example_resolver false (λ uf skip, ret (uf, skip))
          (Some (FIter ["x"])) (fresh (item 1 0 0))
    = ret (Some (FSet (list_to_set ["a"; "b"])), false) s1 ∧
    imodel (self s1) = "Item" ∧
    ∀ f cf, f ∈ ["a"; "b"] → item_funcs !! f = Some cf →
      iattrs (self s1) !! f = Some (func cf (self s1)).
Proof.
  assert (get_local_mro example_resolver "Item" (Some (FIter ["x"]))
          = ["a"; "b"]) as Hmro by (vm_compute; reflexivity).
  destruct (precomputed_save_enters_in_sync example_resolver false
              (λ uf skip, ret (uf, skip)) (Some (FIter ["x"]))
              (fresh (item 1 0 0)) item_funcs)
    as (received & s1 & Hrun & _ & _ & Hiter & _ & Hmodel & Hsync).
  - reflexivity.
  - intros f Hf. apply (example_item_funcs_defined ["a"; "b"]); [done|].
    change (f ∈ get_local_mro example_resolver "Item" (Some (FIter ["x"])))
      in Hf.
    rewrite Hmro in Hf. exact Hf.
  - change (respects_order item_funcs
              (get_local_mro example_resolver "Item" (Some (FIter ["x"])))).
    rewrite Hmro. apply example_item_respects_order.
  - exists s1. split_and!.
    + rewrite Hrun, (Hiter ["x"] eq_refl) by (vm_compute; eauto).
      change (imodel (self (fresh (item 1 0 0)))) with "Item".
      rewrite Hmro. reflexivity.
    + exact Hmodel.
    + intros f cf Hf. apply Hsync.
      change (f ∈ get_local_mro example_resolver "Item" (Some (FIter ["x"]))).
      rewrite Hmro. exact Hf.
Defined.

Lemma update_computedfields_returns_iff_witness :
  (returned (update_computedfields example_resolver None
               (fresh (item 1 0 0))).1 ↔
   ∀ f, f ∈ get_local_mro example_resolver "Item" None →
        is_computedfield example_resolver "Item" f = true) ∧
  (raised (update_computedfields example_resolver None
             (fresh (item 1 0 0))).1 →
   ∃ f, (update_computedfields example_resolver None
           (fresh (item 1 0 0))).1 = inl (KeyError f)).
Proof.
  apply (update_computedfields_returns_iff example_resolver None
           (fresh (item 1 0 0))).
  vm_compute. reflexivity.
Defined.

(** ** From the decorator to the computed models *)

Section decorator_facts.
Variable django_lesser_3_2 : bool.
Variable meta_fields : Model → list Boot.FieldObj.
Variable is_ComputedFieldsModel : Model → bool.

(** X23 (computed, add_model, initialize): a field that went through the
    [computed] decorator and belongs to a model collected afterwards makes
    that model appear in [computed_models] once [initialize] has
    succeeded.  The decorator returned only because the dependency rules
    were well formed, and the field carries the decorated method. *)
Theorem computed_field_is_listed (load_maps : Boot.B unit)
    (field : Boot.PyObj) (depends : option (list Boot.PyObj))
    (select prefetch : option (list string)) (method : Instance → Value)
    (self self1 self2 self3 : Boot.Resolver) (cf : Boot.FieldObj)
    (model : Model) :
  Boot.computed field depends select prefetch method self = (inr cf, self1) →
  Boot.add_model model self1 = (inr tt, self2) →
  cf ∈ meta_fields model →
  Boot.initialize django_lesser_3_2 meta_fields is_ComputedFieldsModel
                  load_maps true self2 = (inr tt, self3) →
  Forall well_formed_rule (default [] depends) ∧
  (∃ c, Boot._computed cf = Some c ∧ func c = method) ∧
  is_ComputedFieldsModel model = true ∧
  ∃ cm, Boot.computed_models self3 = (inr cm, self3) ∧ is_Some (cm !! model).
Proof.
  intros Hdeco Hadd Hmeta Hinit.
  unfold Boot.computed in Hdeco.
  destruct (Boot._sanity_check field (default [] depends)) as [e|[]] eqn:Hcheck;
    [done|].
  unfold Boot._sanity_check in Hcheck.
  destruct field as [| | | | |f]; try done. cbn [Boot.is_Field negb] in Hcheck.
  apply check_rules_accepts in Hcheck.
  unfold Boot.bind, Boot.add_field, Boot.raise, Boot.ret in Hdeco.
  destruct (Boot._sealed self) eqn:Hsealed; [done|].
  injection Hdeco as <- <-.
  unfold Boot.add_model, Boot.raise in Hadd. cbn [Boot._sealed] in Hadd.
  try rewrite Hsealed in Hadd. injection Hadd as <-.
  apply initialize_entries in Hinit as (cm & Hcm & Hcases).
  destruct (Hcases model) as [[Hsub Hentry] _].
  { cbn [Boot.models]. split.
    - apply elem_of_union_r. by apply elem_of_singleton.
    - apply collect_spec. eexists. split; [exact Hmeta|].
      split; [|by eexists].
      cbn [Boot.computedfields Boot.creation_counter]. unfold Boot.set_add.
      case_bool_decide as Hc; [exact Hc|].
      rewrite fmap_app. apply elem_of_app. right.
      by apply list_elem_of_singleton. }
  split_and!.
  - done.
  - by eexists.
  - done.
  - exists cm. split; [done|by eexists].
Qed.

End decorator_facts.

Lemma computed_field_is_listed_witness :
  let deco := Boot.computed (Boot.PyField boot_id)
                (Some [Boot.PyTuple [Boot.PyStr "self";
                                     Boot.PyList [Boot.PyStr "x"]]])
                None None (λ o, int_attr o "x" (λ z, z + 1))
                Boot.__init__ in
  let meta := λ model : Model,
                match deco.1 with
                | inr cf => if bool_decide (model = "Item") then [cf] else []
                | inl _ => []
                end in
  let self2 := (Boot.add_model "Item" deco.2).2 in
  let self3 := (Boot.initialize false meta boot_is_ComputedFieldsModel
                  (Boot.ret tt) true self2).2 in
  boot_is_ComputedFieldsModel "Item" = true ∧
  ∃ cm, Boot.computed_models self3 = (inr cm, self3) ∧ is_Some (cm !! "Item").
Proof.
  intros deco meta self2 self3.
  refine (proj2 (proj2 (computed_field_is_listed false meta
            boot_is_ComputedFieldsModel (Boot.ret tt) (Boot.PyField boot_id)
            (Some [Boot.PyTuple [Boot.PyStr "self";
                                 Boot.PyList [Boot.PyStr "x"]]])
            None None (λ o, int_attr o "x" (λ z, z + 1))
            Boot.__init__ deco.2 self2 self3
            {| Boot.creation_counter := 1; Boot.attname := "id";
               Boot._computed :=
                 Some (plain (λ o, int_attr o "x" (λ z, z + 1))) |}
            "Item" _ _ _ _))).
  - reflexivity.
  - reflexivity.
  - apply list_elem_of_singleton. reflexivity.
  - transitivity ((Boot.initialize false meta boot_is_ComputedFieldsModel
                     (Boot.ret tt) true self2).1, self3);
      [apply surjective_pairing|].
    f_equal.
Defined.

(** ** Merging of dependencies *)

Lemma merge_update_covers
    (model_updates : list (Model * (gset string * gset string)))
    (model : Model) (fields paths : gset string) :
  covers (merge_update model_updates model fields paths) model fields paths ∧
  ∀ m f p, covers model_updates m f p →
           covers (merge_update model_updates model fields paths) m f p.
Proof.
  induction model_updates as [|[m0 [f0 p0]] rest [IHnew IHold]].
  - split.
    + exists fields, paths. split; [left|done].
    + intros m f p (F & P & Hin & _). by apply elem_of_nil in Hin.
  - cbn [merge_update]. destruct (decide (m0 = model)) as [->|Hne].
    + rewrite bool_decide_eq_true_2 by done. split.
      * exists (f0 ∪ fields), (p0 ∪ paths). split; [left|].
        split; apply union_subseteq_r.
      * intros m f p (F & P & Hin & Hf & Hp).
        apply elem_of_cons in Hin as [[= -> -> ->]|Hin].
        -- exists (f0 ∪ fields), (p0 ∪ paths). split; [left|].
           split; by apply union_subseteq_l'.
        -- exists F, P. split; [by right|done].
    + rewrite bool_decide_eq_false_2 by done. split.
      * destruct IHnew as (F & P & Hin & ?). exists F, P.
        split; [by right|done].
      * intros m f p (F & P & Hin & Hf & Hp).
        apply elem_of_cons in Hin as [[= -> -> ->]|Hin].
        -- exists f0, p0. split; [left|done].
        -- destruct (IHold m f p) as (F' & P' & Hin' & ?);
             [by exists F, P|].
           exists F', P'. split; [by right|done].
Qed.

Lemma merge_entries_covers
    (entries : list (Model * (gset string * gset string))) :
  ∀ model_updates,
    let merged :=
      foldl (λ model_updates entry,
               merge_update model_updates entry.1 entry.2.1 entry.2.2)
            model_updates entries in
    (∀ entry, entry ∈ entries →
              covers merged entry.1 entry.2.1 entry.2.2) ∧
    (∀ m f p, covers model_updates m f p → covers merged m f p).
Proof.
  induction entries as [|entry entries IH]; intros mu; cbn zeta.
  - split; [|done]. intros e He. by apply elem_of_nil in He.
  - cbn [foldl].
    destruct (IH (merge_update mu entry.1 entry.2.1 entry.2.2))
      as [IHnew IHold].
    destruct (merge_update_covers mu entry.1 entry.2.1 entry.2.2)
      as [Hnew Hold].
    split.
    + intros e He. apply elem_of_cons in He as [->|He].
      * by apply IHold.
      * by apply IHnew.
    + intros m f p Hc. by apply IHold, Hold.
Qed.

Lemma merge_updates_covers
    (modeldata : gmap string (list (Model * (gset string * gset string))))
    (updates : list string) :
  ∀ model_updates,
    let merged :=
      foldl (λ model_updates update,
               foldl (λ model_updates entry,
                        merge_update model_updates entry.1
                                     entry.2.1 entry.2.2)
                     model_updates (default [] (modeldata !! update)))
            model_updates updates in
    (∀ update entry,
       update ∈ updates → entry ∈ default [] (modeldata !! update) →
       covers merged entry.1 entry.2.1 entry.2.2) ∧
    (∀ m f p, covers model_updates m f p → covers merged m f p).
Proof.
  induction updates as [|update updates IH]; intros mu; cbn zeta.
  - split; [|done]. intros u e Hu. by apply elem_of_nil in Hu.
  - cbn [foldl].
    destruct (merge_entries_covers (default [] (modeldata !! update)) mu)
      as [Hnew Hold].
    match goal with
    | |- context [foldl _ ?mu' updates] => destruct (IH mu') as [IHnew IHold]
    end.
    split.
    + intros u e Hu He. apply elem_of_cons in Hu as [->|Hu].
      * apply IHold, Hnew. exact He.
      * by apply (IHnew u).
    + intros m f p Hc. by apply IHold, Hold.
Qed.

Section merging_facts.
Context `{dj : Django}.

Lemma collect_final_querysets
    (model_updates : list (Model * (gset string * gset string)))
    (subquery : string) (instance : Source) (w : World) :
  collect_final model_updates subquery instance false w
  = (inr ((λ mu : Model * (gset string * gset string),
             (mu.1, (TQuerySet (union_of_filters mu.1 mu.2.2 subquery
                                                 instance),
                     mu.2.1))) <$> model_updates), w).
Proof.
  induction model_updates as [|[m [f p]] rest IH]; [done|].
  cbn [collect_final]. unfold bind. by rewrite IH.
Qed.

(** X24 (_querysets_for_update): merging loses no dependency.  For every
    changed field that counts and every dependent model the lookup map
    lists under it, the result has the entry of that model, whose fields
    include the dependent fields listed and whose queryset filters on (at
    least) the relation paths listed. *)
Theorem _querysets_for_update_keeps_dependencies (r : Resolver)
    (model : Model) (instance : Source) (update_fields : option Fields)
    (w : World) modeldata (update : string)
    (entries : list (Model * (gset string * gset string)))
    (dependent : Model) (fields paths : gset string) :
  _map r !! model = Some modeldata →
  modeldata !! update = Some entries →
  (dependent, (fields, paths)) ∈ entries →
  (∀ names, update_fields = Some names → truthy names = true →
            update ∈ frozenset names) →
  ∃ final all_fields all_paths,
    _querysets_for_update r model instance update_fields false w
      = (inr final, w) ∧
    (dependent,
     (TQuerySet
        (union_of_filters dependent all_paths
           match instance with
           | SrcQuerySet _ => "__in"
           | SrcInstance _ => EmptyString
           end instance),
      all_fields)) ∈ final ∧
    fields ⊆ all_fields ∧ paths ⊆ all_paths.
Proof.
  intros Hmap Hupdate Hentry Hcounts. unfold _querysets_for_update.
  rewrite Hmap.
  rewrite bool_decide_eq_false_2
    by (intros ->; by rewrite lookup_empty in Hupdate).
  rewrite collect_final_querysets.
  match goal with
  | |- context [foldl ?step [] (elements ?updates)] =>
    destruct (merge_updates_covers modeldata (elements updates) [])
      as [Hcovers _];
    assert (update ∈ elements updates) as Hin
  end.
  { apply elem_of_elements.
    assert (update ∈ dom modeldata) as Hdom by (apply elem_of_dom; eauto).
    destruct update_fields as [names|]; [|done].
    destruct (truthy names) eqn:Htruthy; [|done]. cbn [negb].
    apply elem_of_filter. split; [done|]. by apply Hcounts. }
  destruct (Hcovers update (dependent, (fields, paths)) Hin)
    as (all_fields & all_paths & Hmerged & Hf & Hp).
  { by rewrite Hupdate. }
  eexists _, all_fields, all_paths. split; [done|]. split; [|done].
  apply list_elem_of_fmap. eexists. split; [|exact Hmerged]. done.
Qed.

End merging_facts.

Lemma _querysets_for_update_keeps_dependencies_witness :
  ∃ final all_fields all_paths,
    @_querysets_for_update sqlite_django (dependent_resolver "Dep") "Item"
      (SrcInstance (item_row 1 1 0 0)) (Some (FSet {["a"; "x"]})) false
      (sqlite_world [])
      = (inr final, sqlite_world []) ∧
    ("Dep",
     (TQuerySet (union_of_filters "Dep" all_paths EmptyString
                                  (SrcInstance (item_row 1 1 0 0))),
      all_fields)) ∈ final ∧
    {["c"]} ⊆ all_fields ∧ {["owner"]} ⊆ all_paths.
Proof.
  apply (@_querysets_for_update_keeps_dependencies sqlite_django
           (dependent_resolver "Dep") "Item" (SrcInstance (item_row 1 1 0 0))
           (Some (FSet {["a"; "x"]})) (sqlite_world [])
           (<["a" := [("Dep", ({["c"]}, {["owner"]}))]]> ∅) "a"
           [("Dep", ({["c"]}, {["owner"]}))] "Dep" {["c"]} {["owner"]}).
  - unfold dependent_resolver. cbn [_map]. apply lookup_insert_eq.
  - apply lookup_insert_eq.
  - left.
  - intros names [= <-] _. apply elem_of_union_l. by apply elem_of_singleton.
Defined.

(** ** The two generators *)

Lemma models_fold_spec (P : Model → bool) (l : list Model) :
  ∀ (acc : gset Model) (model : Model),
    model ∈ foldl (λ (models : gset Model) m,
                     if P m then models ∪ {[m]} else models) acc l
    ↔ model ∈ acc ∨ (model ∈ l ∧ P model = true).
Proof.
  induction l as [|m l IH]; intros acc model.
  - simpl. rewrite elem_of_nil. tauto.
  - cbn [foldl]. rewrite IH. rewrite elem_of_cons. destruct (P m) eqn:Hm.
    + rewrite elem_of_union, elem_of_singleton. split.
      * intros [[Hacc|Heq]|[Hl Hp]].
        -- by left.
        -- subst model. right. split; [by left|done].
        -- right. split; [by right|done].
      * intros [Hacc|[[Heq|Hl] Hp]].
        -- left. by left.
        -- left. by right.
        -- right. by split.
    + split.
      * intros [Hacc|[Hl Hp]]; [by left|]. right. split; [by right|done].
      * intros [Hacc|[[Heq|Hl] Hp]].
        -- by left.
        -- subst model. congruence.
        -- right. by split.
Qed.

Lemma models_inner_fold_spec (Q : Boot.FieldObj → bool) (m : Model)
    (fs : list Boot.FieldObj) :
  ∀ (acc : gset Model) (model : Model),
    model ∈ foldl (λ (models : gset Model) f,
                     if Q f then models ∪ {[m]} else models) acc fs
    ↔ model ∈ acc ∨ (model = m ∧ ∃ f, f ∈ fs ∧ Q f = true).
Proof.
  induction fs as [|g fs IH]; intros acc model.
  - simpl. split; [by left|]. intros [?|[_ (f & Hnil & _)]]; [done|].
    by apply elem_of_nil in Hnil.
  - cbn [foldl]. rewrite IH. destruct (Q g) eqn:Hg.
    + rewrite elem_of_union, elem_of_singleton. split.
      * intros [[?| ->]|[-> (f & Hf & Hq)]].
        -- by left.
        -- right. split; [done|]. exists g. split; [left|done].
        -- right. split; [done|]. exists f. split; [by right|done].
      * intros [?|[-> (f & Hf & Hq)]].
        -- left. by left.
        -- left. by right.
    + split.
      * intros [?|[-> (f & Hf & Hq)]]; [by left|].
        right. split; [done|]. exists f. split; [by right|done].
      * intros [?|[-> (f & Hf & Hq)]]; [by left|].
        apply elem_of_cons in Hf as [->|Hf]; [congruence|].
        right. split; [done|]. by exists f.
Qed.

Lemma models_nested_fold_spec (Q : Boot.FieldObj → bool)
    (meta_fields : Model → list Boot.FieldObj) (l : list Model) :
  ∀ (acc : gset Model) (model : Model),
    model ∈ foldl (λ (models : gset Model) m,
                     foldl (λ (models : gset Model) f,
                              if Q f then models ∪ {[m]} else models)
                           models (meta_fields m)) acc l
    ↔ model ∈ acc ∨
      (model ∈ l ∧ ∃ f, f ∈ meta_fields model ∧ Q f = true).
Proof.
  induction l as [|m l IH]; intros acc model.
  - simpl. rewrite elem_of_nil. tauto.
  - cbn [foldl]. rewrite IH, models_inner_fold_spec, elem_of_cons. split.
    + intros [[Hacc|[Heq Hf]]|[Hl Hf]].
      * by left.
      * subst model. right. split; [by left|done].
      * right. split; [by right|done].
    + intros [Hacc|[[Heq|Hl] Hf]].
      * left. by left.
      * subst model. left. by right.
      * right. by split.
Qed.

Section generator_facts.
Variable django_lesser_3_2 : bool.
Variable meta_fields : Model → list Boot.FieldObj.

Local Abbreviation test := (generator_test django_lesser_3_2).
Local Abbreviation collect := (generator_fields django_lesser_3_2 meta_fields).

Lemma collect_fold_counters (self : Boot.Resolver)
    (l : list Boot.FieldObj) :
  ∀ acc (c : Z),
    c ∈ Boot.creation_counter <$>
          foldl (λ fields field,
                   if test self field then Boot.set_add field fields
                   else fields) acc l
    ↔ c ∈ Boot.creation_counter <$> acc ∨
      ∃ f, f ∈ l ∧ test self f = true ∧ Boot.creation_counter f = c.
Proof.
  induction l as [|g l IH]; intros acc c.
  - simpl. split; [by left|]. intros [?|(f & Hnil & _)]; [done|].
    by apply elem_of_nil in Hnil.
  - cbn [foldl]. rewrite IH.
    assert (c ∈ Boot.creation_counter <$>
                  (if test self g then Boot.set_add g acc else acc)
            ↔ c ∈ Boot.creation_counter <$> acc ∨
              (test self g = true ∧ Boot.creation_counter g = c)) as ->.
    { destruct (test self g); [|by intuition]. unfold Boot.set_add.
      case_bool_decide as Hc.
      - split; [by left|]. intros [?|[_ <-]]; done.
      - rewrite fmap_app, elem_of_app. cbn [fmap list_fmap].
        rewrite list_elem_of_singleton. by intuition. }
    split.
    + intros [[?|[? ?]]|(f & Hf & Ht & Hc)]; [by left| |].
      * right. exists g. split; [left|done].
      * right. exists f. split; [by right|done].
    + intros [?|(f & Hf & Ht & Hc)]; [by left; left|].
      apply elem_of_cons in Hf as [->|Hf]; [left; by right|].
      right. by exists f.
Qed.

(** X25 (models_with_computedfields, computedfields_with_models): on a
    sealed resolver the two generators describe the same relation.  A
    model is listed for a collected field by the one exactly when the
    other lists, for that model, a field with the same creation counter.
    From Django 3.2 on this needs that fields with equal counters agree on
    carrying [_computed]. *)
Theorem generators_agree (self : Boot.Resolver) :
  Boot._sealed self = true →
  (django_lesser_3_2 = false →
   ∀ model f field,
     f ∈ meta_fields model → field ∈ Boot.computedfields self →
     Boot.creation_counter f = Boot.creation_counter field →
     (is_Some (Boot._computed f) ↔ is_Some (Boot._computed field))) →
  ∃ by_model by_field,
    Boot.models_with_computedfields django_lesser_3_2 meta_fields self
      = (inr by_model, self) ∧
    Boot.computedfields_with_models django_lesser_3_2 meta_fields self
      = (inr by_field, self) ∧
    ∀ model field models,
      (field, models) ∈ by_field →
      (model ∈ models ↔
       ∃ fields f, (model, fields) ∈ by_model ∧ f ∈ fields ∧
                   Boot.creation_counter f = Boot.creation_counter field).
Proof.
  intros Hsealed Hagree.
  eexists _,
    (match (Boot.computedfields_with_models django_lesser_3_2 meta_fields
              self).1 with
     | inr by_field => by_field
     | inl _ => []
     end).
  split_and!.
  - by apply models_with_computedfields_sealed.
  - unfold Boot.computedfields_with_models. rewrite Hsealed. cbn [negb].
    unfold Boot.ret. destruct django_lesser_3_2; reflexivity.
  - intros model field models Hin.
    unfold Boot.computedfields_with_models in Hin. rewrite Hsealed in Hin.
    cbn [negb] in Hin. unfold Boot.ret in Hin.
    assert ((∃ fields f,
               (model, fields)
                 ∈ omap (λ model,
                           if bool_decide (collect self model ≠ [])
                           then Some (model, collect self model) else None)
                        (elements (Boot.models self)) ∧
               f ∈ fields ∧
               Boot.creation_counter f = Boot.creation_counter field)
            ↔ model ∈ Boot.models self ∧
              ∃ f, f ∈ meta_fields model ∧ test self f = true ∧
                   Boot.creation_counter f = Boot.creation_counter field)
      as ->.
    { pose proof (collect_fold_counters self (meta_fields model) []
                    (Boot.creation_counter field)) as Hc.
      fold (collect self model) in Hc. split.
      - intros (fields & f & Hm & Hf & Hcf).
        apply list_elem_of_omap in Hm as (m & Hm & Hsome).
        case_bool_decide; [|done]. injection Hsome as -> <-.
        split; [by apply elem_of_elements|].
        destruct (proj1 Hc) as [Hnil|?]; [|by apply elem_of_nil in Hnil|done].
        apply list_elem_of_fmap. by exists f.
      - intros (Hm & f & Hf & Ht & Hcf).
        pose proof (proj2 Hc (or_intror
                      (ex_intro _ f (conj Hf (conj Ht Hcf))))) as Hmem.
        apply list_elem_of_fmap in Hmem as (g & Hgc & Hg).
        exists (collect self model), g. split_and!; [|done|done].
        apply list_elem_of_omap. exists model.
        split; [by apply elem_of_elements|].
        rewrite bool_decide_eq_true_2; [done|].
        intros Hnil. rewrite Hnil in Hg. by apply elem_of_nil in Hg. }
    unfold generator_test, Boot.contains.
    destruct django_lesser_3_2 eqn:Hv; cbn [fst] in Hin.
    + apply list_elem_of_fmap in Hin as (field' & [= -> ->] & Hfield).
      rewrite models_fold_spec, elem_of_elements.
      unfold Boot.contains. rewrite bool_decide_eq_true.
      rewrite list_elem_of_fmap. split.
      * intros [Hnil|[Hm (f & Hc & Hf)]]; [by apply not_elem_of_empty in Hnil|].
        split; [done|]. exists f. split_and!; [done| |done].
        apply bool_decide_eq_true. rewrite <- Hc.
        apply list_elem_of_fmap. by exists field'.
      * intros (Hm & f & Hf & _ & Hc). right. split; [done|]. by exists f.
    + apply list_elem_of_fmap in Hin as (field' & [= -> ->] & Hfield).
      rewrite models_nested_fold_spec, elem_of_elements. split.
      * intros [Hnil|[Hm (f & Hf & Hq)]];
          [by apply not_elem_of_empty in Hnil|].
        apply andb_true_iff in Hq as [Hcomp Hc].
        apply bool_decide_eq_true in Hcomp, Hc.
        split; [done|]. exists f. split_and!; [done| |done].
        apply andb_true_iff. split; apply bool_decide_eq_true.
        -- by apply (Hagree eq_refl model f field').
        -- rewrite Hc. apply list_elem_of_fmap. by exists field'.
      * intros (Hm & f & Hf & Hq & Hc). right. split; [done|].
        exists f. split; [done|].
        apply andb_true_iff in Hq as [Hcomp _].
        apply bool_decide_eq_true in Hcomp.
        apply andb_true_iff. split; apply bool_decide_eq_true; [|done].
        by apply (Hagree eq_refl model f field').
Qed.

End generator_facts.

Lemma generators_agree_witness :
  let self := (Boot.seal (collected ["Item"; "Foreign"])).2 in
  ∃ by_model by_field,
    Boot.models_with_computedfields false boot_meta self
      = (inr by_model, self) ∧
    Boot.computedfields_with_models false boot_meta self
      = (inr by_field, self) ∧
    ∀ model field models,
      (field, models) ∈ by_field →
      (model ∈ models ↔
       ∃ fields f, (model, fields) ∈ by_model ∧ f ∈ fields ∧
                   Boot.creation_counter f = Boot.creation_counter field).
Proof.
  intros self.
  apply (generators_agree false boot_meta self).
  - reflexivity.
  - intros _ model f field Hf Hfield Hc.
    assert (is_Some (Boot._computed field)) as Hyes.
    { apply elem_of_cons in Hfield as [->|Hfield]; [by eexists|].
      apply list_elem_of_singleton in Hfield as ->. by eexists. }
    split; [done|]. intros _.
    unfold boot_meta in Hf. repeat case_bool_decide.
    + apply elem_of_cons in Hf as [->|Hf].
      * exfalso. apply elem_of_cons in Hfield as [->|Hfield]; [done|].
        by apply list_elem_of_singleton in Hfield as ->.
      * apply list_elem_of_singleton in Hf as ->. by eexists.
    + apply list_elem_of_singleton in Hf as ->. by eexists.
    + by apply elem_of_nil in Hf.
Defined.
